(** * Fitness-Quest storage engine: B-tree, binary codec, orchestrator

    A shallow embedding of [complete_database.h] (namespace [FitnessDB]):
    the length-prefixed codec, the [CompleteBTree<K,V>] ordered map,
    [PersistentFitnessDatabase] with the records it keeps in memory and the
    bytes it keeps in its files, and one caller of it, followed by the
    properties established about them. *)

From Stdlib Require Import String Ascii.
From Stdlib Require Import List Arith ZArith Lia Bool.
From Stdlib Require Import Permutation Sorted DecimalString.
Import ListNotations.

Set Warnings "-register-all".

(** ** Keys

    [CompleteBTree] is a template over the key type and uses the operators
    [<], [<=], [>], [>=] and [==] of [K].  They are taken from one three-way
    comparison, as [std::string] defines them. *)

Class KeyOrder (K : Type) : Type := {
  key_cmp : K -> K -> comparison;
  key_cmp_eq : forall a b, key_cmp a b = Eq <-> a = b;
  key_cmp_antisym : forall a b, key_cmp b a = CompOpp (key_cmp a b);
  key_cmp_trans : forall a b c,
      key_cmp a b = Lt -> key_cmp b c = Lt -> key_cmp a c = Lt
}.

Definition key_lt {K} `{KeyOrder K} (a b : K) : bool :=
  match key_cmp a b with Lt => true | _ => false end.
Definition key_gt {K} `{KeyOrder K} (a b : K) : bool :=
  match key_cmp a b with Gt => true | _ => false end.
Definition key_le {K} `{KeyOrder K} (a b : K) : bool :=
  match key_cmp a b with Gt => false | _ => true end.
Definition key_ge {K} `{KeyOrder K} (a b : K) : bool :=
  match key_cmp a b with Lt => false | _ => true end.
Definition key_eq {K} `{KeyOrder K} (a b : K) : bool :=
  match key_cmp a b with Eq => true | _ => false end.

(** The strict and the non-strict order as propositions. *)
Definition klt {K} `{KeyOrder K} (a b : K) : Prop := key_cmp a b = Lt.
Definition kle {K} `{KeyOrder K} (a b : K) : Prop := key_cmp a b <> Gt.

(** ** The B-tree *)

Section BTree.
Context {K V : Type} `{KO : KeyOrder K}.

(** [struct BTreeNode]: every child is owned by exactly one parent, so the
    [shared_ptr] graph is a tree and is modelled by value. *)
Inductive BTreeNode : Type :=
  Node (is_leaf : bool) (keys : list (K * V)) (children : list BTreeNode).

Definition is_leaf (n : BTreeNode) : bool :=
  match n with Node l _ _ => l end.
Definition keys (n : BTreeNode) : list (K * V) :=
  match n with Node _ ks _ => ks end.
Definition children (n : BTreeNode) : list BTreeNode :=
  match n with Node _ _ cs => cs end.

Definition ORDER : nat := 3.
Definition MIN_KEYS : nat := ORDER - 1.
Definition MAX_KEYS : nat := 2 * ORDER - 1.

(** [find_key_position]: index of the first key [k] with [key <= k],
    the number of keys when there is none. *)
Fixpoint find_key_position (ks : list (K * V)) (key : K) : nat :=
  match ks with
  | [] => 0
  | kv :: rest =>
      if key_le key (fst kv) then 0 else S (find_key_position rest key)
  end.

(** [insert_key]: overwrite the value at [pos] when the key there is equal,
    otherwise insert the pair before [pos]. *)
Definition insert_key (ks : list (K * V)) (key : K) (value : V)
  : list (K * V) :=
  let pos := find_key_position ks key in
  match nth_error ks pos with
  | Some kv =>
      if key_eq (fst kv) key
      then firstn pos ks ++ (fst kv, value) :: skipn (S pos) ks
      else firstn pos ks ++ (key, value) :: skipn pos ks
  | None => firstn pos ks ++ (key, value) :: skipn pos ks
  end.

(** [split_child(parent, child_index)].  The callers only pass the index of
    an existing child that holds [MAX_KEYS] keys; outside that contract the
    C++ indexes out of range, and the model leaves the parent as it is.
    Both [resize] calls shrink, which is [firstn]: the child holds five
    keys and, when internal, six children (lemma [full_child_shape]). *)
Definition split_child (parent : BTreeNode) (child_index : nat)
  : BTreeNode :=
  match nth_error (children parent) child_index with
  | None => parent
  | Some child =>
      let mid_index := MIN_KEYS in
      match nth_error (keys child) mid_index with
      | None => parent
      | Some mid_key =>
          let new_child :=
            Node (is_leaf child)
                 (skipn (mid_index + 1) (keys child))
                 (if is_leaf child then []
                  else skipn (mid_index + 1) (children child)) in
          let child' :=
            Node (is_leaf child)
                 (firstn mid_index (keys child))
                 (if is_leaf child then children child
                  else firstn (mid_index + 1) (children child)) in
          Node (is_leaf parent)
               (insert_key (keys parent) (fst mid_key) (snd mid_key))
               (firstn child_index (children parent)
                  ++ child' :: new_child
                  :: skipn (S child_index) (children parent))
      end
  end.

(** The backwards scan of [insert_non_full]:
    [i = size - 1; while (i >= 0 && key < keys[i]) i--; i++].
    The argument [n] is the C++ [i + 1]. *)
Fixpoint scan_down (n : nat) (ks : list (K * V)) (key : K) : nat :=
  match n with
  | 0 => 0
  | S j =>
      match nth_error ks j with
      | Some kv => if key_lt key (fst kv) then scan_down j ks key else S j
      | None => S j
      end
  end.

(** Lines 194-206 of [insert_non_full]: choose the child to descend into,
    splitting it first when it is full.  Returns the node as it is after
    the possible split, and the index of the child to descend into. *)
Definition split_if_full (node : BTreeNode) (key : K) : BTreeNode * nat :=
  let i := scan_down (length (keys node)) (keys node) key in
  match nth_error (children node) i with
  | Some c =>
      if length (keys c) =? MAX_KEYS then
        let node' := split_child node i in
        match nth_error (keys node') i with
        | Some kv => if key_gt key (fst kv) then (node', S i) else (node', i)
        | None => (node', i)
        end
      else (node, i)
  | None => (node, i)
  end.

(** [children[i] = c], nothing when [i] is out of range. *)
Fixpoint set_child (i : nat) (c : BTreeNode) (cs : list BTreeNode)
  : list BTreeNode :=
  match cs, i with
  | [], _ => []
  | _ :: cs', 0 => c :: cs'
  | c0 :: cs', S i' => c0 :: set_child i' c cs'
  end.

(** [insert_non_full].  The recursion follows one root-to-leaf path of a
    tree that is being rebuilt on the way, so it is not structural; [fuel]
    bounds its depth, and [insert] supplies the height of the tree, which
    is enough (lemma [insert_non_full_fuel]). *)
Fixpoint insert_non_full (fuel : nat) (node : BTreeNode) (key : K) (value : V)
  : BTreeNode :=
  match fuel with
  | 0 => node
  | S fuel' =>
      if is_leaf node then
        Node (is_leaf node) (insert_key (keys node) key value) (children node)
      else
        let '(node', i) := split_if_full node key in
        match nth_error (children node') i with
        | Some c =>
            Node (is_leaf node') (keys node')
                 (set_child i (insert_non_full fuel' c key value)
                            (children node'))
        | None => node'
        end
  end.

(** Number of nodes on the longest root-to-leaf path. *)
Fixpoint height (n : BTreeNode) : nat :=
  match n with
  | Node _ _ cs => S (fold_right (fun c acc => Nat.max (height c) acc) 0 cs)
  end.

(** The forward scan of [search_node]:
    [i = 0; while (i < size && key > keys[i]) i++]. *)
Fixpoint scan_up (ks : list (K * V)) (key : K) : nat :=
  match ks with
  | [] => 0
  | kv :: rest => if key_gt key (fst kv) then S (scan_up rest key) else 0
  end.

(** [f(children[i])] when [i] is in range, [d] otherwise. *)
Definition at_child {A : Type} (f : BTreeNode -> A) (d : A)
  : nat -> list BTreeNode -> A :=
  fix go (i : nat) (cs : list BTreeNode) {struct cs} : A :=
    match cs with
    | [] => d
    | c :: cs' => match i with 0 => f c | S i' => go i' cs' end
    end.

(** [search_node]: [Some value] for [true] with the out-parameter set,
    [None] for [false]. *)
Fixpoint search_node (node : BTreeNode) (key : K) : option V :=
  match node with
  | Node leaf ks cs =>
      let i := scan_up ks key in
      let hit :=
        match nth_error ks i with
        | Some kv => if key_eq key (fst kv) then Some (snd kv) else None
        | None => None
        end in
      match hit with
      | Some v => Some v
      | None =>
          if leaf then None
          else at_child (fun c => search_node c key) None i cs
      end
  end.

(** The loop of the [traverse] closure of [get_all_keys]: child [i] (when
    the node is internal and has one) before key [i], then the child at
    index [keys.size()] when there is one. *)
Definition traverse_loop (rec : BTreeNode -> list K) (leaf : bool)
  : list (K * V) -> list BTreeNode -> list K :=
  fix loop (ks : list (K * V)) (cs : list BTreeNode) {struct cs} : list K :=
    match cs with
    | [] => map fst ks
    | c :: cs' =>
        match ks with
        | [] => if leaf then [] else rec c
        | kv :: ks' => (if leaf then [] else rec c) ++ fst kv :: loop ks' cs'
        end
    end.

Fixpoint traverse (node : BTreeNode) : list K :=
  match node with
  | Node leaf ks cs => traverse_loop traverse leaf ks cs
  end.

(** The [traverse_range] closure of [range_query]: the node's own pairs
    first, then every child of an internal node. *)
Fixpoint traverse_range (start end_ : K) (node : BTreeNode) : list V :=
  match node with
  | Node leaf ks cs =>
      map snd (filter (fun kv => key_ge (fst kv) start && key_le (fst kv) end_) ks)
      ++ (if leaf then []
          else flat_map (traverse_range start end_) cs)
  end.

(** [class CompleteBTree]: the root pointer. *)
Record CompleteBTree : Type := { root : BTreeNode }.

(** The constructor, and [clear]. *)
Definition empty_tree : CompleteBTree := {| root := Node true [] [] |}.

Definition insert (t : CompleteBTree) (key : K) (value : V) : CompleteBTree :=
  let root1 :=
    if length (keys (root t)) =? MAX_KEYS
    then split_child (Node false [] [root t]) 0
    else root t in
  {| root := insert_non_full (height root1) root1 key value |}.

(** [search]: [None] stands for the [runtime_error] "Key not found in
    B-Tree". *)
Definition search (t : CompleteBTree) (key : K) : option V :=
  search_node (root t) key.

Definition exists_ (t : CompleteBTree) (key : K) : bool :=
  match search_node (root t) key with Some _ => true | None => false end.

Definition get_all_keys (t : CompleteBTree) : list K := traverse (root t).

Definition get_size (t : CompleteBTree) : nat := length (get_all_keys t).

Definition range_query (t : CompleteBTree) (start end_ : K) : list V :=
  traverse_range start end_ (root t).

(** A tree built by [insert] calls from the empty tree, oldest first. *)
Definition insert_all (t : CompleteBTree) (ops : list (K * V))
  : CompleteBTree :=
  fold_left (fun t kv => insert t (fst kv) (snd kv)) ops t.

Definition build (ops : list (K * V)) : CompleteBTree :=
  insert_all empty_tree ops.

(** *** Specification vocabulary *)

(** The pairs held by the nodes of a tree, in the order in which
    [get_all_keys] visits their keys. *)
Definition stored_loop (rec : BTreeNode -> list (K * V)) (leaf : bool)
  : list (K * V) -> list BTreeNode -> list (K * V) :=
  fix loop (ks : list (K * V)) (cs : list BTreeNode) {struct cs}
    : list (K * V) :=
    match cs with
    | [] => ks
    | c :: cs' =>
        match ks with
        | [] => if leaf then [] else rec c
        | kv :: ks' => (if leaf then [] else rec c) ++ kv :: loop ks' cs'
        end
    end.

Fixpoint stored_node (node : BTreeNode) : list (K * V) :=
  match node with
  | Node leaf ks cs => stored_loop stored_node leaf ks cs
  end.

Definition stored_pairs (t : CompleteBTree) : list (K * V) :=
  stored_node (root t).

(** The proper descendants of a node, and all the nodes of a tree. *)
Fixpoint subnodes (n : BTreeNode) : list BTreeNode :=
  match n with
  | Node _ _ cs => flat_map (fun c => c :: subnodes c) cs
  end.

Definition nodes (t : CompleteBTree) : list BTreeNode :=
  root t :: subnodes (root t).

(** The nodes on which [insert_non_full] is entered during
    [insert(key, _)], each as it is at the moment of the call: the root
    handed over by [insert], then every child descended into. *)
Fixpoint descent_path (fuel : nat) (node : BTreeNode) (key : K)
  : list BTreeNode :=
  match fuel with
  | 0 => []
  | S fuel' =>
      node ::
      (if is_leaf node then []
       else
         let '(node', i) := split_if_full node key in
         match nth_error (children node') i with
         | Some c => descent_path fuel' c key
         | None => []
         end)
  end.

Definition insert_path (t : CompleteBTree) (key : K) : list BTreeNode :=
  let root1 :=
    if length (keys (root t)) =? MAX_KEYS
    then split_child (Node false [] [root t]) 0
    else root t in
  descent_path (height root1) root1 key.

(** The value of the last pair with key [k] in a list of inserts. *)
Fixpoint last_inserted (ops : list (K * V)) (k : K) : option V :=
  match ops with
  | [] => None
  | (k', v) :: rest =>
      match last_inserted rest k with
      | Some v' => Some v'
      | None => if key_eq k' k then Some v else None
      end
  end.

(** *** Structural invariant of the trees built by [insert] *)

(** One node: key count within [min_keys .. MAX_KEYS], keys strictly
    ascending, no child under a leaf, one more child than keys under an
    internal node. *)
Definition local_ok (min_keys : nat) (n : BTreeNode) : Prop :=
  min_keys <= length (keys n) <= MAX_KEYS /\
  StronglySorted klt (map fst (keys n)) /\
  (if is_leaf n then children n = []
   else length (children n) = S (length (keys n))).

Inductive subtree_ok : BTreeNode -> Prop :=
| subtree_ok_intro (n : BTreeNode) :
    local_ok MIN_KEYS n -> Forall subtree_ok (children n) -> subtree_ok n.

Definition node_ok (min_keys : nat) (n : BTreeNode) : Prop :=
  local_ok min_keys n /\ Forall subtree_ok (children n).

Definition tree_inv (t : CompleteBTree) : Prop :=
  node_ok 0 (root t) /\ StronglySorted kle (get_all_keys t).

(** The greatest height among a list of children. *)
Definition hmax (cs : list BTreeNode) : nat :=
  fold_right (fun c acc => Nat.max (height c) acc) 0 cs.

(** What the traversal of an internal node emits after a child: the next
    key, then the remaining children and keys. *)
Definition after_child (rec : BTreeNode -> list K) (ks : list (K * V))
    (cs : list BTreeNode) : list K :=
  match ks with
  | [] => []
  | kv :: ks' => fst kv :: traverse_loop rec false ks' cs
  end.

(** The same for the stored pairs. *)
Definition stored_after (rec : BTreeNode -> list (K * V)) (ks : list (K * V))
    (cs : list BTreeNode) : list (K * V) :=
  match ks with
  | [] => []
  | kv :: ks' => kv :: stored_loop rec false ks' cs
  end.

(** The two nodes [split_child] makes of a full child: the child after
    its two [resize] calls, and [new_child]. *)
Definition left_half (c : BTreeNode) : BTreeNode :=
  Node (is_leaf c) (firstn MIN_KEYS (keys c))
       (if is_leaf c then children c
        else firstn (MIN_KEYS + 1) (children c)).

Definition right_half (c : BTreeNode) : BTreeNode :=
  Node (is_leaf c) (skipn (MIN_KEYS + 1) (keys c))
       (if is_leaf c then [] else skipn (MIN_KEYS + 1) (children c)).

Definition key_count_ok (n : BTreeNode) : Prop :=
  MIN_KEYS <= length (keys n) <= MAX_KEYS.

(** The test of [range_query], and the values of the pairs that pass it. *)
Definition in_range (start end_ : K) (kv : K * V) : bool :=
  key_ge (fst kv) start && key_le (fst kv) end_.

Definition select (start end_ : K) (l : list (K * V)) : list V :=
  map snd (filter (in_range start end_) l).

(** [get_height]: the number of nodes on the leftmost path,
    [h = 1; while (!node->is_leaf && !node->children.empty())
    { node = node->children[0]; h++; }]. *)
Fixpoint get_height_node (node : BTreeNode) : nat :=
  match node with
  | Node leaf _ cs =>
      if leaf then 1
      else match cs with
           | [] => 1
           | c :: _ => S (get_height_node c)
           end
  end.

Definition get_height (t : CompleteBTree) : nat := get_height_node (root t).

(** Every path from the node down to a leaf has [h] nodes. *)
Inductive depth_is : nat -> BTreeNode -> Prop :=
| depth_leaf (ks : list (K * V)) : depth_is 1 (Node true ks [])
| depth_internal (h : nat) (ks : list (K * V)) (cs : list BTreeNode) :
    cs <> [] -> Forall (depth_is h) cs -> depth_is (S h) (Node false ks cs).

(** *** The map the inserts describe, and the two brute-force filters *)

(** [insert] as the upsert it is documented to be, on an association list:
    the value of a key that is present is replaced, a new key is added. *)
Fixpoint upsert (l : list (K * V)) (k : K) (v : V) : list (K * V) :=
  match l with
  | [] => [(k, v)]
  | (k', v') :: rest =>
      if key_eq k' k then (k, v) :: rest else (k', v') :: upsert rest k v
  end.

(** The pairs a map holds after the inserts [ops]: every inserted key once,
    with the value of its last insert. *)
Definition upserted (ops : list (K * V)) : list (K * V) :=
  fold_left (fun l kv => upsert l (fst kv) (snd kv)) ops [].

(** Brute-force filtering of all pairs of that map by key. *)
Definition brute_force (ops : list (K * V)) (low high : K) : list V :=
  select low high (upserted ops).

(** The brute force a client of the tree can run: every key of
    [get_all_keys] that lies within the bounds, with the value [search]
    returns for it. *)
Definition brute_force_by_search (t : CompleteBTree) (low high : K) : list V :=
  flat_map (fun k =>
              if key_ge k low && key_le k high then
                match search t k with
                | Some v => [v]
                | None => []
                end
              else [])
           (get_all_keys t).

End BTree.

Arguments BTreeNode : clear implicits.
Arguments CompleteBTree : clear implicits.

(** ** The binary codec *)

(** [std::ofstream]: the bytes written so far; writes are taken to succeed. *)
Definition ofstream : Type := list ascii.

Definition os_write (os : ofstream) (bytes : list ascii) : ofstream :=
  os ++ bytes.

(** [std::ifstream]: the unread bytes and whether the stream is still good.
    A read that reaches the end of the file delivers what is left and puts
    the stream in the failed state; a failed stream delivers nothing. *)
Record ifstream : Type := { unread : list ascii; good : bool }.

Definition is_read (inp : ifstream) (n : nat) : list ascii * ifstream :=
  if good inp then
    if n <=? length (unread inp)
    then (firstn n (unread inp),
          {| unread := skipn n (unread inp); good := true |})
    else (unread inp, {| unread := []; good := false |})
  else ([], inp).

(** The object representation of a [size_t]: [sizeof(size_t)] = 8 bytes,
    least significant first (the byte order of the deployment target). *)
Definition SIZEOF_SIZE_T : nat := 8.

Fixpoint encode_le (width : nat) (n : Z) : list ascii :=
  match width with
  | 0 => []
  | S w => ascii_of_N (Z.to_N (n mod 256)%Z) :: encode_le w (n / 256)%Z
  end.

Fixpoint decode_le (bytes : list ascii) : Z :=
  match bytes with
  | [] => 0%Z
  | b :: rest => (Z.of_N (N_of_ascii b) + 256 * decode_le rest)%Z
  end.

(** [is.read(reinterpret_cast<char*>(&x), sizeof(x))] for a [size_t x] that
    was not initialised: [None] when fewer than eight bytes arrive, since the
    variable then holds no determined value. *)
Definition read_size_t (inp : ifstream) : option Z * ifstream :=
  let '(bytes, inp') := is_read inp SIZEOF_SIZE_T in
  (if length bytes =? SIZEOF_SIZE_T then Some (decode_le bytes) else None, inp').

(** [vector::resize] and [string::resize]: truncate, or pad with [d]. *)
Definition resize {A : Type} (n : nat) (d : A) (l : list A) : list A :=
  firstn n l ++ repeat d (n - length l).

Definition write_string (os : ofstream) (str : string) : ofstream :=
  let len := Z.of_nat (String.length str) in
  let os1 := os_write os (encode_le SIZEOF_SIZE_T len) in
  if (0 <? len)%Z then os_write os1 (list_ascii_of_string str) else os1.

(** [read_string(is, str)]: [str] is the previous content of the
    out-parameter.  The result is [None] when the length header could not be
    read (the length is then undetermined), otherwise the new content of
    [str] and the stream after the call. *)
Definition read_string (inp : ifstream) (str : string)
  : option (string * ifstream) :=
  let '(olen, inp1) := read_size_t inp in
  match olen with
  | None => None
  | Some len =>
      if (0 <? len)%Z && (len <? 1000000)%Z then
        let n := Z.to_nat len in
        let resized := resize n Ascii.zero (list_ascii_of_string str) in
        let '(bytes, inp2) := is_read inp1 n in
        Some (string_of_list_ascii (bytes ++ skipn (length bytes) resized), inp2)
      else Some (EmptyString, inp1)
  end.

Definition write_vector_string (os : ofstream) (vec : list string)
  : ofstream :=
  let count := Z.of_nat (length vec) in
  let os1 := os_write os (encode_le SIZEOF_SIZE_T count) in
  fold_left write_string vec os1.

(** The loop [for i < count: read_string(is, vec[i])] over the resized
    vector. *)
Fixpoint read_strings (inp : ifstream) (vec : list string)
  : option (list string * ifstream) :=
  match vec with
  | [] => Some ([], inp)
  | s :: rest =>
      match read_string inp s with
      | None => None
      | Some (s', inp1) =>
          match read_strings inp1 rest with
          | None => None
          | Some (rest', inp2) => Some (s' :: rest', inp2)
          end
      end
  end.

Definition read_vector_string (inp : ifstream) (vec : list string)
  : option (list string * ifstream) :=
  let '(ocount, inp1) := read_size_t inp in
  match ocount with
  | None => None
  | Some count =>
      if (count <? 10000)%Z
      then read_strings inp1 (resize (Z.to_nat count) EmptyString vec)
      else Some ([], inp1)
  end.

(** ** Keys of the database: [std::string] *)

Lemma ascii_compare_refl (a : ascii) : Ascii.compare a a = Eq.
Proof. unfold Ascii.compare. apply N.compare_refl. Qed.

Lemma string_compare_refl (s : string) : String.compare s s = Eq.
Proof. induction s; simpl; [reflexivity |]. now rewrite ascii_compare_refl. Qed.

Lemma string_compare_eq (a b : string) : String.compare a b = Eq <-> a = b.
Proof.
  split; [apply String.compare_eq_iff | intros ->; apply string_compare_refl].
Qed.

Lemma string_compare_trans (a b c : string) :
  String.compare a b = Lt -> String.compare b c = Lt -> String.compare a c = Lt.
Proof.
  revert b c. induction a as [|x a IH]; intros [|y b] [|z c]; simpl;
    try discriminate; auto.
  destruct (Ascii.compare x y) eqn:E1; try discriminate;
    destruct (Ascii.compare y z) eqn:E2; try discriminate; intros H1 H2.
  - apply Ascii.compare_eq_iff in E1, E2. subst.
    rewrite ascii_compare_refl. eauto.
  - apply Ascii.compare_eq_iff in E1. subst. now rewrite E2.
  - apply Ascii.compare_eq_iff in E2. subst. now rewrite E1.
  - assert (E3 : Ascii.compare x z = Lt).
    { unfold Ascii.compare in *. rewrite N.compare_lt_iff in *. lia. }
    now rewrite E3.
Qed.

#[export] Instance string_KeyOrder : KeyOrder string := {|
  key_cmp := String.compare;
  key_cmp_eq := string_compare_eq;
  key_cmp_antisym := fun a b => String.compare_antisym b a;
  key_cmp_trans := string_compare_trans
|}.

(** ** Entity records *)

Inductive ExerciseDifficulty : Type :=
  BEGINNER | INTERMEDIATE | ADVANCED | EXPERT.

Inductive ExerciseType : Type :=
  STRENGTH | CARDIO | FLEXIBILITY | BALANCE | CORE.

(** The fields keep their C++ names behind a prefix for the record, since
    the four records share the name [id]. *)
Record Exercise : Type := {
  e_id : string;
  e_name : string;
  e_type : ExerciseType;
  e_difficulty : ExerciseDifficulty;
  e_description : string;
  e_target_muscles : list string;
  e_calories_per_minute : Z;
  e_prerequisites : list string;
  e_next_exercises : list string;
  e_created_at : Z
}.

Record User : Type := {
  u_id : string;
  u_username : string;
  u_email : string;
  u_password_hash : string;
  u_fitness_level : Z;
  u_experience_points : Z;
  u_completed_exercises : list string;
  u_achievements : list string;
  u_created_at : Z;
  u_last_login : Z
}.

Record Quest : Type := {
  q_id : string;
  q_title : string;
  q_description : string;
  q_priority : Z;
  q_difficulty : Z;
  q_required_exercises : list string;
  q_rewards : list string;
  q_deadline : Z;
  q_completed : bool
}.

(** [form_score] is a [float] that the engine stores and never computes
    with; it is carried as its bit pattern. *)
Record WorkoutSession : Type := {
  w_id : string;
  w_user_id : string;
  w_start_time : Z;
  w_end_time : Z;
  w_exercises : list string;
  w_total_calories : Z;
  w_validated : bool;
  w_form_score : Z
}.

Record HashTableEntry : Type := { hte_key : string; hte_value : string }.

Record GraphEdge : Type := { ge_from : string; ge_to : string; ge_weight : Z }.

Record PriorityQueueEntry : Type := {
  pq_quest : Quest;
  pq_priority : Z;
  pq_timestamp : Z
}.

(** ** Library functions the orchestrator calls *)

(** [std::to_string] on an integer. *)
Definition to_string (z : Z) : string :=
  DecimalString.NilZero.string_of_int (Z.to_int z).

(** [std::sort].  The standard fixes what the result is up to the order of
    equivalent elements: a permutation of the input in which no element is
    ordered before an earlier one.  It asks for a comparator that is a strict
    weak ordering; irreflexivity and transitivity are what the guarantee
    rests on. *)
Definition strict_order {A : Type} (comp : A -> A -> bool) : Prop :=
  (forall a, comp a a = false) /\
  (forall a b c, comp a b = true -> comp b c = true -> comp a c = true).

Class StdSort : Type := {
  std_sort : forall {A : Type}, (A -> A -> bool) -> list A -> list A;
  std_sort_perm : forall (A : Type) (comp : A -> A -> bool) (l : list A),
      Permutation l (std_sort comp l);
  std_sort_sorted : forall (A : Type) (comp : A -> A -> bool) (l : list A),
      strict_order comp ->
      StronglySorted (fun a b => comp b a = false) (std_sort comp l)
}.

(** One conforming implementation: insertion sort. *)
Fixpoint insert_sorted {A : Type} (comp : A -> A -> bool) (x : A) (l : list A)
  : list A :=
  match l with
  | [] => [x]
  | y :: l' => if comp x y then x :: l else y :: insert_sorted comp x l'
  end.

Definition insertion_sort {A : Type} (comp : A -> A -> bool) (l : list A)
  : list A :=
  fold_right (insert_sorted comp) [] l.

Lemma insert_sorted_perm {A : Type} (comp : A -> A -> bool) (x : A) (l : list A) :
  Permutation (x :: l) (insert_sorted comp x l).
Proof.
  induction l as [|y l IH]; simpl; [reflexivity |].
  destruct (comp x y); [reflexivity |].
  rewrite perm_swap. now apply perm_skip.
Qed.

Lemma insertion_sort_perm {A : Type} (comp : A -> A -> bool) (l : list A) :
  Permutation l (insertion_sort comp l).
Proof.
  induction l as [|x l IH]; simpl; [reflexivity |].
  rewrite <- insert_sorted_perm. now apply perm_skip.
Qed.

Lemma insert_sorted_sorted {A : Type} (comp : A -> A -> bool) (x : A) (l : list A) :
  strict_order comp ->
  StronglySorted (fun a b => comp b a = false) l ->
  StronglySorted (fun a b => comp b a = false) (insert_sorted comp x l).
Proof.
  intros [Hirr Htr]. induction 1 as [|y l Hs IH Hy]; simpl.
  - repeat constructor.
  - destruct (comp x y) eqn:E.
    + constructor; [now constructor |].
      assert (Hyx : comp y x = false).
      { destruct (comp y x) eqn:E'; trivial.
        rewrite <- (Hirr x). symmetry. eauto. }
      constructor; trivial.
      rewrite Forall_forall in *. intros z Hz.
      destruct (comp z x) eqn:E'; trivial.
      rewrite <- (Hy z Hz). symmetry. eauto.
    + constructor; trivial.
      rewrite Forall_forall in *. intros z Hz.
      apply (Permutation_in _ (Permutation_sym (insert_sorted_perm comp x l)))
        in Hz.
      destruct Hz as [<- | Hz]; auto.
Qed.

Lemma insertion_sort_sorted {A : Type} (comp : A -> A -> bool) (l : list A) :
  strict_order comp ->
  StronglySorted (fun a b => comp b a = false) (insertion_sort comp l).
Proof.
  intros Hc. induction l as [|x l IH]; simpl; [constructor |].
  now apply insert_sorted_sorted.
Qed.

#[export] Instance insertion_StdSort : StdSort := {|
  std_sort := @insertion_sort;
  std_sort_perm := @insertion_sort_perm;
  std_sort_sorted := @insertion_sort_sorted
|}.

(** The outcome of an operation that can throw [std::runtime_error]. *)
Inductive outcome (A : Type) : Type :=
| Returned (a : A)
| Thrown (what : string).

Arguments Returned {A} a.
Arguments Thrown {A} what.

(** ** The database orchestrator *)

Section Database.
(** [std::hash<std::string>], which the standard leaves to the
    implementation. *)
Variable std_hash : string -> Z.
Context {Sort : StdSort}.

(** What the seven files hold after the last [save_all_data], as records.
    Opening and writing the files is taken to succeed; a failure is logged
    and swallowed by the C++ and touches no field in memory. *)
Record Files : Type := {
  exercises_dat : list (string * Exercise);
  users_dat : list (string * User);
  workouts_dat : list (string * WorkoutSession);
  quests_dat : list (string * Quest);
  email_index_dat : list HashTableEntry;
  graph_dat : list GraphEdge;
  priority_queue_dat : list PriorityQueueEntry
}.

Record PersistentFitnessDatabase : Type := {
  exercise_btree : CompleteBTree string Exercise;
  user_btree : CompleteBTree string User;
  workout_btree : CompleteBTree string WorkoutSession;
  quest_btree : CompleteBTree string Quest;
  email_index : list HashTableEntry;
  graph_edges : list GraphEdge;
  pq_entries : list PriorityQueueEntry;
  files : Files
}.

Definition set_exercise_btree db t : PersistentFitnessDatabase :=
  {| exercise_btree := t; user_btree := user_btree db;
     workout_btree := workout_btree db; quest_btree := quest_btree db;
     email_index := email_index db; graph_edges := graph_edges db;
     pq_entries := pq_entries db; files := files db |}.

Definition set_user_btree db t : PersistentFitnessDatabase :=
  {| exercise_btree := exercise_btree db; user_btree := t;
     workout_btree := workout_btree db; quest_btree := quest_btree db;
     email_index := email_index db; graph_edges := graph_edges db;
     pq_entries := pq_entries db; files := files db |}.

Definition set_quest_btree db t : PersistentFitnessDatabase :=
  {| exercise_btree := exercise_btree db; user_btree := user_btree db;
     workout_btree := workout_btree db; quest_btree := t;
     email_index := email_index db; graph_edges := graph_edges db;
     pq_entries := pq_entries db; files := files db |}.

Definition set_email_index db l : PersistentFitnessDatabase :=
  {| exercise_btree := exercise_btree db; user_btree := user_btree db;
     workout_btree := workout_btree db; quest_btree := quest_btree db;
     email_index := l; graph_edges := graph_edges db;
     pq_entries := pq_entries db; files := files db |}.

Definition set_graph_edges db l : PersistentFitnessDatabase :=
  {| exercise_btree := exercise_btree db; user_btree := user_btree db;
     workout_btree := workout_btree db; quest_btree := quest_btree db;
     email_index := email_index db; graph_edges := l;
     pq_entries := pq_entries db; files := files db |}.

Definition set_pq_entries db l : PersistentFitnessDatabase :=
  {| exercise_btree := exercise_btree db; user_btree := user_btree db;
     workout_btree := workout_btree db; quest_btree := quest_btree db;
     email_index := email_index db; graph_edges := graph_edges db;
     pq_entries := l; files := files db |}.

Definition set_files db f : PersistentFitnessDatabase :=
  {| exercise_btree := exercise_btree db; user_btree := user_btree db;
     workout_btree := workout_btree db; quest_btree := quest_btree db;
     email_index := email_index db; graph_edges := graph_edges db;
     pq_entries := pq_entries db; files := f |}.

(** [save_to_file]: every key of [get_all_keys] with the value [search]
    finds for it, a key whose lookup throws being skipped. *)
Definition save_to_file {V : Type} (t : CompleteBTree string V)
  : list (string * V) :=
  flat_map (fun key => match search t key with
                       | Some value => [(key, value)]
                       | None => []
                       end)
           (get_all_keys t).

Definition save_all_data (db : PersistentFitnessDatabase)
  : PersistentFitnessDatabase :=
  set_files db
    {| exercises_dat := save_to_file (exercise_btree db);
       users_dat := save_to_file (user_btree db);
       workouts_dat := save_to_file (workout_btree db);
       quests_dat := save_to_file (quest_btree db);
       email_index_dat := email_index db;
       graph_dat := graph_edges db;
       priority_queue_dat := pq_entries db |}.

Definition no_files : Files :=
  {| exercises_dat := []; users_dat := []; workouts_dat := [];
     quests_dat := []; email_index_dat := []; graph_dat := [];
     priority_queue_dat := [] |}.

(** The members as they are constructed, before anything is loaded. *)
Definition empty_database : PersistentFitnessDatabase :=
  {| exercise_btree := empty_tree; user_btree := empty_tree;
     workout_btree := empty_tree; quest_btree := empty_tree;
     email_index := []; graph_edges := []; pq_entries := [];
     files := no_files |}.

(** [create_user].  [now_created] and [now_login] are the readings of
    [time(nullptr)] in the constructor [User()], which also sets the level
    to 1 and the experience points to 0; [now_id] is the reading that goes
    into the id, and [rnd] is what [rand()] returns. *)
Definition create_user (username email password : string)
    (now_created now_login now_id rnd : Z) (db : PersistentFitnessDatabase)
  : outcome string * PersistentFitnessDatabase :=
  if existsb (fun entry => String.eqb (hte_key entry) email) (email_index db)
  then (Thrown "Email already registered", db)
  else
    let id := ("USER_" ++ to_string now_id ++ "_"
                 ++ to_string (Z.rem rnd 10000))%string in
    let user :=
      {| u_id := id; u_username := username; u_email := email;
         u_password_hash := to_string (std_hash password);
         u_fitness_level := 1; u_experience_points := 0;
         u_completed_exercises := []; u_achievements := [];
         u_created_at := now_created; u_last_login := now_login |} in
    let db1 := set_user_btree db (insert (user_btree db) id user) in
    let db2 :=
      set_email_index db1
        (email_index db1 ++ [{| hte_key := email; hte_value := id |}]) in
    (Returned id, save_all_data db2).

Definition search_or_throw {V : Type} (t : CompleteBTree string V)
    (key : string) : outcome V :=
  match search t key with
  | Some value => Returned value
  | None => Thrown "Key not found in B-Tree"
  end.

Definition get_user (user_id : string) (db : PersistentFitnessDatabase)
  : outcome User :=
  search_or_throw (user_btree db) user_id.

Definition get_user_by_email (email : string)
    (db : PersistentFitnessDatabase) : outcome User :=
  match find (fun entry => String.eqb (hte_key entry) email)
             (email_index db) with
  | Some entry => search_or_throw (user_btree db) (hte_value entry)
  | None => Thrown ("User not found with email: " ++ email)
  end.

Definition update_user (user : User) (db : PersistentFitnessDatabase)
  : PersistentFitnessDatabase :=
  save_all_data (set_user_btree db (insert (user_btree db) (u_id user) user)).

Definition add_exercise (exercise : Exercise)
    (db : PersistentFitnessDatabase) : PersistentFitnessDatabase :=
  let db1 :=
    set_exercise_btree db
      (insert (exercise_btree db) (e_id exercise) exercise) in
  let db2 :=
    set_graph_edges db1
      (graph_edges db1
         ++ map (fun prereq => {| ge_from := prereq;
                                  ge_to := e_id exercise;
                                  ge_weight := 1 |})
                (e_prerequisites exercise)) in
  save_all_data db2.

(** The comparator of [add_quest]: [a.priority > b.priority]. *)
Definition higher_priority (a b : PriorityQueueEntry) : bool :=
  (pq_priority a >? pq_priority b)%Z.

Definition add_quest (quest : Quest) (now : Z)
    (db : PersistentFitnessDatabase) : PersistentFitnessDatabase :=
  let db1 :=
    set_quest_btree db (insert (quest_btree db) (q_id quest) quest) in
  let pushed :=
    pq_entries db1
      ++ [{| pq_quest := quest; pq_priority := q_priority quest;
             pq_timestamp := now |}] in
  let db2 := set_pq_entries db1 (std_sort higher_priority pushed) in
  save_all_data db2.

Definition get_next_quest (db : PersistentFitnessDatabase)
  : outcome Quest * PersistentFitnessDatabase :=
  match rev (pq_entries db) with
  | [] => (Thrown "No quests available", db)
  | back :: _ =>
      let quest := pq_quest back in
      let db1 := set_pq_entries db (removelast (pq_entries db)) in
      (Returned quest, save_all_data db1)
  end.

Definition get_quest (quest_id : string) (db : PersistentFitnessDatabase)
  : outcome Quest :=
  search_or_throw (quest_btree db) quest_id.

(** [initialize_sample_data]; [now1 .. now5] are the readings of
    [time(nullptr)] in the order in which they are taken. *)
Definition initialize_sample_data (now1 now2 now3 now4 now5 : Z)
    (db : PersistentFitnessDatabase) : PersistentFitnessDatabase :=
  let pushup :=
    {| e_id := "EX001"; e_name := "Push-up"; e_type := STRENGTH;
       e_difficulty := BEGINNER; e_description := EmptyString;
       e_target_muscles := []; e_calories_per_minute := 8;
       e_prerequisites := []; e_next_exercises := ["EX002"%string];
       e_created_at := now1 |} in
  let db1 :=
    set_exercise_btree db (insert (exercise_btree db) (e_id pushup) pushup) in
  let squat :=
    {| e_id := "EX002"; e_name := "Squat"; e_type := STRENGTH;
       e_difficulty := BEGINNER; e_description := EmptyString;
       e_target_muscles := []; e_calories_per_minute := 7;
       e_prerequisites := ["EX001"%string]; e_next_exercises := [];
       e_created_at := now2 |} in
  let db2 :=
    set_exercise_btree db1 (insert (exercise_btree db1) (e_id squat) squat) in
  let admin :=
    {| u_id := "ADMIN001"; u_username := "Admin";
       u_email := "admin@fitnessquest.com";
       u_password_hash := "hashed_password";
       u_fitness_level := 10; u_experience_points := 0;
       u_completed_exercises := []; u_achievements := [];
       u_created_at := now3; u_last_login := now4 |} in
  let db3 := set_user_btree db2 (insert (user_btree db2) (u_id admin) admin) in
  let db4 :=
    set_email_index db3
      (email_index db3
         ++ [{| hte_key := u_email admin; hte_value := u_id admin |}]) in
  let db5 :=
    set_graph_edges db4
      (graph_edges db4
         ++ [{| ge_from := "EX001"; ge_to := "EX002"; ge_weight := 1 |}]) in
  let daily :=
    {| q_id := "Q001"; q_title := "Daily Challenge";
       q_description := "Complete basic exercises"; q_priority := 1;
       q_difficulty := 1;
       q_required_exercises := ["EX001"%string; "EX002"%string];
       q_rewards := ["100 XP"%string]; q_deadline := 0;
       q_completed := false |} in
  let db6 := set_quest_btree db5 (insert (quest_btree db5) (q_id daily) daily) in
  let db7 :=
    set_pq_entries db6
      (pq_entries db6
         ++ [{| pq_quest := daily; pq_priority := q_priority daily;
                pq_timestamp := now5 |}]) in
  save_all_data db7.

(** A first start, at second 99, on a data directory without files: the
    constructor loads nothing and writes the sample data, so the user tree
    holds "ADMIN001".  Then six users are created within second 100,
    [rand() % 10000] being 1 .. 6: the user tree has five keys after "u4",
    the insert for "u5" splits the root and moves "USER_100_2" into the new
    internal root. *)
Definition six_users : PersistentFitnessDatabase :=
  fold_left
    (fun db '(name, email, rnd) =>
       snd (create_user name email "secret" 100 100 100 rnd db))
    [("u1", "u1@fit.org", 1); ("u2", "u2@fit.org", 2);
     ("u3", "u3@fit.org", 3); ("u4", "u4@fit.org", 4);
     ("u5", "u5@fit.org", 5); ("u6", "u6@fit.org", 6)]%Z%string
    (initialize_sample_data 99 99 99 99 99 empty_database).

(** Three quests of priorities 1, 5 and 3. *)
Definition quest_of_priority (id : string) (priority : Z) : Quest :=
  {| q_id := id; q_title := EmptyString; q_description := EmptyString;
     q_priority := priority;
     q_difficulty := 1; q_required_exercises := []; q_rewards := [];
     q_deadline := 0; q_completed := false |}.

End Database.

(** A snapshot in descending order of priority. *)
Definition descending (l : list PriorityQueueEntry) : Prop :=
  StronglySorted (fun a b => (pq_priority b <= pq_priority a)%Z) l.

(** The inserts that expose the missed case of [insert_non_full]: six keys,
    the sixth of which makes the root split and moves "K3" into the new
    internal root, then "K3" again. *)
Definition six_inserts : list (string * Z) :=
  [("K1", 1); ("K2", 2); ("K3", 3); ("K4", 4); ("K5", 5); ("K6", 6)]%Z%string.

Definition reinsert_K3 : list (string * Z) :=
  six_inserts ++ [("K3"%string, 33%Z)].


(** ** The database orchestrator: workouts, listings, statistics, reset *)

Section Operations.
Variable std_hash : string -> Z.
Context {Sort : StdSort}.

Definition set_workout_btree (db : PersistentFitnessDatabase)
    (t : CompleteBTree string WorkoutSession) : PersistentFitnessDatabase :=
  {| exercise_btree := exercise_btree db; user_btree := user_btree db;
     workout_btree := t; quest_btree := quest_btree db;
     email_index := email_index db; graph_edges := graph_edges db;
     pq_entries := pq_entries db; files := files db |}.

Definition get_exercise (exercise_id : string)
    (db : PersistentFitnessDatabase) : outcome Exercise :=
  search_or_throw (exercise_btree db) exercise_id.

(** The loop of [get_all_exercises] and [get_all_quests]: the value of
    every key of [get_all_keys], a key whose lookup throws being skipped. *)
Definition values_of_keys {V : Type} (t : CompleteBTree string V) : list V :=
  flat_map (fun key => match search t key with
                       | Some value => [value]
                       | None => []
                       end)
           (get_all_keys t).

Definition get_all_exercises (db : PersistentFitnessDatabase)
  : list Exercise :=
  values_of_keys (exercise_btree db).

Definition get_all_quests (db : PersistentFitnessDatabase) : list Quest :=
  values_of_keys (quest_btree db).

(** [start_workout].  [now_start] is the reading of [time(nullptr)] in the
    member initialisers of [WorkoutSession()], [now_id] the one in its body,
    where the id is made, and [rnd] is what [rand()] returns there. *)
Definition start_workout (user_id : string) (now_start now_id rnd : Z)
    (db : PersistentFitnessDatabase)
  : string * PersistentFitnessDatabase :=
  let id := ("WORKOUT_" ++ to_string now_id ++ "_"
               ++ to_string (Z.rem rnd 1000))%string in
  let session :=
    {| w_id := id; w_user_id := user_id; w_start_time := now_start;
       w_end_time := 0; w_exercises := []; w_total_calories := 0;
       w_validated := false; w_form_score := 0 |} in
  let db1 := set_workout_btree db (insert (workout_btree db) id session) in
  (id, save_all_data db1).

(** [complete_workout]: the lookup throws before anything is changed. *)
Definition complete_workout (workout_id : string) (now : Z)
    (db : PersistentFitnessDatabase)
  : outcome unit * PersistentFitnessDatabase :=
  match search (workout_btree db) workout_id with
  | None => (Thrown "Key not found in B-Tree", db)
  | Some session =>
      let session' :=
        {| w_id := w_id session; w_user_id := w_user_id session;
           w_start_time := w_start_time session; w_end_time := now;
           w_exercises := w_exercises session;
           w_total_calories := w_total_calories session;
           w_validated := w_validated session;
           w_form_score := w_form_score session |} in
      let db1 :=
        set_workout_btree db
          (insert (workout_btree db) workout_id session') in
      (Returned tt, save_all_data db1)
  end.

Definition get_workout (workout_id : string)
    (db : PersistentFitnessDatabase) : outcome WorkoutSession :=
  search_or_throw (workout_btree db) workout_id.

Definition get_exercise_graph (db : PersistentFitnessDatabase)
  : list GraphEdge :=
  graph_edges db.

(** [DatabaseStats], its two nested structs flattened. *)
Record DatabaseStats : Type := {
  exercise_count : nat;
  user_count : nat;
  workout_count : nat;
  quest_count : nat;
  email_index_size : nat;
  graph_edges_size : nat;
  priority_queue_size : nat
}.

Definition get_stats (db : PersistentFitnessDatabase) : DatabaseStats :=
  {| exercise_count := get_size (exercise_btree db);
     user_count := get_size (user_btree db);
     workout_count := get_size (workout_btree db);
     quest_count := get_size (quest_btree db);
     email_index_size := length (email_index db);
     graph_edges_size := length (graph_edges db);
     priority_queue_size := length (pq_entries db) |}.

(** [clear_all_data]: the members are emptied, the seven files removed,
    and the sample data written again. *)
Definition clear_all_data (now1 now2 now3 now4 now5 : Z)
    (db : PersistentFitnessDatabase) : PersistentFitnessDatabase :=
  let db1 := set_email_index db [] in
  let db2 := set_graph_edges db1 [] in
  let db3 := set_pq_entries db2 [] in
  let db4 := set_exercise_btree db3 empty_tree in
  let db5 := set_user_btree db4 empty_tree in
  let db6 := set_workout_btree db5 empty_tree in
  let db7 := set_quest_btree db6 empty_tree in
  let db8 := set_files db7 no_files in
  initialize_sample_data now1 now2 now3 now4 now5 db8.

(** The states the public operations lead to from a first start, when the
    constructor finds no file and writes the sample data. *)
Inductive reachable : PersistentFitnessDatabase -> Prop :=
| reach_first_start (now1 now2 now3 now4 now5 : Z) :
    reachable (initialize_sample_data now1 now2 now3 now4 now5 empty_database)
| reach_create_user (username email password : string)
    (now_created now_login now_id rnd : Z) (db : PersistentFitnessDatabase) :
    reachable db ->
    reachable (snd (create_user std_hash username email password
                      now_created now_login now_id rnd db))
| reach_update_user (user : User) (db : PersistentFitnessDatabase) :
    reachable db -> reachable (update_user user db)
| reach_add_exercise (exercise : Exercise) (db : PersistentFitnessDatabase) :
    reachable db -> reachable (add_exercise exercise db)
| reach_start_workout (user_id : string) (now_start now_id rnd : Z)
    (db : PersistentFitnessDatabase) :
    reachable db ->
    reachable (snd (start_workout user_id now_start now_id rnd db))
| reach_complete_workout (workout_id : string) (now : Z)
    (db : PersistentFitnessDatabase) :
    reachable db -> reachable (snd (complete_workout workout_id now db))
| reach_add_quest (quest : Quest) (now : Z) (db : PersistentFitnessDatabase) :
    reachable db -> reachable (add_quest quest now db)
| reach_get_next_quest (db : PersistentFitnessDatabase) :
    reachable db -> reachable (snd (get_next_quest db))
| reach_clear_all_data (now1 now2 now3 now4 now5 : Z)
    (db : PersistentFitnessDatabase) :
    reachable db -> reachable (clear_all_data now1 now2 now3 now4 now5 db).

(** A tree that inserts built from the empty tree. *)
Definition built {V : Type} (t : CompleteBTree string V) : Prop :=
  exists ops, t = build ops.

(** What the operations maintain: the four trees are built by inserts, no
    email is indexed twice, every indexed id is a key of the user tree, the
    snapshot of the queue is in descending order of priority, and every
    entry carries the priority of its quest. *)
Definition consistent (db : PersistentFitnessDatabase) : Prop :=
  built (exercise_btree db) /\
  built (user_btree db) /\
  built (workout_btree db) /\
  built (quest_btree db) /\
  NoDup (map hte_key (email_index db)) /\
  Forall (fun e => exists_ (user_btree db) (hte_value e) = true)
         (email_index db) /\
  descending (pq_entries db) /\
  Forall (fun e => pq_priority e = q_priority (pq_quest e)) (pq_entries db).

End Operations.

(** ** The records on disk *)

(** The functions that move the records to and from the bytes of the data
    files.  The orchestrator model above keeps the files as lists of
    records; this module is the code that produces and parses the bytes. *)

Module Disk.

(** Reading threads the stream through the calls; [None] stands for a
    result the model does not determine: a count or length read into an
    uninitialised variable from a stream that is too short, or a bit
    pattern that is no value of the model's type for the field. *)
Definition reader (A : Type) : Type := ifstream -> option (A * ifstream).

Definition ret {A : Type} (a : A) : reader A := fun inp => Some (a, inp).

Definition fail {A : Type} : reader A := fun _ => None.

Definition bind {A B : Type} (r : reader A) (f : A -> reader B) : reader B :=
  fun inp =>
    match r inp with
    | None => None
    | Some (a, inp') => f a inp'
    end.

Notation "x <- r ;; k" := (bind r (fun x => k))
  (at level 61, r at next level, right associativity).

Definition opened (bytes : list ascii) : ifstream :=
  {| unread := bytes; good := true |}.

(** *** Scalars, by their object representation (LP64, little endian) *)

Definition SIZEOF_INT : nat := 4.
Definition SIZEOF_TIME_T : nat := 8.
Definition SIZEOF_FLOAT : nat := 4.
Definition SIZEOF_BOOL : nat := 1.

(** [is.read(reinterpret_cast<char*>(&x), sizeof(x))] into an object whose
    bytes are [prior]: the bytes that arrive replace the first bytes of the
    object, the others stay. *)
Definition read_object (width : nat) (prior : list ascii)
  : reader (list ascii) :=
  fun inp =>
    let '(bytes, inp') := is_read inp width in
    Some (bytes ++ skipn (length bytes) prior, inp').

(** The value of a two's complement integer of [width] bytes. *)
Definition signed (width : nat) (u : Z) : Z :=
  if (u <? 2 ^ (8 * Z.of_nat width - 1))%Z then u
  else (u - 2 ^ (8 * Z.of_nat width))%Z.

Definition write_int (os : ofstream) (x : Z) : ofstream :=
  os_write os (encode_le SIZEOF_INT x).

Definition read_int (x : Z) : reader Z :=
  bytes <- read_object SIZEOF_INT (encode_le SIZEOF_INT x);;
  ret (signed SIZEOF_INT (decode_le bytes)).

Definition write_time_t (os : ofstream) (x : Z) : ofstream :=
  os_write os (encode_le SIZEOF_TIME_T x).

Definition read_time_t (x : Z) : reader Z :=
  bytes <- read_object SIZEOF_TIME_T (encode_le SIZEOF_TIME_T x);;
  ret (signed SIZEOF_TIME_T (decode_le bytes)).

(** A [float] travels as its bit pattern. *)
Definition write_float (os : ofstream) (x : Z) : ofstream :=
  os_write os (encode_le SIZEOF_FLOAT x).

Definition read_float (x : Z) : reader Z :=
  bytes <- read_object SIZEOF_FLOAT (encode_le SIZEOF_FLOAT x);;
  ret (decode_le bytes).

Definition bool_to_int (b : bool) : Z := if b then 1%Z else 0%Z.

Definition write_bool (os : ofstream) (b : bool) : ofstream :=
  os_write os (encode_le SIZEOF_BOOL (bool_to_int b)).

Definition read_bool (b : bool) : reader bool :=
  bytes <- read_object SIZEOF_BOOL (encode_le SIZEOF_BOOL (bool_to_int b));;
  match decode_le bytes with
  | 0%Z => ret false
  | 1%Z => ret true
  | _ => fail
  end.

(** The two [enum class]es have the underlying type [int]. *)
Definition ExerciseType_to_int (t : ExerciseType) : Z :=
  match t with
  | STRENGTH => 0 | CARDIO => 1 | FLEXIBILITY => 2 | BALANCE => 3 | CORE => 4
  end%Z.

Definition ExerciseType_of_int (z : Z) : option ExerciseType :=
  match z with
  | 0 => Some STRENGTH | 1 => Some CARDIO | 2 => Some FLEXIBILITY
  | 3 => Some BALANCE | 4 => Some CORE | _ => None
  end%Z.

Definition ExerciseDifficulty_to_int (d : ExerciseDifficulty) : Z :=
  match d with
  | BEGINNER => 0 | INTERMEDIATE => 1 | ADVANCED => 2 | EXPERT => 3
  end%Z.

Definition ExerciseDifficulty_of_int (z : Z) : option ExerciseDifficulty :=
  match z with
  | 0 => Some BEGINNER | 1 => Some INTERMEDIATE | 2 => Some ADVANCED
  | 3 => Some EXPERT | _ => None
  end%Z.

Definition write_ExerciseType (os : ofstream) (t : ExerciseType) : ofstream :=
  write_int os (ExerciseType_to_int t).

Definition read_ExerciseType (t : ExerciseType) : reader ExerciseType :=
  z <- read_int (ExerciseType_to_int t);;
  match ExerciseType_of_int z with Some t' => ret t' | None => fail end.

Definition write_ExerciseDifficulty (os : ofstream) (d : ExerciseDifficulty)
  : ofstream :=
  write_int os (ExerciseDifficulty_to_int d).

Definition read_ExerciseDifficulty (d : ExerciseDifficulty)
  : reader ExerciseDifficulty :=
  z <- read_int (ExerciseDifficulty_to_int d);;
  match ExerciseDifficulty_of_int z with Some d' => ret d' | None => fail end.

(** [read_string] and [read_vector_string] as readers; the argument is the
    out-parameter as it is before the call. *)
Definition get_string (str : string) : reader string :=
  fun inp => read_string inp str.

Definition get_vector_string (vec : list string) : reader (list string) :=
  fun inp => read_vector_string inp vec.

(** *** [serialize] and [deserialize] of the records *)

Definition Exercise_serialize (os : ofstream) (x : Exercise) : ofstream :=
  let os := write_string os (e_id x) in
  let os := write_string os (e_name x) in
  let os := write_ExerciseType os (e_type x) in
  let os := write_ExerciseDifficulty os (e_difficulty x) in
  let os := write_string os (e_description x) in
  let os := write_vector_string os (e_target_muscles x) in
  let os := write_int os (e_calories_per_minute x) in
  let os := write_vector_string os (e_prerequisites x) in
  let os := write_vector_string os (e_next_exercises x) in
  write_time_t os (e_created_at x).

Definition Exercise_deserialize (x : Exercise) : reader Exercise :=
  id <- get_string (e_id x);;
  name <- get_string (e_name x);;
  type <- read_ExerciseType (e_type x);;
  difficulty <- read_ExerciseDifficulty (e_difficulty x);;
  description <- get_string (e_description x);;
  target_muscles <- get_vector_string (e_target_muscles x);;
  calories_per_minute <- read_int (e_calories_per_minute x);;
  prerequisites <- get_vector_string (e_prerequisites x);;
  next_exercises <- get_vector_string (e_next_exercises x);;
  created_at <- read_time_t (e_created_at x);;
  ret {| e_id := id; e_name := name; e_type := type;
         e_difficulty := difficulty; e_description := description;
         e_target_muscles := target_muscles;
         e_calories_per_minute := calories_per_minute;
         e_prerequisites := prerequisites;
         e_next_exercises := next_exercises;
         e_created_at := created_at |}.

Definition User_serialize (os : ofstream) (x : User) : ofstream :=
  let os := write_string os (u_id x) in
  let os := write_string os (u_username x) in
  let os := write_string os (u_email x) in
  let os := write_string os (u_password_hash x) in
  let os := write_int os (u_fitness_level x) in
  let os := write_int os (u_experience_points x) in
  let os := write_vector_string os (u_completed_exercises x) in
  let os := write_vector_string os (u_achievements x) in
  let os := write_time_t os (u_created_at x) in
  write_time_t os (u_last_login x).

Definition User_deserialize (x : User) : reader User :=
  id <- get_string (u_id x);;
  username <- get_string (u_username x);;
  email <- get_string (u_email x);;
  password_hash <- get_string (u_password_hash x);;
  fitness_level <- read_int (u_fitness_level x);;
  experience_points <- read_int (u_experience_points x);;
  completed_exercises <- get_vector_string (u_completed_exercises x);;
  achievements <- get_vector_string (u_achievements x);;
  created_at <- read_time_t (u_created_at x);;
  last_login <- read_time_t (u_last_login x);;
  ret {| u_id := id; u_username := username; u_email := email;
         u_password_hash := password_hash; u_fitness_level := fitness_level;
         u_experience_points := experience_points;
         u_completed_exercises := completed_exercises;
         u_achievements := achievements;
         u_created_at := created_at; u_last_login := last_login |}.

Definition Quest_serialize (os : ofstream) (x : Quest) : ofstream :=
  let os := write_string os (q_id x) in
  let os := write_string os (q_title x) in
  let os := write_string os (q_description x) in
  let os := write_int os (q_priority x) in
  let os := write_int os (q_difficulty x) in
  let os := write_vector_string os (q_required_exercises x) in
  let os := write_vector_string os (q_rewards x) in
  let os := write_time_t os (q_deadline x) in
  write_bool os (q_completed x).

Definition Quest_deserialize (x : Quest) : reader Quest :=
  id <- get_string (q_id x);;
  title <- get_string (q_title x);;
  description <- get_string (q_description x);;
  priority <- read_int (q_priority x);;
  difficulty <- read_int (q_difficulty x);;
  required_exercises <- get_vector_string (q_required_exercises x);;
  rewards <- get_vector_string (q_rewards x);;
  deadline <- read_time_t (q_deadline x);;
  completed <- read_bool (q_completed x);;
  ret {| q_id := id; q_title := title; q_description := description;
         q_priority := priority; q_difficulty := difficulty;
         q_required_exercises := required_exercises; q_rewards := rewards;
         q_deadline := deadline; q_completed := completed |}.

Definition WorkoutSession_serialize (os : ofstream) (x : WorkoutSession)
  : ofstream :=
  let os := write_string os (w_id x) in
  let os := write_string os (w_user_id x) in
  let os := write_time_t os (w_start_time x) in
  let os := write_time_t os (w_end_time x) in
  let os := write_vector_string os (w_exercises x) in
  let os := write_int os (w_total_calories x) in
  let os := write_bool os (w_validated x) in
  write_float os (w_form_score x).

Definition WorkoutSession_deserialize (x : WorkoutSession)
  : reader WorkoutSession :=
  id <- get_string (w_id x);;
  user_id <- get_string (w_user_id x);;
  start_time <- read_time_t (w_start_time x);;
  end_time <- read_time_t (w_end_time x);;
  exercises <- get_vector_string (w_exercises x);;
  total_calories <- read_int (w_total_calories x);;
  validated <- read_bool (w_validated x);;
  form_score <- read_float (w_form_score x);;
  ret {| w_id := id; w_user_id := user_id; w_start_time := start_time;
         w_end_time := end_time; w_exercises := exercises;
         w_total_calories := total_calories; w_validated := validated;
         w_form_score := form_score |}.

Definition HashTableEntry_serialize (os : ofstream) (x : HashTableEntry)
  : ofstream :=
  let os := write_string os (hte_key x) in
  write_string os (hte_value x).

Definition HashTableEntry_deserialize (x : HashTableEntry)
  : reader HashTableEntry :=
  key <- get_string (hte_key x);;
  value <- get_string (hte_value x);;
  ret {| hte_key := key; hte_value := value |}.

Definition GraphEdge_serialize (os : ofstream) (x : GraphEdge) : ofstream :=
  let os := write_string os (ge_from x) in
  let os := write_string os (ge_to x) in
  write_int os (ge_weight x).

Definition GraphEdge_deserialize (x : GraphEdge) : reader GraphEdge :=
  from <- get_string (ge_from x);;
  to <- get_string (ge_to x);;
  weight <- read_int (ge_weight x);;
  ret {| ge_from := from; ge_to := to; ge_weight := weight |}.

Definition PriorityQueueEntry_serialize (os : ofstream)
    (x : PriorityQueueEntry) : ofstream :=
  let os := Quest_serialize os (pq_quest x) in
  let os := write_int os (pq_priority x) in
  write_time_t os (pq_timestamp x).

Definition PriorityQueueEntry_deserialize (x : PriorityQueueEntry)
  : reader PriorityQueueEntry :=
  quest <- Quest_deserialize (pq_quest x);;
  priority <- read_int (pq_priority x);;
  timestamp <- read_time_t (pq_timestamp x);;
  ret {| pq_quest := quest; pq_priority := priority;
         pq_timestamp := timestamp |}.

(** *** The pair functions handed to the B-tree *)

Definition save_exercise_pair (os : ofstream) (key : string) (value : Exercise)
  : ofstream :=
  Exercise_serialize (write_string os key) value.

Definition load_exercise_pair (key : string) (value : Exercise)
  : reader (string * Exercise) :=
  key' <- get_string key;;
  value' <- Exercise_deserialize value;;
  ret (key', value').

Definition save_user_pair (os : ofstream) (key : string) (value : User)
  : ofstream :=
  User_serialize (write_string os key) value.

Definition load_user_pair (key : string) (value : User)
  : reader (string * User) :=
  key' <- get_string key;;
  value' <- User_deserialize value;;
  ret (key', value').

Definition save_workout_pair (os : ofstream) (key : string)
    (value : WorkoutSession) : ofstream :=
  WorkoutSession_serialize (write_string os key) value.

Definition load_workout_pair (key : string) (value : WorkoutSession)
  : reader (string * WorkoutSession) :=
  key' <- get_string key;;
  value' <- WorkoutSession_deserialize value;;
  ret (key', value').

Definition save_quest_pair (os : ofstream) (key : string) (value : Quest)
  : ofstream :=
  Quest_serialize (write_string os key) value.

Definition load_quest_pair (key : string) (value : Quest)
  : reader (string * Quest) :=
  key' <- get_string key;;
  value' <- Quest_deserialize value;;
  ret (key', value').

(** *** [CompleteBTree::save_to_file] and [load_from_file] *)

Section TreeFile.
Context {K V : Type} `{KO : KeyOrder K}.

(** [save_to_file]: the content of the file, which opens for writing.  The
    count is that of the keys; a key whose lookup throws is skipped. *)
Definition save_to_file
    (save_func : ofstream -> K -> V -> ofstream) (t : CompleteBTree K V)
  : ofstream :=
  let keys := get_all_keys t in
  let count := Z.of_nat (length keys) in
  let file := os_write [] (encode_le SIZEOF_SIZE_T count) in
  fold_left (fun file key =>
               match search t key with
               | Some value => save_func file key value
               | None => file
               end)
            keys file.

(** The loop of [load_from_file] from iteration [i] on, [n] iterations to
    go.  [fresh i] is the pair [K key; V value;] that iteration [i]
    constructs before it calls [load_func].  Neither [load_func] nor
    [insert] raises an exception here, so the [catch] that would leave the
    loop is never entered. *)
Fixpoint load_loop (load_func : K -> V -> reader (K * V))
    (fresh : nat -> K * V) (n i : nat) (file : ifstream)
    (t : CompleteBTree K V) : option (CompleteBTree K V) :=
  match n with
  | 0 => Some t
  | S n' =>
      match load_func (fst (fresh i)) (snd (fresh i)) file with
      | None => None
      | Some ((key, value), file') =>
          load_loop load_func fresh n' (S i) file' (insert t key value)
      end
  end.

(** [load_from_file]: [content] is [None] when the file does not exist.
    The tree is not cleared first: the pairs read are inserted into it. *)
Definition load_from_file (load_func : K -> V -> reader (K * V))
    (fresh : nat -> K * V) (content : option (list ascii))
    (t : CompleteBTree K V) : option (CompleteBTree K V) :=
  match content with
  | None => Some t
  | Some bytes =>
      let '(ocount, file) := read_size_t (opened bytes) in
      match ocount with
      | None => None
      | Some count =>
          if (1000000 <? count)%Z then Some t
          else load_loop load_func fresh (Z.to_nat count) 0 file t
      end
  end.

End TreeFile.

(** *** The three vector files *)

(** [save_hash_table], [save_graph] and [save_priority_queue] are one piece
    of code over three element types, and so are the three loads. *)
Definition save_entries {A : Type} (serialize : ofstream -> A -> ofstream)
    (entries : list A) : ofstream :=
  let count := Z.of_nat (length entries) in
  let file := os_write [] (encode_le SIZEOF_SIZE_T count) in
  fold_left serialize entries file.

(** The loop [for i < count: entries[i].deserialize(file)]. *)
Fixpoint deserialize_each {A : Type} (deserialize : A -> reader A)
    (entries : list A) : reader (list A) :=
  match entries with
  | [] => ret []
  | x :: rest =>
      x' <- deserialize x;;
      rest' <- deserialize_each deserialize rest;;
      ret (x' :: rest')
  end.

(** [default] is the value-initialised element [resize] pads with.  With a
    count of 100000 or more the vector is left as it is. *)
Definition load_entries {A : Type} (deserialize : A -> reader A) (default : A)
    (content : option (list ascii)) (entries : list A) : option (list A) :=
  match content with
  | None => Some entries
  | Some bytes =>
      let '(ocount, file) := read_size_t (opened bytes) in
      match ocount with
      | None => None
      | Some count =>
          if (count <? 100000)%Z then
            match deserialize_each deserialize
                    (resize (Z.to_nat count) default entries) file with
            | None => None
            | Some (entries', _) => Some entries'
            end
          else Some entries
      end
  end.

(** [Quest()]. *)
Definition default_Quest : Quest :=
  {| q_id := EmptyString; q_title := EmptyString;
     q_description := EmptyString; q_priority := 1; q_difficulty := 1;
     q_required_exercises := []; q_rewards := []; q_deadline := 0;
     q_completed := false |}.

Definition default_HashTableEntry : HashTableEntry :=
  {| hte_key := EmptyString; hte_value := EmptyString |}.

Definition default_GraphEdge : GraphEdge :=
  {| ge_from := EmptyString; ge_to := EmptyString; ge_weight := 0 |}.

Definition default_PriorityQueueEntry : PriorityQueueEntry :=
  {| pq_quest := default_Quest; pq_priority := 0; pq_timestamp := 0 |}.

Definition save_hash_table (email_index : list HashTableEntry) : ofstream :=
  save_entries HashTableEntry_serialize email_index.

Definition load_hash_table :=
  load_entries HashTableEntry_deserialize default_HashTableEntry.

Definition save_graph (graph_edges : list GraphEdge) : ofstream :=
  save_entries GraphEdge_serialize graph_edges.

Definition load_graph :=
  load_entries GraphEdge_deserialize default_GraphEdge.

Definition save_priority_queue (pq_entries : list PriorityQueueEntry)
  : ofstream :=
  save_entries PriorityQueueEntry_serialize pq_entries.

Definition load_priority_queue :=
  load_entries PriorityQueueEntry_deserialize default_PriorityQueueEntry.

(** *** What the codec can carry *)

Definition string_ok (s : string) : Prop :=
  (Z.of_nat (String.length s) < 1000000)%Z.

Definition strings_ok (vec : list string) : Prop :=
  (Z.of_nat (length vec) < 10000)%Z /\ Forall string_ok vec.

Definition int_ok (x : Z) : Prop := (- 2 ^ 31 <= x < 2 ^ 31)%Z.

Definition time_t_ok (x : Z) : Prop := (- 2 ^ 63 <= x < 2 ^ 63)%Z.

Definition float_ok (x : Z) : Prop := (0 <= x < 2 ^ 32)%Z.

Definition Exercise_ok (x : Exercise) : Prop :=
  string_ok (e_id x) /\ string_ok (e_name x) /\ string_ok (e_description x) /\
  strings_ok (e_target_muscles x) /\ int_ok (e_calories_per_minute x) /\
  strings_ok (e_prerequisites x) /\ strings_ok (e_next_exercises x) /\
  time_t_ok (e_created_at x).

Definition User_ok (x : User) : Prop :=
  string_ok (u_id x) /\ string_ok (u_username x) /\ string_ok (u_email x) /\
  string_ok (u_password_hash x) /\ int_ok (u_fitness_level x) /\
  int_ok (u_experience_points x) /\ strings_ok (u_completed_exercises x) /\
  strings_ok (u_achievements x) /\ time_t_ok (u_created_at x) /\
  time_t_ok (u_last_login x).

Definition Quest_ok (x : Quest) : Prop :=
  string_ok (q_id x) /\ string_ok (q_title x) /\ string_ok (q_description x) /\
  int_ok (q_priority x) /\ int_ok (q_difficulty x) /\
  strings_ok (q_required_exercises x) /\ strings_ok (q_rewards x) /\
  time_t_ok (q_deadline x).

Definition WorkoutSession_ok (x : WorkoutSession) : Prop :=
  string_ok (w_id x) /\ string_ok (w_user_id x) /\
  time_t_ok (w_start_time x) /\ time_t_ok (w_end_time x) /\
  strings_ok (w_exercises x) /\ int_ok (w_total_calories x) /\
  float_ok (w_form_score x).

Definition HashTableEntry_ok (x : HashTableEntry) : Prop :=
  string_ok (hte_key x) /\ string_ok (hte_value x).

Definition GraphEdge_ok (x : GraphEdge) : Prop :=
  string_ok (ge_from x) /\ string_ok (ge_to x) /\ int_ok (ge_weight x).

Definition PriorityQueueEntry_ok (x : PriorityQueueEntry) : Prop :=
  Quest_ok (pq_quest x) /\ int_ok (pq_priority x) /\
  time_t_ok (pq_timestamp x).

(** *** [save_all_data] and [load_all_data] over the data directory *)

(** The seven files of the data directory, [None] for a file that does
    not exist. *)
Record DataDir : Type := {
  exercises_dat : option (list ascii);
  users_dat : option (list ascii);
  workouts_dat : option (list ascii);
  quests_dat : option (list ascii);
  email_index_dat : option (list ascii);
  graph_dat : option (list ascii);
  priority_queue_dat : option (list ascii)
}.

Definition save_all_data (db : PersistentFitnessDatabase) : DataDir :=
  {| exercises_dat :=
       Some (save_to_file save_exercise_pair (exercise_btree db));
     users_dat := Some (save_to_file save_user_pair (user_btree db));
     workouts_dat :=
       Some (save_to_file save_workout_pair (workout_btree db));
     quests_dat := Some (save_to_file save_quest_pair (quest_btree db));
     email_index_dat := Some (save_hash_table (email_index db));
     graph_dat := Some (save_graph (graph_edges db));
     priority_queue_dat := Some (save_priority_queue (pq_entries db)) |}.

(** [load_all_data] into the members of [db].  The four [fresh] arguments
    are the default-constructed pairs of the four load loops: their time
    stamps are readings of the clock, and the id of a fresh
    [WorkoutSession] also holds a random number. *)
Definition load_all_data
    (fresh_exercise : nat -> string * Exercise)
    (fresh_user : nat -> string * User)
    (fresh_workout : nat -> string * WorkoutSession)
    (fresh_quest : nat -> string * Quest)
    (dir : DataDir) (db : PersistentFitnessDatabase)
  : option PersistentFitnessDatabase :=
  match load_from_file load_exercise_pair fresh_exercise
          (exercises_dat dir) (exercise_btree db) with
  | None => None
  | Some exercises =>
  match load_from_file load_user_pair fresh_user
          (users_dat dir) (user_btree db) with
  | None => None
  | Some users =>
  match load_from_file load_workout_pair fresh_workout
          (workouts_dat dir) (workout_btree db) with
  | None => None
  | Some workouts =>
  match load_from_file load_quest_pair fresh_quest
          (quests_dat dir) (quest_btree db) with
  | None => None
  | Some quests =>
  match load_hash_table (email_index_dat dir) (email_index db) with
  | None => None
  | Some index =>
  match load_graph (graph_dat dir) (graph_edges db) with
  | None => None
  | Some edges =>
  match load_priority_queue (priority_queue_dat dir) (pq_entries db) with
  | None => None
  | Some entries =>
      Some {| exercise_btree := exercises; user_btree := users;
              workout_btree := workouts; quest_btree := quests;
              email_index := index; graph_edges := edges;
              pq_entries := entries; files := files db |}
  end end end end end end end.

(** A tree built by inserts that holds at most 1,000,000 keys and whose
    pairs the codec can carry. *)
Definition tree_storable {V : Type} (value_ok : V -> Prop)
    (t : CompleteBTree string V) : Prop :=
  exists ops,
    t = build ops /\
    (Z.of_nat (get_size t) <= 1000000)%Z /\
    Forall (fun kv => string_ok (fst kv) /\ value_ok (snd kv)) ops.

Definition vector_storable {A : Type} (entry_ok : A -> Prop)
    (entries : list A) : Prop :=
  (Z.of_nat (length entries) < 100000)%Z /\ Forall entry_ok entries.

Definition storable (db : PersistentFitnessDatabase) : Prop :=
  tree_storable Exercise_ok (exercise_btree db) /\
  tree_storable User_ok (user_btree db) /\
  tree_storable WorkoutSession_ok (workout_btree db) /\
  tree_storable Quest_ok (quest_btree db) /\
  vector_storable HashTableEntry_ok (email_index db) /\
  vector_storable GraphEdge_ok (graph_edges db) /\
  vector_storable PriorityQueueEntry_ok (pq_entries db).

(** The bytes one call of a writer appends. *)
Definition bytes_of {A : Type} (write : ofstream -> A -> ofstream) (a : A)
  : list ascii :=
  write [] a.

End Disk.


(** ** Construction, destruction and the persistence self-test *)

Section Lifecycle.
Variable std_hash : string -> Z.
Context {Sort : StdSort}.
Variable fresh_exercise : nat -> string * Exercise.
Variable fresh_user : nat -> string * User.
Variable fresh_workout : nat -> string * WorkoutSession.
Variable fresh_quest : nat -> string * Quest.

(** The constructor.  [dir] is the data directory as bytes, which
    [load_all_data] reads, and [view] is the same directory as the records
    the orchestrator model keeps in [files].  The sample data are written
    when no user was loaded; [now1 .. now5] are the readings of the clock
    taken then. *)
Definition new_PersistentFitnessDatabase (now1 now2 now3 now4 now5 : Z)
    (dir : Disk.DataDir) (view : Files) : option PersistentFitnessDatabase :=
  match Disk.load_all_data fresh_exercise fresh_user fresh_workout
          fresh_quest dir (set_files empty_database view) with
  | None => None
  | Some db =>
      Some (if get_size (user_btree db) =? 0
            then initialize_sample_data now1 now2 now3 now4 now5 db
            else db)
  end.

(** The destructor is [save_all_data]. *)
Definition delete_PersistentFitnessDatabase (db : PersistentFitnessDatabase)
  : PersistentFitnessDatabase :=
  save_all_data db.

(** [test_persistence].  The second object is constructed on the directory
    that [create_user] has just written, and destroyed when the [try] block
    is left, which writes its members to that directory; the files of this
    object are therefore those of the second object afterwards.  Both
    exceptions, of [create_user] and of [get_user_by_email], end in
    [return false]. *)
Definition test_persistence (now_created now_login now_id rnd : Z)
    (now1 now2 now3 now4 now5 : Z) (db : PersistentFitnessDatabase)
  : option (bool * PersistentFitnessDatabase) :=
  match create_user std_hash "TestUser" "test@test.com" "password"
          now_created now_login now_id rnd db with
  | (Thrown _, db1) => Some (false, db1)
  | (Returned _, db1) =>
      match new_PersistentFitnessDatabase now1 now2 now3 now4 now5
              (Disk.save_all_data db1) (files db1) with
      | None => None
      | Some new_db =>
          let result :=
            match get_user_by_email "test@test.com" new_db with
            | Returned loaded_user =>
                String.eqb (u_username loaded_user) "TestUser"
            | Thrown _ => false
            end in
          Some (result,
                set_files db1 (files (delete_PersistentFitnessDatabase new_db)))
      end
  end.

End Lifecycle.

(** ** A caller: [QuestController::completeQuest] *)

Section Callers.
Context {Sort : StdSort}.

(** The conversion of an [int64_t] to [int]. *)
Definition to_int (z : Z) : Z :=
  Disk.signed Disk.SIZEOF_INT (z mod 2 ^ 32).

(** What [completeQuest] (controllers.hpp) does to the database, from the
    lookup of the quest to [updateUser].  [userId] is what the token
    verifies to, [questId] the field of the request body, and [now] the
    reading of the clock in [add_quest].  The wrappers of
    [DatabaseManager] add a lock and a connection check to the calls. *)
Definition completeQuest (userId questId : string) (now : Z)
    (db : PersistentFitnessDatabase)
  : outcome unit * PersistentFitnessDatabase :=
  match get_quest questId db with
  | Thrown what => (Thrown what, db)
  | Returned quest =>
      let quest :=
        {| q_id := q_id quest; q_title := q_title quest;
           q_description := q_description quest;
           q_priority := q_priority quest; q_difficulty := q_difficulty quest;
           q_required_exercises := q_required_exercises quest;
           q_rewards := q_rewards quest; q_deadline := q_deadline quest;
           q_completed := true |} in
      let db1 := add_quest quest now db in
      let xp := (q_difficulty quest * 50)%Z in
      match get_user userId db1 with
      | Thrown what => (Thrown what, db1)
      | Returned user =>
          let user :=
            {| u_id := u_id user; u_username := u_username user;
               u_email := u_email user;
               u_password_hash := u_password_hash user;
               u_fitness_level := u_fitness_level user;
               u_experience_points :=
                 to_int (u_experience_points user + xp);
               u_completed_exercises := u_completed_exercises user;
               u_achievements := u_achievements user;
               u_created_at := u_created_at user;
               u_last_login := u_last_login user |} in
          (Returned tt, update_user user db1)
      end
  end.

End Callers.

(** ** The default constructors, and sample values *)

(** [Exercise()], [User()] and [WorkoutSession()], with the readings of the
    clock and of [rand()] they take. *)
Definition Exercise_new (now : Z) : Exercise :=
  {| e_id := EmptyString; e_name := EmptyString; e_type := STRENGTH;
     e_difficulty := BEGINNER; e_description := EmptyString;
     e_target_muscles := []; e_calories_per_minute := 0;
     e_prerequisites := []; e_next_exercises := []; e_created_at := now |}.

Definition User_new (now_created now_login : Z) : User :=
  {| u_id := EmptyString; u_username := EmptyString; u_email := EmptyString;
     u_password_hash := EmptyString; u_fitness_level := 1;
     u_experience_points := 0; u_completed_exercises := [];
     u_achievements := []; u_created_at := now_created;
     u_last_login := now_login |}.

Definition WorkoutSession_new (now_start now_id rnd : Z) : WorkoutSession :=
  {| w_id := ("WORKOUT_" ++ to_string now_id ++ "_"
                ++ to_string (Z.rem rnd 1000))%string;
     w_user_id := EmptyString; w_start_time := now_start; w_end_time := 0;
     w_exercises := []; w_total_calories := 0; w_validated := false;
     w_form_score := 0 |}.


Definition sample_exercise : Exercise :=
  {| e_id := "EX002"; e_name := "Squat"; e_type := STRENGTH;
     e_difficulty := INTERMEDIATE; e_description := EmptyString;
     e_target_muscles := ["legs"%string; "core"%string];
     e_calories_per_minute := 7;
     e_prerequisites := ["EX001"%string]; e_next_exercises := [];
     e_created_at := 1700000000 |}.

Definition sample_user : User :=
  {| u_id := "ADMIN001"; u_username := "Admin";
     u_email := "admin@fitnessquest.com";
     u_password_hash := "hashed_password";
     u_fitness_level := 10; u_experience_points := -1;
     u_completed_exercises := ["EX001"%string]; u_achievements := [];
     u_created_at := 1700000000; u_last_login := 1700000001 |}.

Definition sample_quest : Quest :=
  {| q_id := "Q001"; q_title := "Daily Challenge";
     q_description := "Complete basic exercises"; q_priority := 1;
     q_difficulty := 1;
     q_required_exercises := ["EX001"%string; "EX002"%string];
     q_rewards := ["100 XP"%string]; q_deadline := 0;
     q_completed := true |}.

Definition sample_workout : WorkoutSession :=
  {| w_id := "WORKOUT_1700000000_7"; w_user_id := "ADMIN001";
     w_start_time := 1700000000; w_end_time := 0;
     w_exercises := ["EX001"%string]; w_total_calories := 120;
     w_validated := true; w_form_score := 1065353216 |}.

(** The state after a first start at second 1700000000. *)
Definition first_start : PersistentFitnessDatabase :=
  initialize_sample_data 1700000000 1700000000 1700000000 1700000000
    1700000000 empty_database.

(** * Properties *)

(** ** The order on keys *)

Section KeyOrderFacts.
Context {K : Type} `{KO : KeyOrder K}.

Lemma key_cmp_refl (a : K) : key_cmp a a = Eq.
Proof. now apply key_cmp_eq. Qed.

Lemma key_cmp_gt_lt (a b : K) : key_cmp a b = Gt <-> key_cmp b a = Lt.
Proof.
  rewrite (key_cmp_antisym a b). destruct (key_cmp a b); simpl; split; congruence.
Qed.

Lemma key_lt_iff (a b : K) : key_lt a b = true <-> klt a b.
Proof. unfold key_lt, klt. destruct (key_cmp a b); split; congruence. Qed.

Lemma key_gt_iff (a b : K) : key_gt a b = true <-> klt b a.
Proof.
  unfold key_gt, klt. rewrite <- key_cmp_gt_lt.
  destruct (key_cmp a b); split; congruence.
Qed.

Lemma key_le_iff (a b : K) : key_le a b = true <-> kle a b.
Proof. unfold key_le, kle. destruct (key_cmp a b); split; congruence. Qed.

Lemma key_ge_iff (a b : K) : key_ge a b = true <-> kle b a.
Proof.
  unfold key_ge, kle. rewrite key_cmp_gt_lt.
  destruct (key_cmp a b); split; congruence.
Qed.

Lemma key_eq_iff (a b : K) : key_eq a b = true <-> a = b.
Proof.
  unfold key_eq. rewrite <- key_cmp_eq.
  destruct (key_cmp a b); split; congruence.
Qed.

Lemma not_kle_klt (a b : K) : ~ kle a b <-> klt b a.
Proof.
  unfold kle, klt. rewrite <- key_cmp_gt_lt.
  destruct (key_cmp a b); split; intro H;
    try congruence; exfalso; apply H; congruence.
Qed.

Lemma not_klt_kle (a b : K) : ~ klt a b <-> kle b a.
Proof.
  unfold kle, klt. rewrite key_cmp_gt_lt.
  destruct (key_cmp a b); split; intro H;
    try congruence; exfalso; apply H; congruence.
Qed.

Lemma key_le_false (a b : K) : key_le a b = false <-> klt b a.
Proof.
  rewrite <- not_kle_klt, <- key_le_iff. destruct (key_le a b); split; congruence.
Qed.

Lemma key_lt_false (a b : K) : key_lt a b = false <-> kle b a.
Proof.
  rewrite <- not_klt_kle, <- key_lt_iff. destruct (key_lt a b); split; congruence.
Qed.

Lemma key_gt_false (a b : K) : key_gt a b = false <-> kle a b.
Proof.
  rewrite <- not_klt_kle, <- key_gt_iff. destruct (key_gt a b); split; congruence.
Qed.

Lemma key_eq_false (a b : K) : key_eq a b = false <-> a <> b.
Proof.
  rewrite <- key_eq_iff. destruct (key_eq a b); split; congruence.
Qed.

Lemma klt_irrefl (a : K) : ~ klt a a.
Proof. unfold klt. rewrite key_cmp_refl. discriminate. Qed.

Lemma klt_trans (a b c : K) : klt a b -> klt b c -> klt a c.
Proof. apply key_cmp_trans. Qed.

Lemma kle_refl (a : K) : kle a a.
Proof. unfold kle. rewrite key_cmp_refl. discriminate. Qed.

Lemma klt_kle (a b : K) : klt a b -> kle a b.
Proof. unfold klt, kle. congruence. Qed.

Lemma kle_cases (a b : K) : kle a b -> a = b \/ klt a b.
Proof.
  unfold kle, klt. destruct (key_cmp a b) eqn:E; intros; try tauto.
  left. now apply key_cmp_eq.
Qed.

Lemma klt_kle_trans (a b c : K) : klt a b -> kle b c -> klt a c.
Proof.
  intros Hab Hbc. destruct (kle_cases _ _ Hbc) as [<- | Hlt]; eauto using klt_trans.
Qed.

Lemma kle_klt_trans (a b c : K) : kle a b -> klt b c -> klt a c.
Proof.
  intros Hab Hbc. destruct (kle_cases _ _ Hab) as [-> | Hlt]; eauto using klt_trans.
Qed.

Lemma kle_trans (a b c : K) : kle a b -> kle b c -> kle a c.
Proof.
  intros Hab Hbc. destruct (kle_cases _ _ Hab) as [-> | Hlt]; trivial.
  apply klt_kle. eauto using klt_kle_trans.
Qed.

Lemma klt_not_kle (a b : K) : klt a b -> kle b a -> False.
Proof. intros H1 H2. apply not_klt_kle in H2. tauto. Qed.

Lemma klt_neq (a b : K) : klt a b -> a <> b.
Proof. intros H ->. exact (klt_irrefl _ H). Qed.

Lemma kle_antisym (a b : K) : kle a b -> kle b a -> a = b.
Proof.
  intros H1 H2. destruct (kle_cases _ _ H1) as [-> | Hlt]; trivial.
  exfalso. eauto using klt_not_kle.
Qed.

End KeyOrderFacts.

Create HintDb korder.
#[export] Hint Resolve kle_refl klt_kle klt_trans kle_trans klt_kle_trans
  kle_klt_trans : korder.

(** ** Lists *)

Section ListFacts.
Context {A : Type}.

Lemma ssorted_app (R : A -> A -> Prop) (l1 l2 : list A) :
  StronglySorted R (l1 ++ l2) <->
  StronglySorted R l1 /\ StronglySorted R l2 /\
  (forall a b, In a l1 -> In b l2 -> R a b).
Proof.
  induction l1 as [|x l1 IH]; simpl.
  - split.
    + intros H. repeat split; trivial. constructor. tauto.
    + tauto.
  - split.
    + intros H. inversion H as [|? ? Hs Hf]; subst.
      apply IH in Hs. destruct Hs as (H1 & H2 & H3).
      rewrite Forall_app in Hf. destruct Hf as [Hf1 Hf2].
      repeat split; trivial.
      * now constructor.
      * intros a b [<- | Ha] Hb; [| now apply H3].
        rewrite Forall_forall in Hf2. now apply Hf2.
    + intros (H1 & H2 & H3). inversion H1; subst.
      constructor.
      * apply IH. repeat split; trivial. intros; apply H3; auto.
      * apply Forall_app. split; trivial.
        apply Forall_forall. intros b Hb. apply H3; auto.
Qed.

Lemma ssorted_cons (R : A -> A -> Prop) (x : A) (l : list A) :
  StronglySorted R (x :: l) <->
  StronglySorted R l /\ (forall b, In b l -> R x b).
Proof.
  split.
  - intros H. inversion H; subst. split; trivial. now apply Forall_forall.
  - intros [H1 H2]. constructor; trivial. now apply Forall_forall.
Qed.

Lemma ssorted_weaken (R S : A -> A -> Prop) (l : list A) :
  (forall a b, R a b -> S a b) -> StronglySorted R l -> StronglySorted S l.
Proof.
  intros HRS. induction 1; constructor; trivial.
  eapply Forall_impl; [| eassumption]. auto.
Qed.

Lemma nth_error_app_len (l1 l2 : list A) (x : A) :
  nth_error (l1 ++ x :: l2) (length l1) = Some x.
Proof. induction l1; simpl; auto. Qed.

Lemma firstn_app_len (l1 l2 : list A) : firstn (length l1) (l1 ++ l2) = l1.
Proof. induction l1; simpl; [now destruct l2 | congruence]. Qed.

Lemma skipn_app_len (l1 l2 : list A) : skipn (length l1) (l1 ++ l2) = l2.
Proof. induction l1; simpl; auto. Qed.

Lemma skipn_app_len_S (l1 l2 : list A) (x : A) :
  skipn (S (length l1)) (l1 ++ x :: l2) = l2.
Proof. induction l1; simpl; auto. Qed.

Lemma find_app_none (f : A -> bool) (l1 l2 : list A) :
  find f l1 = None -> find f (l1 ++ l2) = find f l2.
Proof.
  induction l1 as [|x l1 IH]; simpl; trivial.
  destruct (f x); [discriminate | exact IH].
Qed.

Lemma split_at (n : nat) (l : list A) :
  n < length l ->
  exists l1 x l2, l = l1 ++ x :: l2 /\ length l1 = n.
Proof.
  revert l. induction n as [|n IH]; intros [|y l] Hn; simpl in *; try lia.
  - now exists [], y, l.
  - destruct (IH l) as (l1 & x & l2 & -> & Hl); [lia |].
    exists (y :: l1), x, l2. simpl. split; congruence.
Qed.

End ListFacts.

(** ** The B-tree: termination of the descent *)

Section BTreeHeight.
Context {K V : Type} `{KO : KeyOrder K}.

#[local] Abbreviation BTreeNode := (BTreeNode K V).

Lemma BTreeNode_ind' (P : BTreeNode -> Prop) :
  (forall leaf ks cs, Forall P cs -> P (Node leaf ks cs)) ->
  forall n, P n.
Proof.
  intros H. fix IH 1. intros [leaf ks cs]. apply H.
  induction cs as [|c cs IHcs]; constructor; [apply IH | exact IHcs].
Qed.

Lemma height_eq (n : BTreeNode) : height n = S (hmax (children n)).
Proof. now destruct n. Qed.

Lemma hmax_cons (c : BTreeNode) (cs : list BTreeNode) :
  hmax (c :: cs) = Nat.max (height c) (hmax cs).
Proof. reflexivity. Qed.

Lemma hmax_app (l1 l2 : list BTreeNode) :
  hmax (l1 ++ l2) = Nat.max (hmax l1) (hmax l2).
Proof. induction l1; simpl; [reflexivity | rewrite IHl1; lia]. Qed.

Lemma hmax_in (c : BTreeNode) (cs : list BTreeNode) :
  In c cs -> height c <= hmax cs.
Proof.
  induction cs as [|d cs IH]; simpl; [tauto |].
  intros [-> | Hin]; [| apply IH in Hin]; lia.
Qed.

Lemma hmax_firstn (n : nat) (cs : list BTreeNode) :
  hmax (firstn n cs) <= hmax cs.
Proof.
  rewrite <- (firstn_skipn n cs) at 2. rewrite hmax_app. lia.
Qed.

Lemma hmax_skipn (n : nat) (cs : list BTreeNode) :
  hmax (skipn n cs) <= hmax cs.
Proof.
  rewrite <- (firstn_skipn n cs) at 2. rewrite hmax_app. lia.
Qed.

Lemma height_child (n c : BTreeNode) (i : nat) :
  nth_error (children n) i = Some c -> height c < height n.
Proof.
  intros Hc. apply nth_error_In, hmax_in in Hc. rewrite (height_eq n). lia.
Qed.

Lemma split_child_height (p : BTreeNode) (i : nat) :
  height (split_child p i) <= height p.
Proof.
  unfold split_child.
  destruct (nth_error (children p) i) as [c|] eqn:Hc; [| lia].
  destruct (nth_error (keys c) MIN_KEYS) as [m|]; [| lia].
  assert (Hh := hmax_in _ _ (nth_error_In _ _ Hc)).
  assert (H1 := hmax_firstn i (children p)).
  assert (H2 := hmax_skipn (S i) (children p)).
  assert (H3 := hmax_firstn (MIN_KEYS + 1) (children c)).
  assert (H4 := hmax_skipn (MIN_KEYS + 1) (children c)).
  rewrite (height_eq c) in Hh.
  rewrite (height_eq p), height_eq. cbn [children].
  rewrite hmax_app, !hmax_cons, !height_eq. cbn [children].
  destruct (is_leaf c); cbn [hmax fold_right]; lia.
Qed.

Lemma split_if_full_height (n : BTreeNode) (key : K) :
  height (fst (split_if_full n key)) <= height n.
Proof.
  unfold split_if_full.
  destruct (nth_error (children n) _); [| simpl; lia].
  destruct (_ =? _); [| simpl; lia].
  assert (H := split_child_height n (scan_down (length (keys n)) (keys n) key)).
  destruct (nth_error (keys _) _); [destruct (key_gt _ _) |]; simpl; lia.
Qed.

(** The result of [insert_non_full] does not depend on the fuel once the
    fuel reaches the height of the node: the descent ends at a leaf before
    the fuel is used up. *)
Lemma insert_non_full_fuel (f1 f2 : nat) (n : BTreeNode) (key : K) (value : V) :
  height n <= f1 -> height n <= f2 ->
  insert_non_full f1 n key value = insert_non_full f2 n key value.
Proof.
  revert f2 n. induction f1 as [|f1 IH]; intros f2 n H1 H2.
  - rewrite (height_eq n) in H1. lia.
  - destruct f2 as [|f2]; [rewrite (height_eq n) in H2; lia |].
    simpl. destruct (is_leaf n); [reflexivity |].
    assert (Hs := split_if_full_height n key).
    destruct (split_if_full n key) as [n' i]. simpl in Hs.
    destruct (nth_error (children n') i) as [c|] eqn:Hc; [| reflexivity].
    apply height_child in Hc.
    rewrite (IH f2 c) by lia. reflexivity.
Qed.

Lemma descent_path_fuel (f1 f2 : nat) (n : BTreeNode) (key : K) :
  height n <= f1 -> height n <= f2 ->
  descent_path f1 n key = descent_path f2 n key.
Proof.
  revert f2 n. induction f1 as [|f1 IH]; intros f2 n H1 H2.
  - rewrite (height_eq n) in H1. lia.
  - destruct f2 as [|f2]; [rewrite (height_eq n) in H2; lia |].
    simpl. destruct (is_leaf n); [reflexivity |].
    assert (Hs := split_if_full_height n key).
    destruct (split_if_full n key) as [n' i]. simpl in Hs.
    destruct (nth_error (children n') i) as [c|] eqn:Hc; [| reflexivity].
    apply height_child in Hc.
    rewrite (IH f2 c) by lia. reflexivity.
Qed.

End BTreeHeight.

(** ** The B-tree: scans and in-node insertion *)

Section BTreeNodeOps.
Context {K V : Type} `{KO : KeyOrder K}.

Implicit Types (ks : list (K * V)) (k key : K) (v value : V).

Lemma find_key_position_at ks1 ks2 k :
  Forall (fun kv => klt (fst kv) k) ks1 ->
  match ks2 with [] => True | kv :: _ => kle k (fst kv) end ->
  find_key_position (ks1 ++ ks2) k = length ks1.
Proof.
  intros H1 H2. induction H1 as [|kv ks1 Hkv _ IH]; simpl.
  - destruct ks2 as [|kv ks2]; simpl; [reflexivity |].
    apply key_le_iff in H2. now rewrite H2.
  - apply key_le_false in Hkv. now rewrite Hkv, IH.
Qed.

Lemma insert_key_fresh ks1 ks2 k v :
  Forall (fun kv => klt (fst kv) k) ks1 ->
  Forall (fun kv => klt k (fst kv)) ks2 ->
  insert_key (ks1 ++ ks2) k v = ks1 ++ (k, v) :: ks2.
Proof.
  intros H1 H2. unfold insert_key.
  rewrite find_key_position_at; trivial.
  - rewrite firstn_app_len, skipn_app_len.
    destruct ks2 as [|kv ks2].
    + rewrite app_nil_r, (proj2 (nth_error_None _ _)); [reflexivity | lia].
    + rewrite nth_error_app_len.
      inversion H2 as [|? ? Hkv _]; subst.
      apply klt_neq in Hkv. 
      assert (E : key_eq (fst kv) k = false) by (apply key_eq_false; congruence).
      now rewrite E.
  - destruct ks2; trivial. inversion H2; subst. now apply klt_kle.
Qed.

Lemma insert_key_update ks1 ks2 k v0 v :
  Forall (fun kv => klt (fst kv) k) ks1 ->
  insert_key (ks1 ++ (k, v0) :: ks2) k v = ks1 ++ (k, v) :: ks2.
Proof.
  intros H1. unfold insert_key.
  rewrite find_key_position_at; trivial; [| apply kle_refl].
  rewrite nth_error_app_len, firstn_app_len, skipn_app_len_S. simpl.
  assert (E : key_eq k k = true) by now apply key_eq_iff.
  now rewrite E.
Qed.

(** A strictly ascending key vector splits around any key. *)
Lemma sorted_keys_split ks k :
  StronglySorted klt (map fst ks) ->
  exists ks1 ks2,
    ks = ks1 ++ ks2 /\
    Forall (fun kv => klt (fst kv) k) ks1 /\
    Forall (fun kv => kle k (fst kv)) ks2.
Proof.
  induction ks as [|kv ks IH]; intros Hs.
  - exists [], []. auto.
  - simpl in Hs. apply ssorted_cons in Hs. destruct Hs as [Hs Hkv].
    destruct (key_lt (fst kv) k) eqn:E.
    + apply key_lt_iff in E.
      destruct (IH Hs) as (ks1 & ks2 & -> & H1 & H2).
      exists (kv :: ks1), ks2. auto.
    + apply key_lt_false in E.
      exists [], (kv :: ks). repeat split; trivial.
      constructor; trivial.
      apply Forall_forall. intros kv' Hin.
      apply klt_kle. eapply kle_klt_trans; [exact E |].
      apply Hkv. now apply in_map.
Qed.

(** [insert_key] on a strictly ascending vector: the vector stays strictly
    ascending, grows by at most one pair, holds the new pair and otherwise
    the old keys. *)
Lemma insert_key_spec ks k v :
  StronglySorted klt (map fst ks) ->
  StronglySorted klt (map fst (insert_key ks k v)) /\
  length ks <= length (insert_key ks k v) <= S (length ks) /\
  (forall x, In x (map fst (insert_key ks k v)) -> In x (map fst ks) \/ x = k) /\
  In (k, v) (insert_key ks k v).
Proof.
  intros Hs.
  destruct (sorted_keys_split ks k Hs) as (ks1 & ks2 & -> & H1 & H2).
  rewrite map_app in Hs. apply ssorted_app in Hs.
  destruct Hs as (Hs1 & Hs2 & Hx).
  assert (Hk1 : forall a, In a (map fst ks1) -> klt a k).
  { intros a Ha. apply in_map_iff in Ha. destruct Ha as (kv & <- & Hin).
    rewrite Forall_forall in H1. now apply H1. }
  destruct ks2 as [|[k2 v2] ks2].
  - rewrite insert_key_fresh; trivial.
    rewrite app_nil_r, !map_app, !length_app. simpl. repeat split; try lia.
    + apply ssorted_app. repeat split; trivial.
      * repeat constructor.
      * intros a b Ha [<- | []]. auto.
    + intros x Hx'. apply in_app_or in Hx'. simpl in Hx'.
      intuition auto.
    + apply in_or_app. simpl. auto.
  - inversion H2 as [|? ? Hk2 H2']; subst. simpl in Hk2.
    simpl in Hs2. apply ssorted_cons in Hs2. destruct Hs2 as [Hs2 Hk2'].
    destruct (kle_cases _ _ Hk2) as [<- | Hlt].
    + rewrite insert_key_update; trivial.
      rewrite !map_app, !length_app. simpl. repeat split; try lia.
      * apply ssorted_app. repeat split; trivial.
        apply ssorted_cons. auto.
      * intros x Hx'. left. exact Hx'.
      * apply in_or_app. simpl. auto.
    + rewrite insert_key_fresh; trivial.
      * rewrite !map_app, !length_app. simpl. repeat split; try lia.
        -- apply ssorted_app. repeat split.
           ++ trivial.
           ++ apply ssorted_cons. split.
              ** apply ssorted_cons. auto.
              ** intros b [<- | Hb]; trivial.
                 eapply klt_trans; [exact Hlt | auto].
           ++ intros a b Ha [<- | Hb]; [auto |].
              apply Hx; simpl; auto.
        -- intros x Hx'. apply in_app_or in Hx'. simpl in *.
           rewrite in_app_iff. simpl. intuition auto.
        -- apply in_or_app. simpl. auto.
      * constructor; trivial.
        apply Forall_forall. intros kv Hin.
        eapply klt_trans; [exact Hlt |]. apply Hk2'. now apply in_map.
Qed.

Lemma scan_down_app n ks1 ks2 key :
  n <= length ks1 ->
  scan_down n (ks1 ++ ks2) key = scan_down n ks1 key.
Proof.
  induction n as [|n IH]; intros Hn; simpl; [reflexivity |].
  rewrite nth_error_app1 by lia.
  destruct (nth_error ks1 n); [| reflexivity].
  destruct (key_lt key (fst p)); [apply IH; lia | reflexivity].
Qed.

(** The backwards scan stops after the keys that are not above [key]. *)
Lemma scan_down_spec ks key :
  StronglySorted klt (map fst ks) ->
  exists ks1 ks2,
    ks = ks1 ++ ks2 /\
    scan_down (length ks) ks key = length ks1 /\
    Forall (fun kv => kle (fst kv) key) ks1 /\
    Forall (fun kv => klt key (fst kv)) ks2.
Proof.
  induction ks as [|kv ks IH] using rev_ind; intros Hs.
  - exists [], []. auto.
  - rewrite map_app in Hs. apply ssorted_app in Hs.
    destruct Hs as (Hs & _ & Hx).
    rewrite length_app, Nat.add_1_r. simpl.
    rewrite nth_error_app_len.
    destruct (key_lt key (fst kv)) eqn:E.
    + apply key_lt_iff in E.
      rewrite scan_down_app by lia.
      destruct (IH Hs) as (ks1 & ks2 & -> & Hn & H1 & H2).
      exists ks1, (ks2 ++ [kv]). rewrite app_assoc. repeat split; trivial.
      apply Forall_app. auto.
    + apply key_lt_false in E.
      exists (ks ++ [kv]), []. rewrite app_nil_r, length_app, Nat.add_1_r.
      repeat split; trivial.
      apply Forall_app. split; [| auto].
      apply Forall_forall. intros kv' Hin.
      apply klt_kle. eapply klt_kle_trans; [| exact E].
      apply Hx; simpl; auto. now apply in_map.
Qed.

End BTreeNodeOps.

(** ** The B-tree: the in-order traversal around one child *)

Section BTreeTraverse.
Context {K V : Type} `{KO : KeyOrder K}.

#[local] Abbreviation BTreeNode := (BTreeNode K V).
Implicit Types (ks : list (K * V)) (cs : list BTreeNode) (c n : BTreeNode).
Implicit Types (rec : BTreeNode -> list K).

Lemma traverse_leaf ks : traverse (Node true ks []) = map fst ks.
Proof. reflexivity. Qed.

Lemma traverse_loop_app rec leaf ks1 ks2 cs1 cs2 :
  length ks1 = length cs1 ->
  traverse_loop rec leaf (ks1 ++ ks2) (cs1 ++ cs2) =
  traverse_loop rec leaf ks1 cs1 ++ traverse_loop rec leaf ks2 cs2.
Proof.
  revert ks1. induction cs1 as [|c cs1 IH]; intros [|kv ks1] Hlen;
    simpl in *; try discriminate; [reflexivity |].
  rewrite IH by congruence. now rewrite <- app_assoc.
Qed.

Lemma traverse_loop_cons rec ks c cs :
  traverse_loop rec false ks (c :: cs) = rec c ++ after_child rec ks cs.
Proof. destruct ks; simpl; [now rewrite app_nil_r | reflexivity]. Qed.

Lemma traverse_split ks1 ks2 cs1 c cs2 :
  length ks1 = length cs1 ->
  traverse (Node false (ks1 ++ ks2) (cs1 ++ c :: cs2)) =
  traverse_loop traverse false ks1 cs1
    ++ traverse c ++ after_child traverse ks2 cs2.
Proof.
  intros Hlen. cbn [traverse].
  now rewrite traverse_loop_app, traverse_loop_cons.
Qed.

Lemma keys_in_loop rec leaf ks cs kv :
  In kv ks -> In (fst kv) (traverse_loop rec leaf ks cs).
Proof.
  revert ks. induction cs as [|c cs IH]; intros ks Hin; simpl.
  - now apply in_map.
  - destruct ks as [|kv' ks]; [destruct Hin |].
    apply in_or_app. right. destruct Hin as [-> | Hin]; simpl; auto.
Qed.

Lemma keys_in_traverse n kv : In kv (keys n) -> In (fst kv) (traverse n).
Proof. destruct n as [leaf ks cs]. apply keys_in_loop. Qed.

Lemma keys_in_after rec ks cs kv :
  In kv ks -> In (fst kv) (after_child rec ks cs).
Proof.
  destruct ks as [|kv' ks]; [intros [] |].
  intros [-> | Hin]; simpl; auto.
  right. now apply keys_in_loop.
Qed.

(** In an ascending traversal, what comes before a child is bounded by the
    keys before it, and what comes after it by the keys after it. *)
Lemma before_bound rec (key : K) ks cs :
  length ks = length cs ->
  StronglySorted kle (traverse_loop rec false ks cs) ->
  Forall (fun kv => kle (fst kv) key) ks ->
  forall x, In x (traverse_loop rec false ks cs) -> kle x key.
Proof.
  revert ks. induction cs as [|c cs IH]; intros [|kv ks] Hlen Hs Hk x Hx;
    simpl in *; try discriminate; [destruct Hx |].
  inversion Hk as [|? ? Hkv Hk']; subst.
  apply ssorted_app in Hs. destruct Hs as (_ & Hs & Hcross).
  apply ssorted_cons in Hs. destruct Hs as [Hs _].
  apply in_app_or in Hx. destruct Hx as [Hx | [<- | Hx]]; trivial.
  - eapply kle_trans; [| exact Hkv]. apply Hcross; simpl; auto.
  - apply IH with (ks := ks); auto.
Qed.

Lemma after_bound rec (key : K) ks cs :
  StronglySorted kle (after_child rec ks cs) ->
  Forall (fun kv => kle key (fst kv)) ks ->
  forall x, In x (after_child rec ks cs) -> kle key x.
Proof.
  revert cs. induction ks as [|kv ks IH]; intros cs Hs Hk x Hx;
    [destruct Hx |].
  cbn [after_child] in Hs, Hx.
  inversion Hk as [|? ? Hkv Hk']; subst.
  apply ssorted_cons in Hs. destruct Hs as [Hs Hhd].
  destruct Hx as [<- | Hx]; trivial.
  destruct cs as [|c cs].
  - cbn in Hx. apply in_map_iff in Hx. destruct Hx as (kv' & <- & Hin).
    rewrite Forall_forall in Hk'. now apply Hk'.
  - rewrite traverse_loop_cons in Hs, Hx, Hhd.
    apply ssorted_app in Hs. destruct Hs as (_ & Hs & _).
    apply in_app_or in Hx. destruct Hx as [Hx | Hx].
    + eapply kle_trans; [exact Hkv |]. apply Hhd. apply in_or_app. auto.
    + now apply IH with (cs := cs).
Qed.

Lemma stored_loop_app (rec : BTreeNode -> list (K * V)) leaf ks1 ks2 cs1 cs2 :
  length ks1 = length cs1 ->
  stored_loop rec leaf (ks1 ++ ks2) (cs1 ++ cs2) =
  stored_loop rec leaf ks1 cs1 ++ stored_loop rec leaf ks2 cs2.
Proof.
  revert ks1. induction cs1 as [|c cs1 IH]; intros [|kv ks1] Hlen;
    simpl in *; try discriminate; [reflexivity |].
  rewrite IH by congruence. now rewrite <- app_assoc.
Qed.

Lemma stored_loop_cons (rec : BTreeNode -> list (K * V)) ks c cs :
  stored_loop rec false ks (c :: cs) = rec c ++ stored_after rec ks cs.
Proof. destruct ks; simpl; [now rewrite app_nil_r | reflexivity]. Qed.

Lemma stored_split ks1 ks2 cs1 c cs2 :
  length ks1 = length cs1 ->
  stored_node (Node false (ks1 ++ ks2) (cs1 ++ c :: cs2)) =
  stored_loop stored_node false ks1 cs1
    ++ stored_node c ++ stored_after stored_node ks2 cs2.
Proof.
  intros Hlen. cbn [stored_node].
  now rewrite stored_loop_app, stored_loop_cons.
Qed.

End BTreeTraverse.

(** ** The B-tree: splitting a full child *)

Section BTreeSplit.
Context {K V : Type} `{KO : KeyOrder K}.

#[local] Abbreviation BTreeNode := (BTreeNode K V).
Implicit Types (ks : list (K * V)) (cs : list BTreeNode) (c n : BTreeNode).

Lemma subtree_ok_node_ok n : subtree_ok n <-> node_ok MIN_KEYS n.
Proof.
  split.
  - intros H. inversion H; subst. now split.
  - intros [H1 H2]. now constructor.
Qed.

Lemma node_ok_weaken (m m' : nat) n : m' <= m -> node_ok m n -> node_ok m' n.
Proof.
  intros Hm [(Hlen & Hs & Hshape) Hc]. repeat split; trivial; lia.
Qed.

(** A full node of a tree built by inserts has the keys and, when internal,
    the children that the two [resize] calls of [split_child] keep. *)
Lemma full_child_shape c :
  subtree_ok c -> length (keys c) = MAX_KEYS ->
  MIN_KEYS <= length (keys c) /\
  (is_leaf c = false -> MIN_KEYS + 1 <= length (children c)).
Proof.
  intros Hok Hfull. inversion Hok as [? ((Hmin & _) & _ & Hshape) _]; subst.
  split; trivial. intros Hleaf. rewrite Hleaf in Hshape. lia.
Qed.

Lemma split_child_at (leaf : bool) ks cs1 c cs2 (m : K * V) :
  nth_error (keys c) MIN_KEYS = Some m ->
  split_child (Node leaf ks (cs1 ++ c :: cs2)) (length cs1) =
  Node leaf (insert_key ks (fst m) (snd m))
       (cs1 ++ left_half c :: right_half c :: cs2).
Proof.
  intros Hm. unfold split_child. cbn [children keys is_leaf].
  rewrite nth_error_app_len, Hm, firstn_app_len, skipn_app_len_S.
  reflexivity.
Qed.

Lemma split_halves c :
  subtree_ok c -> length (keys c) = MAX_KEYS ->
  exists a m e,
    nth_error (keys c) MIN_KEYS = Some m /\
    subtree_ok (left_half c) /\ subtree_ok (right_half c) /\
    length (keys (left_half c)) = MIN_KEYS /\
    length (keys (right_half c)) = MIN_KEYS /\
    traverse (left_half c) ++ fst m :: traverse (right_half c) = traverse c /\
    In a (keys c) /\ klt (fst a) (fst m) /\
    In e (keys c) /\ klt (fst m) (fst e) /\
    stored_node (left_half c) ++ m :: stored_node (right_half c) =
      stored_node c.
Proof.
  intros Hok Hfull. destruct c as [leaf ks cs].
  inversion Hok as [? ((_ & _) & Hs & Hshape) Hcs]; subst.
  cbn [keys children is_leaf] in *.
  destruct ks as [|a [|b [|m [|d [|e [|? ?]]]]]]; try discriminate Hfull.
  exists a, m, e.
  change (map fst [a; b; m; d; e])
    with ([fst a; fst b] ++ fst m :: [fst d; fst e]) in Hs.
  apply ssorted_app in Hs. destruct Hs as (Hl & Hr & Hx).
  apply ssorted_cons in Hr. destruct Hr as [Hr Hm].
  assert (Ham : klt (fst a) (fst m)) by (apply Hx; simpl; auto).
  assert (Hme : klt (fst m) (fst e)) by (apply Hm; simpl; auto).
  unfold left_half, right_half. cbn [keys children is_leaf].
  destruct leaf.
  - subst cs. cbn.
    repeat split; simpl; auto; constructor;
      repeat split; cbn; auto; unfold MIN_KEYS, MAX_KEYS, ORDER; simpl; lia.
  - destruct cs as [|c0 [|c1 [|c2 [|c3 [|c4 [|c5 [|? ?]]]]]]];
      try discriminate Hshape.
    repeat match goal with
           | H : Forall _ (_ :: _) |- _ => inversion H; clear H; subst
           end.
    cbn. rewrite <- !app_assoc. cbn.
    repeat split; simpl; auto;
      try (constructor; repeat split; cbn; auto;
           unfold MIN_KEYS, MAX_KEYS, ORDER; simpl; lia);
      now rewrite <- !app_assoc.
Qed.

(** [split_child] on an internal node of a well-formed, ascending tree:
    the middle key of the full child moves up between the keys that
    surround the child, the two halves take the child's place, and the
    traversal is unchanged. *)
Lemma split_child_inv ks1 ks2 cs1 c cs2 :
  length ks1 = length cs1 ->
  StronglySorted klt (map fst (ks1 ++ ks2)) ->
  Forall subtree_ok (cs1 ++ c :: cs2) ->
  length (keys c) = MAX_KEYS ->
  StronglySorted kle (traverse (Node false (ks1 ++ ks2) (cs1 ++ c :: cs2))) ->
  exists m,
    split_child (Node false (ks1 ++ ks2) (cs1 ++ c :: cs2)) (length cs1) =
    Node false (ks1 ++ m :: ks2)
         (cs1 ++ left_half c :: right_half c :: cs2) /\
    subtree_ok (left_half c) /\ subtree_ok (right_half c) /\
    length (keys (left_half c)) = MIN_KEYS /\
    length (keys (right_half c)) = MIN_KEYS /\
    StronglySorted klt (map fst (ks1 ++ m :: ks2)) /\
    traverse (Node false (ks1 ++ m :: ks2)
                   (cs1 ++ left_half c :: right_half c :: cs2)) =
    traverse (Node false (ks1 ++ ks2) (cs1 ++ c :: cs2)) /\
    stored_node (Node false (ks1 ++ m :: ks2)
                      (cs1 ++ left_half c :: right_half c :: cs2)) =
    stored_node (Node false (ks1 ++ ks2) (cs1 ++ c :: cs2)).
Proof.
  intros Hlen Hks Hcs Hfull Hsorted.
  assert (Hc : subtree_ok c).
  { rewrite Forall_app in Hcs. destruct Hcs as [_ Hcs]. now inversion Hcs. }
  destruct (split_halves c Hc Hfull)
    as (a & m & e & Hm & Hl & Hr & Hll & Hlr & Htr & Ha & Ham & He & Hme
        & Hst).
  exists m. rewrite (split_child_at _ _ _ _ _ _ Hm).
  rewrite traverse_split in Hsorted by trivial.
  apply ssorted_app in Hsorted. destruct Hsorted as (_ & Hs2 & Hx1).
  apply ssorted_app in Hs2. destruct Hs2 as (_ & _ & Hx2).
  assert (H1 : Forall (fun kv => klt (fst kv) (fst m)) ks1).
  { apply Forall_forall. intros kv Hin.
    eapply kle_klt_trans; [| exact Ham].
    apply Hx1.
    - now apply keys_in_loop.
    - apply in_or_app. left. now apply keys_in_traverse. }
  assert (H2 : Forall (fun kv => klt (fst m) (fst kv)) ks2).
  { apply Forall_forall. intros kv Hin.
    eapply klt_kle_trans; [exact Hme |].
    apply Hx2.
    - now apply keys_in_traverse.
    - now apply keys_in_after. }
  rewrite insert_key_fresh by trivial.
  rewrite <- surjective_pairing.
  split; [reflexivity |]. do 4 (split; [assumption |]). split; [| split].
  - rewrite map_app in *. simpl.
    apply ssorted_app in Hks. destruct Hks as (Hk1 & Hk2 & Hkx).
    apply ssorted_app. repeat split; trivial.
    + apply ssorted_cons. split; trivial.
      intros b Hb. apply in_map_iff in Hb. destruct Hb as (kv & <- & Hin).
      rewrite Forall_forall in H2. now apply H2.
    + intros x y Hx [<- | Hy]; [| now apply Hkx].
      apply in_map_iff in Hx. destruct Hx as (kv & <- & Hin).
      rewrite Forall_forall in H1. now apply H1.
  - rewrite !traverse_split by trivial.
    cbn [after_child]. rewrite traverse_loop_cons, <- Htr.
    now rewrite <- !app_assoc.
  - rewrite !stored_split by trivial.
    cbn [stored_after]. rewrite stored_loop_cons, <- Hst.
    now rewrite <- !app_assoc.
Qed.

End BTreeSplit.

(** ** The B-tree: [insert] preserves the structural invariant *)

Section BTreeInvariant.
Context {K V : Type} `{KO : KeyOrder K}.

#[local] Abbreviation BTreeNode := (BTreeNode K V).
Implicit Types (ks : list (K * V)) (cs : list BTreeNode) (c n : BTreeNode).

Lemma set_child_at cs1 c c' cs2 :
  set_child (length cs1) c' (cs1 ++ c :: cs2) = cs1 ++ c' :: cs2.
Proof. induction cs1; simpl; congruence. Qed.

Lemma max_keys_val : @MAX_KEYS = 5.
Proof. reflexivity. Qed.

Lemma min_keys_val : @MIN_KEYS = 2.
Proof. reflexivity. Qed.

(** The choice of the child to descend into, on a node of a well-formed
    ascending tree that is not full. *)
Lemma split_if_full_spec (mk : nat) ks cs (key : K) :
  node_ok mk (Node false ks cs) ->
  length ks < MAX_KEYS ->
  StronglySorted kle (traverse (Node false ks cs)) ->
  exists ks1 ks2 cs1 c cs2,
    split_if_full (Node false ks cs) key =
      (Node false (ks1 ++ ks2) (cs1 ++ c :: cs2), length cs1) /\
    length ks1 = length cs1 /\
    node_ok mk (Node false (ks1 ++ ks2) (cs1 ++ c :: cs2)) /\
    traverse (Node false (ks1 ++ ks2) (cs1 ++ c :: cs2)) =
      traverse (Node false ks cs) /\
    Forall (fun kv => kle (fst kv) key) ks1 /\
    Forall (fun kv => kle key (fst kv)) ks2 /\
    length (keys c) < MAX_KEYS /\
    stored_node (Node false (ks1 ++ ks2) (cs1 ++ c :: cs2)) =
      stored_node (Node false ks cs).
Proof.
  intros [((Hmin & Hmax) & Hs & Hshape) Hcs] Hnf Hsorted.
  cbn [keys children is_leaf] in *.
  destruct (scan_down_spec ks key Hs) as (ks1 & ks2 & -> & Hi & H1 & H2).
  destruct (split_at (length ks1) cs) as (cs1 & c & cs2 & -> & Hl1);
    [rewrite length_app in Hshape; lia |].
  symmetry in Hl1.
  assert (H2' : Forall (fun kv => kle key (fst kv)) ks2).
  { eapply Forall_impl; [| exact H2]. intros kv. apply klt_kle. }
  assert (Hc : subtree_ok c).
  { rewrite Forall_app in Hcs. destruct Hcs as [_ Hcs]. now inversion Hcs. }
  unfold split_if_full. cbn [keys children]. rewrite Hi, Hl1.
  rewrite nth_error_app_len.
  destruct (length (keys c) =? MAX_KEYS) eqn:E.
  - apply Nat.eqb_eq in E.
    destruct (split_child_inv ks1 ks2 cs1 c cs2 Hl1 Hs Hcs E Hsorted)
      as (m & Hsp & Hl & Hr & Hll & Hlr & Hks' & Htr & Hst).
    rewrite Hsp. cbn [keys].
    assert (Hn : nth_error (ks1 ++ m :: ks2) (length cs1) = Some m)
      by (rewrite <- Hl1; apply nth_error_app_len).
    rewrite Hn.
    assert (Hok' : node_ok mk (Node false (ks1 ++ m :: ks2)
                       (cs1 ++ left_half c :: right_half c :: cs2))).
    { rewrite Forall_app in Hcs. destruct Hcs as [Hcs1 Hcs2].
      inversion Hcs2; subst.
      split; [split; [| split] |]; cbn [keys children is_leaf].
      - rewrite length_app in *. simpl. lia.
      - exact Hks'.
      - rewrite !length_app in *. simpl in *. lia.
      - apply Forall_app. split; trivial.
        apply Forall_cons; trivial. apply Forall_cons; trivial. }
    assert (Hllt : length (keys (left_half c)) < MAX_KEYS)
      by (rewrite Hll, max_keys_val, min_keys_val; lia).
    assert (Hrlt : length (keys (right_half c)) < MAX_KEYS)
      by (rewrite Hlr, max_keys_val, min_keys_val; lia).
    destruct (key_gt key (fst m)) eqn:G.
    + apply key_gt_iff in G.
      exists (ks1 ++ [m]), ks2, (cs1 ++ [left_half c]), (right_half c), cs2.
      rewrite <- !app_assoc. cbn [app].
      rewrite !length_app. cbn [length]. rewrite !Nat.add_1_r.
      repeat (split; [solve [trivial | lia] |]).
      split; [| repeat split; trivial].
      apply Forall_app. split; trivial. repeat constructor.
      now apply klt_kle.
    + apply key_gt_false in G.
      exists ks1, (m :: ks2), cs1, (left_half c), (right_half c :: cs2).
      repeat (split; [solve [trivial | lia] |]).
      split; [now constructor | split; trivial].
  - apply Nat.eqb_neq in E.
    exists ks1, ks2, cs1, c, cs2.
    repeat (split; trivial); try (rewrite length_app in *; lia).
    inversion Hc as [? ((_ & Hcmax) & _) _]; subst. lia.
Qed.

(** Putting back a child that received the key keeps the node well formed
    and ascending. *)
Lemma replace_child_inv (mk : nat) (key : K) ks1 ks2 cs1 c c' cs2 :
  length ks1 = length cs1 ->
  node_ok mk (Node false (ks1 ++ ks2) (cs1 ++ c :: cs2)) ->
  StronglySorted kle (traverse (Node false (ks1 ++ ks2) (cs1 ++ c :: cs2))) ->
  Forall (fun kv => kle (fst kv) key) ks1 ->
  Forall (fun kv => kle key (fst kv)) ks2 ->
  subtree_ok c' ->
  StronglySorted kle (traverse c') ->
  (forall x, In x (traverse c') -> In x (traverse c) \/ x = key) ->
  node_ok mk (Node false (ks1 ++ ks2) (cs1 ++ c' :: cs2)) /\
  StronglySorted kle (traverse (Node false (ks1 ++ ks2) (cs1 ++ c' :: cs2))) /\
  (forall x,
      In x (traverse (Node false (ks1 ++ ks2) (cs1 ++ c' :: cs2))) ->
      In x (traverse (Node false (ks1 ++ ks2) (cs1 ++ c :: cs2))) \/ x = key).
Proof.
  intros Hlen [(Hcount & Hs & Hshape) Hcs] Hsorted H1 H2 Hc' Hsc' Hin'.
  cbn [keys children is_leaf] in *.
  rewrite !traverse_split in * by trivial.
  apply ssorted_app in Hsorted. destruct Hsorted as (HsL & Hs2 & HxL).
  apply ssorted_app in Hs2. destruct Hs2 as (_ & HsR & HxR).
  assert (HbL := before_bound traverse key ks1 cs1 Hlen HsL H1).
  assert (HbR := after_bound traverse key ks2 cs2 HsR H2).
  split; [| split].
  - split; [split; [| split] |]; cbn [keys children is_leaf]; trivial.
    + rewrite !length_app in *. simpl in *. lia.
    + rewrite Forall_app in *. destruct Hcs as [Hcs1 Hcs2].
      inversion Hcs2; subst. split; trivial. now constructor.
  - apply ssorted_app. split; [trivial | split].
    + apply ssorted_app. split; [trivial | split; trivial].
      intros a b Ha Hb. destruct (Hin' a Ha) as [Ha' | ->]; auto.
    + intros a b Ha Hb. apply in_app_or in Hb. destruct Hb as [Hb | Hb].
      * destruct (Hin' b Hb) as [Hb' | ->]; auto.
        apply HxL; trivial. apply in_or_app. auto.
      * apply HxL; trivial. apply in_or_app. auto.
  - intros x Hx. rewrite !in_app_iff in *.
    destruct Hx as [Hx | [Hx | Hx]]; auto.
    destruct (Hin' x Hx); auto.
Qed.

(** [insert_non_full] on a node that is not full. *)
Lemma insert_non_full_inv (key : K) (value : V) (fuel mk : nat) n :
  height n <= fuel ->
  node_ok mk n ->
  length (keys n) < MAX_KEYS ->
  StronglySorted kle (traverse n) ->
  node_ok mk (insert_non_full fuel n key value) /\
  StronglySorted kle (traverse (insert_non_full fuel n key value)) /\
  (forall x, In x (traverse (insert_non_full fuel n key value)) ->
             In x (traverse n) \/ x = key).
Proof.
  revert mk n. induction fuel as [|fuel IH]; intros mk n Hh Hok Hnf Hsorted.
  - rewrite (height_eq n) in Hh. lia.
  - destruct n as [[|] ks cs]; cbn [insert_non_full is_leaf keys children].
    + destruct Hok as [((Hmin & Hmax) & Hs & Hshape) Hcs].
      cbn [keys children is_leaf] in *. subst cs.
      destruct (insert_key_spec ks key value Hs) as (Hs' & Hlen' & Hin' & _).
      rewrite !traverse_leaf.
      split; [| split].
      * split; [split; [| split] |]; cbn [keys children is_leaf]; trivial.
        lia.
      * eapply ssorted_weaken; [| exact Hs']. apply klt_kle.
      * exact Hin'.
    + assert (Hhs := split_if_full_height (Node false ks cs) key).
      destruct (split_if_full_spec mk ks cs key Hok Hnf Hsorted)
      as (ks1 & ks2 & cs1 & c & cs2 & Heq & Hlen & Hok' & Htr & H1 & H2 & Hcn
          & Hst).
      rewrite Heq in *. cbn [fst] in Hhs.
      cbn [children keys is_leaf]. rewrite nth_error_app_len, set_child_at.
      rewrite <- Htr in *.
      assert (Hc : subtree_ok c).
      { destruct Hok' as [_ Hcs]. cbn [children] in Hcs.
        rewrite Forall_app in Hcs. destruct Hcs as [_ Hcs]. now inversion Hcs. }
      assert (Hhc : height c <= fuel).
      { assert (Hlt := height_child
                         (Node false (ks1 ++ ks2) (cs1 ++ c :: cs2)) c
                         (length cs1) (nth_error_app_len _ _ _)).
        lia. }
      assert (Hsc : StronglySorted kle (traverse c)).
      { rewrite traverse_split in Hsorted by trivial.
        apply ssorted_app in Hsorted. destruct Hsorted as (_ & Hs2 & _).
        now apply ssorted_app in Hs2. }
      apply subtree_ok_node_ok in Hc.
      destruct (IH MIN_KEYS c Hhc Hc Hcn Hsc) as (Hc' & Hsc' & Hin').
      apply subtree_ok_node_ok in Hc'.
      now apply replace_child_inv with (c := c).
Qed.

Lemma tree_inv_empty : tree_inv (@empty_tree K V).
Proof.
  split.
  - split; [split; [| split] |]; cbn; auto using Forall_nil.
    + unfold MAX_KEYS, ORDER. simpl. lia.
    + constructor.
  - constructor.
Qed.

(** [insert] keeps the invariant, and the only key it can add is the one
    inserted. *)
Lemma insert_inv (t : CompleteBTree K V) (key : K) (value : V) :
  tree_inv t ->
  tree_inv (insert t key value) /\
  (forall x, In x (get_all_keys (insert t key value)) ->
             In x (get_all_keys t) \/ x = key).
Proof.
  intros [Hok Hsorted]. unfold tree_inv, get_all_keys, insert in *.
  cbn [root].
  destruct (length (keys (root t)) =? MAX_KEYS) eqn:E.
  - apply Nat.eqb_eq in E.
    assert (Hr : subtree_ok (root t)).
    { apply subtree_ok_node_ok.
      destruct Hok as [((_ & Hmax) & Hs & Hshape) Hcs].
      split; [split; [| split] |]; trivial.
      rewrite E. unfold MIN_KEYS, MAX_KEYS, ORDER. simpl. lia. }
    destruct (split_child_inv [] [] [] (root t) [] eq_refl
                (SSorted_nil _) (Forall_cons _ Hr (Forall_nil _)) E)
      as (m & Hsp & Hl & Hrr & Hll & Hlr & Hks' & Htr & Hst).
    { cbn. exact Hsorted. }
    cbn [app length] in Hsp, Htr, Hks'. rewrite Hsp.
    assert (Hroot : traverse (Node false [] [root t]) = traverse (root t))
      by reflexivity.
    rewrite Hroot in Htr. rewrite <- Htr in *.
    match goal with
    | |- context [insert_non_full ?f ?n key value] =>
        destruct (insert_non_full_inv key value f 0 n) as (A & B & C)
    end.
    + apply Nat.le_refl.
    + split; [split; [| split] |]; cbn [keys children is_leaf]; trivial.
      * unfold MAX_KEYS, ORDER. simpl. lia.
      * apply Forall_cons; trivial. apply Forall_cons; trivial.
    + unfold MAX_KEYS, ORDER. simpl. lia.
    + exact Hsorted.
    + split; [split |]; assumption.
  - apply Nat.eqb_neq in E.
    destruct (insert_non_full_inv key value (height (root t)) 0 (root t))
      as (A & B & C); trivial.
    + destruct Hok as [((_ & Hmax) & _) _]. lia.
    + split; [split |]; assumption.
Qed.

Lemma insert_all_inv (ops : list (K * V)) (t : CompleteBTree K V) :
  tree_inv t -> tree_inv (insert_all t ops).
Proof.
  revert t. induction ops as [|[k v] ops IH]; intros t Ht; simpl; trivial.
  apply IH. now apply insert_inv.
Qed.

(** Every tree built by inserts from the empty tree satisfies the
    invariant. *)
Lemma build_inv (ops : list (K * V)) : tree_inv (build ops).
Proof. apply insert_all_inv, tree_inv_empty. Qed.

End BTreeInvariant.

(** ** The B-tree: key counts, the descent path, and the stored pairs *)

Section BTreeConsequences.
Context {K V : Type} `{KO : KeyOrder K}.

#[local] Abbreviation BTreeNode := (BTreeNode K V).
Implicit Types (ks : list (K * V)) (cs : list BTreeNode) (c n : BTreeNode).

Lemma subtree_key_counts n :
  subtree_ok n -> Forall key_count_ok (n :: subnodes n).
Proof.
  induction n as [leaf ks cs IH] using BTreeNode_ind'.
  intros Hok. inversion Hok as [? (Hcount & _) Hcs]; subst.
  constructor; [exact Hcount |].
  cbn [children subnodes] in *. clear Hok Hcount.
  induction cs as [|c cs IHcs]; simpl; [constructor |].
  inversion IH; subst. inversion Hcs; subst.
  rewrite app_comm_cons. apply Forall_app. split; auto.
Qed.

Lemma node_key_counts (mk : nat) n :
  node_ok mk n -> Forall key_count_ok (subnodes n).
Proof.
  intros [_ Hcs]. destruct n as [leaf ks cs]. cbn [children subnodes] in *.
  induction Hcs as [|c cs Hc _ IH]; simpl; [constructor |].
  rewrite app_comm_cons. apply Forall_app. split; trivial.
  now apply subtree_key_counts.
Qed.

(** Every node entered by the descent is not full. *)
Lemma descent_path_not_full (key : K) (fuel mk : nat) n :
  node_ok mk n ->
  length (keys n) < MAX_KEYS ->
  StronglySorted kle (traverse n) ->
  Forall (fun n' => length (keys n') < MAX_KEYS) (descent_path fuel n key).
Proof.
  revert mk n. induction fuel as [|fuel IH]; intros mk n Hok Hnf Hsorted;
    cbn [descent_path]; constructor; trivial.
  destruct n as [[|] ks cs]; cbn [is_leaf]; [constructor |].
  destruct (split_if_full_spec mk ks cs key Hok Hnf Hsorted)
      as (ks1 & ks2 & cs1 & c & cs2 & Heq & Hlen & Hok' & Htr & H1 & H2 & Hcn
          & Hst).
  rewrite Heq. cbn [children]. rewrite nth_error_app_len.
  rewrite <- Htr in Hsorted.
  rewrite traverse_split in Hsorted by trivial.
  apply ssorted_app in Hsorted. destruct Hsorted as (_ & Hs2 & _).
  apply ssorted_app in Hs2. destruct Hs2 as (Hsc & _).
  destruct Hok' as [_ Hcs]. cbn [children] in Hcs.
  rewrite Forall_app in Hcs. destruct Hcs as [_ Hcs].
  inversion Hcs as [|? ? Hc _]; subst.
  apply subtree_ok_node_ok in Hc. eauto.
Qed.

(** The root that [insert] hands to [insert_non_full]. *)
Lemma insert_root_ready (t : CompleteBTree K V) :
  tree_inv t ->
  let root1 :=
    if length (keys (root t)) =? MAX_KEYS
    then split_child (Node false [] [root t]) 0
    else root t in
  node_ok 0 root1 /\ length (keys root1) < MAX_KEYS /\
  StronglySorted kle (traverse root1) /\
  traverse root1 = traverse (root t) /\
  stored_node root1 = stored_node (root t).
Proof.
  intros [Hok Hsorted]. unfold get_all_keys in Hsorted.
  destruct (length (keys (root t)) =? MAX_KEYS) eqn:E; cbn zeta.
  - apply Nat.eqb_eq in E.
    assert (Hr : subtree_ok (root t)).
    { apply subtree_ok_node_ok.
      destruct Hok as [((_ & Hmax) & Hs & Hshape) Hcs].
      split; [split; [| split] |]; trivial.
      rewrite E, max_keys_val, min_keys_val. lia. }
    destruct (split_child_inv [] [] [] (root t) [] eq_refl
                (SSorted_nil _) (Forall_cons _ Hr (Forall_nil _)) E)
      as (m & Hsp & Hl & Hrr & Hll & Hlr & Hks' & Htr & Hst).
    { cbn. exact Hsorted. }
    cbn [app length] in Hsp, Htr, Hst, Hks'. rewrite Hsp, Htr, Hst.
    split; [| split; [| split; [| split]]].
    + split; [split; [| split] |]; cbn [keys children is_leaf]; trivial.
      * rewrite max_keys_val. simpl. lia.
      * apply Forall_cons; trivial. apply Forall_cons; trivial.
    + rewrite max_keys_val. simpl. lia.
    + exact Hsorted.
    + reflexivity.
    + cbn. destruct (root t); reflexivity.
  - apply Nat.eqb_neq in E. split; [| split; [| split; [| split]]]; trivial.
    destruct Hok as [((_ & Hmax) & _) _]. lia.
Qed.

Lemma insert_path_not_full (t : CompleteBTree K V) (key : K) :
  tree_inv t ->
  Forall (fun n' => length (keys n') < MAX_KEYS) (insert_path t key).
Proof.
  intros Ht. destruct (insert_root_ready t Ht) as (Hok & Hnf & Hs & _).
  unfold insert_path. now apply descent_path_not_full with (mk := 0).
Qed.

(** The keys of the stored pairs are the keys [get_all_keys] returns. *)
Lemma stored_node_keys n : map fst (stored_node n) = traverse n.
Proof.
  induction n as [leaf ks cs IH] using BTreeNode_ind'. cbn.
  revert ks. induction IH as [|c cs Hc _ IHcs]; intros ks; cbn.
  - reflexivity.
  - destruct ks as [|kv ks].
    + destruct leaf; [reflexivity | exact Hc].
    + rewrite map_app. cbn. rewrite IHcs.
      destruct leaf; [reflexivity | now rewrite Hc].
Qed.

Lemma select_app start end_ (l1 l2 : list (K * V)) :
  select start end_ (l1 ++ l2) = select start end_ l1 ++ select start end_ l2.
Proof. unfold select. now rewrite filter_app, map_app. Qed.

Lemma range_loop_perm start end_ ks cs :
  length cs <= S (length ks) ->
  Forall (fun c => Permutation (traverse_range start end_ c)
                               (select start end_ (stored_node c))) cs ->
  Permutation
    (select start end_ ks ++ flat_map (traverse_range start end_) cs)
    (select start end_ (stored_loop stored_node false ks cs)).
Proof.
  intros Hlen Hcs. revert ks Hlen.
  induction Hcs as [|c cs Hc _ IH]; intros ks Hlen.
  - cbn [flat_map]. now rewrite app_nil_r.
  - destruct ks as [|kv ks].
    + destruct cs; [| simpl in Hlen; lia].
      change (stored_loop stored_node false [] [c]) with (stored_node c).
      cbn [flat_map]. rewrite app_nil_r. exact Hc.
    + change (stored_loop stored_node false (kv :: ks) (c :: cs))
        with (stored_node c ++ [kv] ++ stored_loop stored_node false ks cs).
      change (kv :: ks) with ([kv] ++ ks).
      cbn [flat_map].
      rewrite !select_app.
      rewrite <- (IH ks) by (simpl in Hlen; lia).
      rewrite <- Hc.
      rewrite !app_assoc. apply Permutation_app_tail.
      rewrite <- (app_assoc (traverse_range start end_ c)).
      apply Permutation_app_comm.
Qed.

Lemma traverse_range_perm start end_ n :
  (exists mk, node_ok mk n) ->
  Permutation (traverse_range start end_ n)
              (select start end_ (stored_node n)).
Proof.
  induction n as [leaf ks cs IH] using BTreeNode_ind'.
  intros (mk & (_ & _ & Hshape) & Hcs).
  cbn [keys children is_leaf] in *. cbn [traverse_range stored_node].
  destruct leaf.
  - subst cs. cbn. now rewrite app_nil_r.
  - apply range_loop_perm; [lia |].
    rewrite Forall_forall in *. intros c Hin. apply IH; trivial.
    exists MIN_KEYS. apply subtree_ok_node_ok. auto.
Qed.

End BTreeConsequences.

(** ** The B-tree: inserting a key that is not in the tree, and lookups *)

Section BTreeFresh.
Context {K V : Type} `{KO : KeyOrder K}.

#[local] Abbreviation BTreeNode := (BTreeNode K V).
Implicit Types (ks : list (K * V)) (cs : list BTreeNode) (c n : BTreeNode).

Lemma fresh_sorted_insert (k : K) (l1 l2 : list K) :
  StronglySorted kle (l1 ++ k :: l2) ->
  ~ In k (l1 ++ l2) ->
  StronglySorted klt (l1 ++ l2) ->
  StronglySorted klt (l1 ++ k :: l2).
Proof.
  intros Hle Hfresh Hlt.
  apply ssorted_app in Hle. destruct Hle as (_ & Hle2 & Hx).
  apply ssorted_cons in Hle2. destruct Hle2 as [_ Hk].
  apply ssorted_app in Hlt. destruct Hlt as (H1 & H2 & Hx').
  assert (Hne : forall a, In a (l1 ++ l2) -> a <> k)
    by (intros a Ha ->; auto).
  apply ssorted_app. split; [trivial | split].
  - apply ssorted_cons. split; trivial.
    intros b Hb. destruct (kle_cases _ _ (Hk b Hb)) as [<- | Hlt]; trivial.
    exfalso. apply (Hne k); trivial. apply in_or_app. auto.
  - intros a b Ha [<- | Hb]; [| now apply Hx'].
    destruct (kle_cases _ _ (Hx a k Ha (or_introl eq_refl))) as [E | Hlt];
      trivial.
    exfalso. apply (Hne a); trivial. apply in_or_app. auto.
Qed.

(** [insert_non_full] with a key that the subtree does not hold puts the
    new pair somewhere between the stored pairs and moves none of them. *)
Lemma insert_non_full_fresh (key : K) (value : V) (fuel mk : nat) n :
  height n <= fuel ->
  node_ok mk n ->
  length (keys n) < MAX_KEYS ->
  StronglySorted kle (traverse n) ->
  ~ In key (traverse n) ->
  exists l1 l2,
    stored_node n = l1 ++ l2 /\
    stored_node (insert_non_full fuel n key value) = l1 ++ (key, value) :: l2.
Proof.
  revert mk n. induction fuel as [|fuel IH];
    intros mk n Hh Hok Hnf Hsorted Hfresh.
  - rewrite (height_eq n) in Hh. lia.
  - destruct n as [[|] ks cs]; cbn [insert_non_full is_leaf keys children].
    + destruct Hok as [(_ & Hs & Hshape) _].
      cbn [keys children is_leaf] in *. subst cs.
      rewrite traverse_leaf in Hfresh.
      destruct (sorted_keys_split ks key Hs) as (ks1 & ks2 & -> & H1 & H2).
      exists ks1, ks2. split; [reflexivity |].
      rewrite insert_key_fresh; trivial.
      apply Forall_forall. intros kv Hin.
      rewrite Forall_forall in H2.
      destruct (kle_cases _ _ (H2 kv Hin)) as [E | Hlt]; trivial.
      exfalso. apply Hfresh. rewrite E. apply in_map, in_or_app. auto.
    + assert (Hhs := split_if_full_height (Node false ks cs) key).
      destruct (split_if_full_spec mk ks cs key Hok Hnf Hsorted)
        as (ks1 & ks2 & cs1 & c & cs2 & Heq & Hlen & Hok' & Htr & H1 & H2 & Hcn
            & Hst).
      rewrite Heq in *. cbn [fst] in Hhs.
      cbn [children keys is_leaf]. rewrite nth_error_app_len, set_child_at.
      rewrite <- Htr in *. rewrite <- Hst.
      assert (Hc : subtree_ok c).
      { destruct Hok' as [_ Hcs]. cbn [children] in Hcs.
        rewrite Forall_app in Hcs. destruct Hcs as [_ Hcs]. now inversion Hcs. }
      assert (Hhc : height c <= fuel).
      { assert (Hlt := height_child
                         (Node false (ks1 ++ ks2) (cs1 ++ c :: cs2)) c
                         (length cs1) (nth_error_app_len _ _ _)).
        lia. }
      rewrite traverse_split in Hsorted, Hfresh by trivial.
      apply ssorted_app in Hsorted. destruct Hsorted as (_ & Hs2 & _).
      apply ssorted_app in Hs2. destruct Hs2 as (Hsc & _).
      assert (Hfc : ~ In key (traverse c)).
      { intros Hin. apply Hfresh. apply in_or_app. right.
        apply in_or_app. auto. }
      apply subtree_ok_node_ok in Hc.
      destruct (IH MIN_KEYS c Hhc Hc Hcn Hsc Hfc) as (l1 & l2 & E1 & E2).
      rewrite !stored_split by trivial. rewrite E1, E2.
      exists (stored_loop stored_node false ks1 cs1 ++ l1),
        (l2 ++ stored_after stored_node ks2 cs2).
      now rewrite <- !app_assoc.
Qed.

Lemma insert_fresh (t : CompleteBTree K V) (key : K) (value : V) :
  tree_inv t ->
  ~ In key (get_all_keys t) ->
  exists l1 l2,
    stored_pairs t = l1 ++ l2 /\
    stored_pairs (insert t key value) = l1 ++ (key, value) :: l2.
Proof.
  intros Ht Hfresh.
  destruct (insert_root_ready t Ht) as (Hok & Hnf & Hs & Htr & Hst).
  unfold stored_pairs, insert, get_all_keys in *. cbn [root].
  rewrite <- Hst. rewrite <- Htr in Hfresh.
  eapply insert_non_full_fresh; eauto.
Qed.

(** A tree with pairwise distinct keys keeps them distinct when a new key
    is inserted. *)
Lemma insert_fresh_strict (t : CompleteBTree K V) (key : K) (value : V) :
  tree_inv t ->
  StronglySorted klt (get_all_keys t) ->
  ~ In key (get_all_keys t) ->
  StronglySorted klt (get_all_keys (insert t key value)).
Proof.
  intros Ht Hstrict Hfresh.
  destruct (insert_fresh t key value Ht Hfresh) as (l1 & l2 & E1 & E2).
  destruct (insert_inv t key value Ht) as [[_ Hle] _].
  unfold get_all_keys, stored_pairs in *.
  rewrite <- stored_node_keys in *. rewrite E1 in *. rewrite E2 in *.
  rewrite map_app in *. cbn [map fst] in *.
  now apply fresh_sorted_insert.
Qed.

Lemma scan_up_spec ks (key : K) :
  exists ks1 ks2,
    ks = ks1 ++ ks2 /\
    scan_up ks key = length ks1 /\
    Forall (fun kv => klt (fst kv) key) ks1 /\
    match ks2 with [] => True | kv :: _ => kle key (fst kv) end.
Proof.
  induction ks as [|kv ks IH]; simpl.
  - exists [], []. auto.
  - destruct (key_gt key (fst kv)) eqn:E.
    + apply key_gt_iff in E.
      destruct IH as (ks1 & ks2 & -> & Hi & H1 & H2).
      exists (kv :: ks1), ks2. simpl. auto.
    + apply key_gt_false in E. exists [], (kv :: ks). auto.
Qed.

Lemma at_child_at {A : Type} (f : BTreeNode -> A) (d : A) cs1 c cs2 :
  at_child f d (length cs1) (cs1 ++ c :: cs2) = f c.
Proof. induction cs1; simpl; auto. Qed.

Lemma keys_in_stored_loop (rec : BTreeNode -> list (K * V)) leaf ks cs kv :
  In kv ks -> In kv (stored_loop rec leaf ks cs).
Proof.
  revert ks. induction cs as [|c cs IH]; intros ks Hin; simpl; trivial.
  destruct ks as [|kv' ks]; [destruct Hin |].
  apply in_or_app. right. destruct Hin as [-> | Hin]; simpl; auto.
Qed.

Lemma stored_loop_keys leaf ks cs :
  map fst (stored_loop stored_node leaf ks cs) =
  traverse_loop traverse leaf ks cs.
Proof.
  revert ks. induction cs as [|c cs IH]; intros ks; cbn; trivial.
  destruct ks as [|kv ks].
  - destruct leaf; [reflexivity | apply stored_node_keys].
  - rewrite map_app. cbn. rewrite IH.
    destruct leaf; [reflexivity | now rewrite stored_node_keys].
Qed.

Lemma stored_after_keys ks cs :
  map fst (stored_after stored_node ks cs) = after_child traverse ks cs.
Proof.
  destruct ks as [|kv ks]; cbn; trivial. now rewrite stored_loop_keys.
Qed.

Lemma before_bound_lt (rec : BTreeNode -> list K) (key : K) ks cs :
  length ks = length cs ->
  StronglySorted kle (traverse_loop rec false ks cs) ->
  Forall (fun kv => klt (fst kv) key) ks ->
  forall x, In x (traverse_loop rec false ks cs) -> klt x key.
Proof.
  revert ks. induction cs as [|c cs IH]; intros [|kv ks] Hlen Hs Hk x Hx;
    simpl in *; try discriminate; [destruct Hx |].
  inversion Hk as [|? ? Hkv Hk']; subst.
  apply ssorted_app in Hs. destruct Hs as (_ & Hs & Hcross).
  apply ssorted_cons in Hs. destruct Hs as [Hs _].
  apply in_app_or in Hx. destruct Hx as [Hx | [<- | Hx]]; trivial.
  - eapply kle_klt_trans; [| exact Hkv]. apply Hcross; simpl; auto.
  - apply IH with (ks := ks); auto.
Qed.

Lemma after_bound_lt (rec : BTreeNode -> list K) (key : K) ks cs :
  StronglySorted kle (after_child rec ks cs) ->
  Forall (fun kv => klt key (fst kv)) ks ->
  forall x, In x (after_child rec ks cs) -> klt key x.
Proof.
  revert cs. induction ks as [|kv ks IH]; intros cs Hs Hk x Hx;
    [destruct Hx |].
  cbn [after_child] in Hs, Hx.
  inversion Hk as [|? ? Hkv Hk']; subst.
  apply ssorted_cons in Hs. destruct Hs as [Hs Hhd].
  destruct Hx as [<- | Hx]; trivial.
  destruct cs as [|c cs].
  - cbn in Hx. apply in_map_iff in Hx. destruct Hx as (kv' & <- & Hin).
    rewrite Forall_forall in Hk'. now apply Hk'.
  - rewrite traverse_loop_cons in Hs, Hx, Hhd.
    apply ssorted_app in Hs. destruct Hs as (_ & Hs & _).
    apply in_app_or in Hx. destruct Hx as [Hx | Hx].
    + eapply klt_kle_trans; [exact Hkv |]. apply Hhd. apply in_or_app. auto.
    + now apply IH with (cs := cs).
Qed.

Lemma unique_value (l : list (K * V)) (k : K) (v v' : V) :
  StronglySorted klt (map fst l) ->
  In (k, v) l -> In (k, v') l -> v = v'.
Proof.
  induction l as [|[k0 v0] l IH]; intros Hs H1 H2; [destruct H1 |].
  simpl in Hs. apply ssorted_cons in Hs. destruct Hs as [Hs Hhd].
  assert (Hno : forall w, In (k0, w) l -> False).
  { intros w Hw. apply (klt_irrefl k0). apply Hhd.
    change k0 with (fst (k0, w)) at 1. now apply in_map. }
  destruct H1 as [E1 | H1], H2 as [E2 | H2].
  - congruence.
  - inversion E1; subst. destruct (Hno _ H2).
  - inversion E2; subst. destruct (Hno _ H1).
  - auto.
Qed.

(** In a tree with pairwise distinct keys, [search_node] finds every stored
    pair. *)
Lemma search_node_finds n :
  (exists mk, node_ok mk n) ->
  StronglySorted klt (traverse n) ->
  forall (k : K) (v : V), In (k, v) (stored_node n) -> search_node n k = Some v.
Proof.
  induction n as [leaf ks cs IH] using BTreeNode_ind'.
  intros (mk & (_ & Hks & Hshape) & Hcs) Hs k v Hin.
  cbn [keys children is_leaf] in *. cbn [search_node].
  destruct (scan_up_spec ks k) as (ks1 & ks2 & -> & Hi & H1 & H2).
  rewrite Hi.
  assert (Hfound : forall kv ks2', ks2 = kv :: ks2' -> fst kv = k ->
                                   snd kv = v).
  { intros kv ks2' -> Hk.
    apply (unique_value (stored_node (Node leaf (ks1 ++ kv :: ks2') cs)) k);
      trivial.
    - now rewrite stored_node_keys.
    - cbn [stored_node]. apply keys_in_stored_loop.
      apply in_or_app. right. left. rewrite <- Hk. now destruct kv. }
  assert (Hgt : forall kv ks2', ks2 = kv :: ks2' -> fst kv <> k ->
                                Forall (fun kv' => klt k (fst kv')) ks2).
  { intros kv ks2' -> Hne.
    assert (Hlt : klt k (fst kv)).
    { destruct (kle_cases _ _ H2) as [E | Hlt]; [congruence | trivial]. }
    constructor; trivial.
    rewrite map_app in Hks. apply ssorted_app in Hks.
    destruct Hks as (_ & Hks2 & _). simpl in Hks2.
    apply ssorted_cons in Hks2. destruct Hks2 as [_ Hhd].
    apply Forall_forall. intros kv' Hin'.
    eapply klt_trans; [exact Hlt |]. apply Hhd. now apply in_map. }
  assert (Hmiss :
            Forall (fun kv' => klt k (fst kv')) ks2 ->
            (if leaf then None
             else at_child (fun c => search_node c k) None
                           (length ks1) cs) = Some v).
  { intros Hks2.
    assert (Hk1 : forall w, In (k, w) ks1 -> False).
    { intros w Hw. rewrite Forall_forall in H1.
      exact (klt_irrefl k (H1 _ Hw)). }
    assert (Hk2 : forall w, In (k, w) ks2 -> False).
    { intros w Hw. rewrite Forall_forall in Hks2.
      exact (klt_irrefl k (Hks2 _ Hw)). }
    destruct leaf.
    - subst cs. cbn in Hin. apply in_app_or in Hin.
      destruct Hin as [Hin | Hin]; [destruct (Hk1 _ Hin) | destruct (Hk2 _ Hin)].
    - destruct (split_at (length ks1) cs) as (cs1 & c & cs2 & -> & Hl1);
        [rewrite length_app in Hshape; lia |].
      symmetry in Hl1. rewrite Hl1, at_child_at.
      rewrite stored_split in Hin by trivial.
      rewrite traverse_split in Hs by trivial.
      assert (Hs' := ssorted_weaken klt kle _ klt_kle Hs).
      apply ssorted_app in Hs. destruct Hs as (_ & Hs2 & _).
      apply ssorted_app in Hs2. destruct Hs2 as (Hsc & _ & _).
      apply ssorted_app in Hs'. destruct Hs' as (HsL & Hs2' & _).
      apply ssorted_app in Hs2'. destruct Hs2' as (_ & HsR & _).
      rewrite Forall_forall in IH.
      rewrite Forall_app in Hcs. destruct Hcs as [_ Hcs].
      inversion Hcs as [|? ? Hc _]; subst.
      apply in_app_or in Hin. destruct Hin as [Hin | Hin].
      + exfalso. apply (klt_irrefl k).
        apply (before_bound_lt traverse k ks1 cs1 Hl1 HsL H1).
        rewrite <- stored_loop_keys.
        change k with (fst (k, v)). now apply in_map.
      + apply in_app_or in Hin. destruct Hin as [Hin | Hin].
        * apply IH; trivial.
          -- apply in_or_app. simpl. auto.
          -- exists MIN_KEYS. now apply subtree_ok_node_ok.
        * exfalso. apply (klt_irrefl k).
          apply (after_bound_lt traverse k ks2 cs2 HsR Hks2).
          rewrite <- stored_after_keys.
          change k with (fst (k, v)). now apply in_map. }
  destruct ks2 as [|kv ks2'].
  - rewrite app_nil_r.
    rewrite (proj2 (nth_error_None ks1 (length ks1))) by lia.
    apply Hmiss. constructor.
  - rewrite nth_error_app_len.
    destruct (key_eq k (fst kv)) eqn:E.
    + apply key_eq_iff in E. f_equal. eapply Hfound; eauto.
    + apply key_eq_false in E. apply Hmiss. eapply Hgt; eauto.
Qed.

(** What [search] returns is a stored pair, in any tree. *)
Lemma search_node_stored n (k : K) (v : V) :
  search_node n k = Some v -> In (k, v) (stored_node n).
Proof.
  induction n as [leaf ks cs IH] using BTreeNode_ind'.
  cbn [search_node].
  destruct (scan_up_spec ks k) as (ks1 & ks2 & -> & Hi & H1 & H2).
  rewrite Hi.
  assert (Hmiss :
            (if leaf then None
             else at_child (fun c => search_node c k) None
                           (length ks1) cs) = Some v ->
            In (k, v) (stored_node (Node leaf (ks1 ++ ks2) cs))).
  { destruct leaf; [discriminate |].
    destruct (Nat.lt_ge_cases (length ks1) (length cs)) as [Hlt | Hge].
    - destruct (split_at (length ks1) cs Hlt) as (cs1 & c & cs2 & -> & Hl1).
      rewrite <- Hl1, at_child_at. intros Hc.
      rewrite Forall_forall in IH.
      assert (Hinc : In c (cs1 ++ c :: cs2))
        by (apply in_or_app; simpl; auto).
      rewrite stored_split by congruence.
      apply in_or_app. right. apply in_or_app. auto.
    - assert (E : at_child (fun c => search_node c k) None (length ks1) cs
                  = None).
      { clear -Hge. revert cs Hge. generalize (length ks1).
        induction n as [|n IHn]; intros [|c cs] Hge; simpl in *;
          trivial; try lia.
        apply IHn. lia. }
      rewrite E. discriminate. }
  destruct ks2 as [|kv ks2'].
  - rewrite app_nil_r in *.
    rewrite (proj2 (nth_error_None ks1 (length ks1))) by lia. exact Hmiss.
  - rewrite nth_error_app_len.
    destruct (key_eq k (fst kv)) eqn:E; [| exact Hmiss].
    apply key_eq_iff in E. intros Hv. inversion Hv; subst.
    rewrite <- surjective_pairing.
    cbn [stored_node]. apply keys_in_stored_loop.
    apply in_or_app. right. left. reflexivity.
Qed.

(** After the insert of a key that the tree did not hold, in a tree with
    pairwise distinct keys, [search] returns the inserted value. *)
Lemma search_insert_fresh (t : CompleteBTree K V) (key : K) (value : V) :
  tree_inv t ->
  StronglySorted klt (get_all_keys t) ->
  ~ In key (get_all_keys t) ->
  search (insert t key value) key = Some value.
Proof.
  intros Ht Hstrict Hfresh.
  destruct (insert_fresh t key value Ht Hfresh) as (l1 & l2 & _ & E2).
  destruct (insert_inv t key value Ht) as [[Hok _] _].
  apply search_node_finds.
  - eauto.
  - now apply insert_fresh_strict.
  - unfold stored_pairs in E2. rewrite E2. apply in_or_app. simpl. auto.
Qed.

(** X2.  Inserts of pairwise distinct keys: the keys come out strictly
    ascending, the tree stores exactly the inserted pairs, and [search]
    returns the value inserted for each key. *)
Theorem distinct_keys_build (ops : list (K * V)) :
  NoDup (map fst ops) ->
  StronglySorted klt (get_all_keys (build ops)) /\
  Permutation (stored_pairs (build ops)) ops /\
  get_size (build ops) = length ops /\
  forall k v, In (k, v) ops -> search (build ops) k = Some v.
Proof.
  intros Hnd.
  assert (H : StronglySorted klt (get_all_keys (build ops)) /\
              Permutation (stored_pairs (build ops)) ops).
  { induction ops as [|[k v] ops IH] using rev_ind.
    - split; constructor.
    - rewrite map_app in Hnd. cbn [map fst] in Hnd.
      apply NoDup_remove in Hnd. rewrite app_nil_r in Hnd.
      destruct Hnd as [Hnd Hk]. destruct (IH Hnd) as [Hs Hp].
      unfold build, insert_all in *. rewrite fold_left_app. cbn [fold_left].
      fold (insert_all (@empty_tree K V) ops) in *. fold (build ops) in *.
      assert (Hfresh : ~ In k (get_all_keys (build ops))).
      { unfold get_all_keys. rewrite <- stored_node_keys.
        intros Hin. apply Hk.
        apply (Permutation_in _ (Permutation_map fst Hp)). exact Hin. }
      split.
      + apply insert_fresh_strict; trivial. apply build_inv.
      + destruct (insert_fresh (build ops) k v (build_inv ops) Hfresh)
          as (l1 & l2 & E1 & E2).
        cbn [fst snd]. rewrite E2.
        rewrite <- Permutation_middle, <- E1.
        rewrite Permutation_app_comm. cbn [app].
        now apply perm_skip. }
  destruct H as [Hs Hp]. split; [exact Hs | split; [exact Hp | split]].
  - unfold get_size, get_all_keys. rewrite <- stored_node_keys, length_map.
    now apply Permutation_length.
  - intros k v Hin. apply search_node_finds.
    + exists 0. apply build_inv.
    + exact Hs.
    + apply (Permutation_in _ (Permutation_sym Hp)). exact Hin.
Qed.

End BTreeFresh.

(** ** The binary codec *)

Section Codec.

Lemma length_encode_le (w : nat) (n : Z) : length (encode_le w n) = w.
Proof. revert n. induction w; intros n; simpl; auto. Qed.

Lemma decode_encode_le (w : nat) (n : Z) :
  (0 <= n < 256 ^ Z.of_nat w)%Z -> decode_le (encode_le w n) = n.
Proof.
  revert n. induction w as [|w IH]; intros n Hn.
  - simpl in *. lia.
  - cbn [encode_le decode_le].
    rewrite Nat2Z.inj_succ, Z.pow_succ_r in Hn by lia.
    assert (Hm := Z.mod_pos_bound n 256 ltac:(lia)).
    rewrite N_ascii_embedding by lia.
    rewrite Z2N.id by lia.
    rewrite IH.
    + rewrite (Z.div_mod n 256) at 3 by lia. lia.
    + split; [apply Z.div_pos; lia |].
      apply Z.div_lt_upper_bound; lia.
Qed.

Lemma length_list_ascii_of_string (s : string) :
  length (list_ascii_of_string s) = String.length s.
Proof. induction s; simpl; auto. Qed.

Lemma length_resize {A : Type} (n : nat) (d : A) (l : list A) :
  length (resize n d l) = n.
Proof.
  unfold resize. rewrite length_app, length_firstn, repeat_length. lia.
Qed.

Lemma is_read_app (a b : list ascii) :
  is_read {| unread := a ++ b; good := true |} (length a) =
  (a, {| unread := b; good := true |}).
Proof.
  unfold is_read. cbn [good unread].
  assert (E : (length a <=? length (a ++ b)) = true)
    by (apply Nat.leb_le; rewrite length_app; lia).
  now rewrite E, firstn_app_len, skipn_app_len.
Qed.

Lemma read_size_t_header (hdr rest : list ascii) :
  length hdr = SIZEOF_SIZE_T ->
  read_size_t {| unread := hdr ++ rest; good := true |} =
  (Some (decode_le hdr), {| unread := rest; good := true |}).
Proof.
  intros Hlen. unfold read_size_t. rewrite <- Hlen, is_read_app.
  now rewrite Nat.eqb_refl.
Qed.

Lemma read_size_t_encoded (n : Z) (rest : list ascii) :
  (0 <= n < 2 ^ 64)%Z ->
  read_size_t {| unread := encode_le SIZEOF_SIZE_T n ++ rest; good := true |} =
  (Some n, {| unread := rest; good := true |}).
Proof.
  intros Hn. rewrite read_size_t_header by apply length_encode_le.
  rewrite decode_encode_le; [reflexivity |].
  change (256 ^ Z.of_nat SIZEOF_SIZE_T)%Z with (2 ^ 64)%Z. exact Hn.
Qed.

Lemma write_string_app (os : ofstream) (s : string) :
  write_string os s = os ++ write_string [] s.
Proof.
  unfold write_string, os_write.
  destruct (0 <? Z.of_nat (String.length s))%Z; simpl;
    now rewrite <- ?app_assoc.
Qed.

Lemma read_write_string (s str0 : string) (rest : list ascii) :
  (Z.of_nat (String.length s) < 1000000)%Z ->
  read_string {| unread := write_string [] s ++ rest; good := true |} str0 =
  Some (s, {| unread := rest; good := true |}).
Proof.
  intros Hlen. unfold read_string, write_string, os_write. cbn [app].
  destruct (0 <? Z.of_nat (String.length s))%Z eqn:E.
  - rewrite <- app_assoc, read_size_t_encoded by lia.
    rewrite E.
    assert (E2 : (Z.of_nat (String.length s) <? 1000000)%Z = true)
      by (apply Z.ltb_lt; lia).
    rewrite E2. cbn [andb]. rewrite Nat2Z.id.
    rewrite <- length_list_ascii_of_string, is_read_app.
    rewrite skipn_all2 by (rewrite length_resize; lia).
    now rewrite app_nil_r, string_of_list_ascii_of_string.
  - rewrite read_size_t_encoded by lia. rewrite E. cbn [andb].
    apply Z.ltb_ge in E. destruct s; [reflexivity | simpl in E; lia].
Qed.

Lemma write_strings_app (vec : list string) (os : ofstream) :
  fold_left write_string vec os =
  os ++ concat (map (write_string []) vec).
Proof.
  revert os. induction vec as [|s vec IH]; intros os; simpl.
  - now rewrite app_nil_r.
  - rewrite IH, (write_string_app os s). now rewrite <- app_assoc.
Qed.

Lemma read_write_strings (vec prior : list string) (rest : list ascii) :
  length prior = length vec ->
  Forall (fun s => (Z.of_nat (String.length s) < 1000000)%Z) vec ->
  read_strings
    {| unread := concat (map (write_string []) vec) ++ rest; good := true |}
    prior =
  Some (vec, {| unread := rest; good := true |}).
Proof.
  intros Hlen Hshort. revert prior Hlen.
  induction Hshort as [|s vec Hs _ IH]; intros [|p prior] Hlen;
    try discriminate Hlen; [reflexivity |].
  cbn [map concat read_strings].
  rewrite <- app_assoc, read_write_string by trivial.
  rewrite IH by (simpl in Hlen; congruence). reflexivity.
Qed.

End Codec.

(** ** The database orchestrator *)

Section DatabaseFacts.
Variable std_hash : string -> Z.
Context {Sort : StdSort}.

Lemma higher_priority_strict : strict_order higher_priority.
Proof.
  unfold higher_priority. split.
  - intros a. rewrite Z.gtb_ltb. apply Z.ltb_irrefl.
  - intros a b c. rewrite !Z.gtb_ltb, !Z.ltb_lt. lia.
Qed.

Lemma std_sort_descending (l : list PriorityQueueEntry) :
  descending (std_sort higher_priority l).
Proof.
  eapply ssorted_weaken;
    [| apply std_sort_sorted, higher_priority_strict].
  intros a b. unfold higher_priority. rewrite Z.gtb_ltb, Z.ltb_ge. trivial.
Qed.

Lemma pq_entries_add_quest (quest : Quest) (now : Z) db :
  pq_entries (add_quest quest now db) =
  std_sort higher_priority
    (pq_entries db
       ++ [{| pq_quest := quest; pq_priority := q_priority quest;
              pq_timestamp := now |}]).
Proof. reflexivity. Qed.

Lemma descending_back (rest : list PriorityQueueEntry) back :
  descending (rest ++ [back]) ->
  Forall (fun e => (pq_priority back <= pq_priority e)%Z) (rest ++ [back]).
Proof.
  intros H. apply ssorted_app in H. destruct H as (_ & _ & Hx).
  apply Forall_app. split.
  - apply Forall_forall. intros e He. apply Hx; simpl; auto.
  - repeat constructor. lia.
Qed.

Lemma get_next_quest_back db (rest : list PriorityQueueEntry) back :
  pq_entries db = rest ++ [back] ->
  get_next_quest db =
  (Returned (pq_quest back), save_all_data (set_pq_entries db rest)).
Proof.
  intros H. unfold get_next_quest.
  now rewrite H, rev_unit, removelast_last.
Qed.

End DatabaseFacts.

(** * The claims *)

Section TreeClaims.
Context {K V : Type} `{KO : KeyOrder K}.

(** C4, as amended.  In every tree built by inserts from the empty tree,
    the root holds at most [MAX_KEYS] = 5 keys and every other node holds
    between [MIN_KEYS] = 2 and 5 keys; and every node on which
    [insert_non_full] is entered during an [insert] (the root handed over
    by [insert], then each child descended into) holds fewer than 5 keys at
    that moment, a full root or child having been split first. *)
Theorem node_key_bounds (ops : list (K * V)) :
  length (keys (root (build ops))) <= MAX_KEYS /\
  Forall (fun n => MIN_KEYS <= length (keys n) <= MAX_KEYS)
         (subnodes (root (build ops))) /\
  forall key : K,
    Forall (fun n => length (keys n) < MAX_KEYS)
           (insert_path (build ops) key).
Proof.
  assert (Hinv := build_inv ops).
  split; [| split].
  - destruct Hinv as [[((_ & Hmax) & _) _] _]. exact Hmax.
  - destruct Hinv as [Hok _]. exact (node_key_counts 0 _ Hok).
  - intros key. now apply insert_path_not_full.
Qed.

(** Supporting result: for every tree built by inserts from the empty tree
    and every pair of bounds, [range_query(start, end)] returns, up to
    order, the values of the pairs the nodes hold whose key [k] satisfies
    [start <= k] and [k <= end]; the keys of these pairs are what
    [get_all_keys] enumerates.  A pair that a re-insert has left behind an
    internal key is among them. *)
Theorem range_query_brute_force (ops : list (K * V)) (start end_ : K) :
  Permutation
    (range_query (build ops) start end_)
    (map snd (filter (fun kv => key_ge (fst kv) start && key_le (fst kv) end_)
                     (stored_pairs (build ops)))) /\
  map fst (stored_pairs (build ops)) = get_all_keys (build ops) /\
  forall v : V,
    In v (range_query (build ops) start end_) <->
    exists k, In (k, v) (stored_pairs (build ops)) /\
              kle start k /\ kle k end_.
Proof.
  assert (Hperm : Permutation
            (range_query (build ops) start end_)
            (select start end_ (stored_pairs (build ops)))).
  { apply traverse_range_perm. exists 0. apply build_inv. }
  split; [exact Hperm | split; [apply stored_node_keys |]].
  intros v. split.
  - intros Hin. apply (Permutation_in _ Hperm) in Hin.
    apply in_map_iff in Hin. destruct Hin as ([k v'] & <- & Hin).
    apply filter_In in Hin. destruct Hin as [Hin Hr].
    apply andb_prop in Hr. destruct Hr as [H1 H2].
    exists k. simpl in *. rewrite key_ge_iff in H1. rewrite key_le_iff in H2.
    auto.
  - intros (k & Hin & H1 & H2).
    apply (Permutation_in _ (Permutation_sym Hperm)).
    apply in_map_iff. exists (k, v). split; [reflexivity |].
    apply filter_In. split; trivial.
    unfold in_range. simpl.
    apply key_ge_iff in H1. apply key_le_iff in H2. now rewrite H1, H2.
Qed.

(** X1.  Supporting result: in every tree built by inserts from the empty
    tree, [get_all_keys] is ascending in the non-strict sense. *)
Theorem get_all_keys_ascending (ops : list (K * V)) :
  StronglySorted kle (get_all_keys (build ops)).
Proof. apply build_inv. Qed.

End TreeClaims.

(** C1 fails on the code.  After the inserts [reinsert_K3] the most recent
    value inserted for "K3" is 33, and [search("K3")] returns the first
    one, 3: the second insert went past the internal node that holds "K3"
    and added a second pair to a leaf. *)
Theorem search_returns_stale_value :
  last_inserted reinsert_K3 "K3"%string = Some 33%Z /\
  search (build reinsert_K3) "K3"%string = Some 3%Z.
Proof. split; vm_compute; reflexivity. Qed.

(** C2 fails on the code.  "K3" is present after [six_inserts]; inserting
    it again makes [get_all_keys().size()] go from 6 to 7 and leaves two
    entries with the key "K3". *)
Theorem reinsert_grows_the_tree :
  exists_ (build six_inserts) "K3"%string = true /\
  get_size (build six_inserts) = 6 /\
  get_size (insert (build six_inserts) "K3"%string 33%Z) = 7 /\
  stored_pairs (insert (build six_inserts) "K3"%string 33%Z) =
  [("K1", 1); ("K2", 2); ("K3", 3); ("K3", 33);
   ("K4", 4); ("K5", 5); ("K6", 6)]%Z%string.
Proof. repeat split; vm_compute; reflexivity. Qed.

(** C3 fails on the code.  After the inserts [reinsert_K3],
    [get_all_keys()] lists "K3" twice, so it is not strictly ascending. *)
Theorem get_all_keys_not_strictly_ascending :
  get_all_keys (build reinsert_K3) =
  ["K1"; "K2"; "K3"; "K3"; "K4"; "K5"; "K6"]%string /\
  ~ StronglySorted klt (get_all_keys (build reinsert_K3)).
Proof.
  assert (E : get_all_keys (build reinsert_K3) =
              ["K1"; "K2"; "K3"; "K3"; "K4"; "K5"; "K6"]%string)
    by (vm_compute; reflexivity).
  split; [exact E |]. rewrite E. intros H.
  change ["K1"; "K2"; "K3"; "K3"; "K4"; "K5"; "K6"]%string
    with (["K1"; "K2"]%string ++ ["K3"; "K3"; "K4"; "K5"; "K6"]%string) in H.
  apply ssorted_app in H. destruct H as (_ & H & _).
  apply ssorted_cons in H. destruct H as [_ H].
  specialize (H "K3"%string (or_introl eq_refl)). discriminate H.
Qed.

(** C5 fails on the code.  After the inserts [reinsert_K3] the map holds
    "K3" once, with the value 33, and brute-force filtering of its pairs by
    the bounds ["K3", "K3"] gives [33]; [range_query("K3", "K3")] returns
    two values, the overwritten 3 and 33, which is a different multiset.
    The filter a client can run over [get_all_keys] and [search] gives yet
    another one, 3 twice. *)
Theorem range_query_returns_overwritten_value :
  upserted reinsert_K3 =
    [("K1", 1); ("K2", 2); ("K3", 33); ("K4", 4); ("K5", 5); ("K6", 6)]%Z%string
  /\
  brute_force reinsert_K3 "K3"%string "K3"%string = [33%Z] /\
  range_query (build reinsert_K3) "K3"%string "K3"%string = [3%Z; 33%Z] /\
  brute_force_by_search (build reinsert_K3) "K3"%string "K3"%string =
    [3%Z; 3%Z] /\
  ~ Permutation (range_query (build reinsert_K3) "K3"%string "K3"%string)
                (brute_force reinsert_K3 "K3"%string "K3"%string).
Proof.
  assert (E1 : brute_force reinsert_K3 "K3"%string "K3"%string = [33%Z])
    by (vm_compute; reflexivity).
  assert (E2 : range_query (build reinsert_K3) "K3"%string "K3"%string =
               [3%Z; 33%Z]) by (vm_compute; reflexivity).
  split; [vm_compute; reflexivity |].
  split; [exact E1 |]. split; [exact E2 |].
  split; [vm_compute; reflexivity |].
  rewrite E1, E2. intros H. apply Permutation_length in H. discriminate H.
Qed.

(** C4 as stated fails: after a single insert the root is a node that
    holds one key, fewer than the minimum of 2. *)
Lemma root_below_min_keys :
  ~ Forall (fun n => MIN_KEYS <= length (keys n) <= MAX_KEYS)
           (nodes (build [("K1"%string, 1%Z)])).
Proof.
  intros H. inversion H as [|? ? [Hmin _] _]; subst.
  vm_compute in Hmin. lia.
Qed.

(** C8.  On a stream that starts with an eight-byte header whose value is
    at least 1,000,000, [read_string] sets the string to the empty string,
    and on one whose header is at least 10,000, [read_vector_string] sets
    the vector to the empty vector; both return normally, with the stream
    just after the header. *)
Theorem read_rejects_implausible_header
    (hdr rest : list ascii) (str : string) (vec : list string) :
  length hdr = SIZEOF_SIZE_T ->
  ((1000000 <= decode_le hdr)%Z ->
   read_string {| unread := hdr ++ rest; good := true |} str =
   Some (EmptyString, {| unread := rest; good := true |})) /\
  ((10000 <= decode_le hdr)%Z ->
   read_vector_string {| unread := hdr ++ rest; good := true |} vec =
   Some ([], {| unread := rest; good := true |})).
Proof.
  intros Hlen. split; intros Hbig.
  - unfold read_string. rewrite read_size_t_header by trivial.
    assert (E : (decode_le hdr <? 1000000)%Z = false) by (apply Z.ltb_ge; lia).
    now rewrite E, andb_false_r.
  - unfold read_vector_string. rewrite read_size_t_header by trivial.
    assert (E : (decode_le hdr <? 10000)%Z = false) by (apply Z.ltb_ge; lia).
    now rewrite E.
Qed.

Lemma read_rejects_implausible_header_witness :
  read_string
    {| unread := encode_le SIZEOF_SIZE_T 1000000 ++ ["x"%char]; good := true |}
    "old" =
  Some (EmptyString, {| unread := ["x"%char]; good := true |}) /\
  read_vector_string
    {| unread := encode_le SIZEOF_SIZE_T 1000000 ++ ["x"%char]; good := true |}
    ["old"%string] =
  Some ([], {| unread := ["x"%char]; good := true |}).
Proof.
  destruct (read_rejects_implausible_header
              (encode_le SIZEOF_SIZE_T 1000000) ["x"%char] "old"
              ["old"%string] eq_refl) as [H1 H2].
  split; [apply H1 | apply H2]; vm_compute; discriminate.
Defined.

(** C9.  A string shorter than 1,000,000 bytes is read back by
    [read_string] from what [write_string] wrote, whatever the out-parameter
    held before, the empty string included; a vector of fewer than 10,000
    such strings is read back by [read_vector_string] from what
    [write_vector_string] wrote. *)
Theorem codec_round_trip :
  (forall s str0 : string,
      (Z.of_nat (String.length s) < 1000000)%Z ->
      read_string {| unread := write_string [] s; good := true |} str0 =
      Some (s, {| unread := []; good := true |})) /\
  (forall vec vec0 : list string,
      (Z.of_nat (length vec) < 10000)%Z ->
      Forall (fun s => (Z.of_nat (String.length s) < 1000000)%Z) vec ->
      read_vector_string
        {| unread := write_vector_string [] vec; good := true |} vec0 =
      Some (vec, {| unread := []; good := true |})).
Proof.
  split.
  - intros s str0 Hs.
    rewrite <- (app_nil_r (write_string [] s)). now apply read_write_string.
  - intros vec vec0 Hcount Hshort.
    unfold read_vector_string, write_vector_string, os_write. cbn [app].
    rewrite write_strings_app, read_size_t_encoded by lia.
    assert (E : (Z.of_nat (length vec) <? 10000)%Z = true)
      by (apply Z.ltb_lt; lia).
    rewrite E, Nat2Z.id.
    rewrite <- (app_nil_r (concat _)).
    apply read_write_strings; trivial. apply length_resize.
Qed.

Lemma codec_round_trip_witness :
  read_string {| unread := write_string [] "squat"; good := true |} "old" =
  Some ("squat"%string, {| unread := []; good := true |}) /\
  read_vector_string
    {| unread := write_vector_string [] ["legs"%string; EmptyString; "core"%string];
       good := true |} ["old"%string] =
  Some (["legs"%string; EmptyString; "core"%string], {| unread := []; good := true |}).
Proof.
  destruct codec_round_trip as [H1 H2]. split.
  - apply H1. vm_compute. reflexivity.
  - apply H2.
    + vm_compute. reflexivity.
    + repeat constructor.
Defined.

Section DatabaseClaims.
Variable std_hash : string -> Z.
Context {Sort : StdSort}.

(** C6.  After [add_quest] the priority snapshot is in descending order
    of priority; on a snapshot in that order [get_next_quest] removes the
    entry at the back and returns its quest, and no remaining entry has a
    lower priority; after adding quests of priorities 1, 5 and 3 to an
    empty snapshot, the first [get_next_quest] returns the quest of
    priority 1, and after adding them to a snapshot whose entries carry
    the priority of their quest and none below 1 (as the seeded one), it
    returns a quest of priority 1. *)
Theorem add_quest_then_get_next_quest :
  (forall db quest now, descending (pq_entries (add_quest quest now db))) /\
  (forall db rest back,
      pq_entries db = rest ++ [back] ->
      descending (pq_entries db) ->
      fst (get_next_quest db) = Returned (pq_quest back) /\
      pq_entries (snd (get_next_quest db)) = rest /\
      Forall (fun e => (pq_priority back <= pq_priority e)%Z)
             (pq_entries db)) /\
  (forall db q1 q5 q3 t1 t2 t3,
      pq_entries db = [] ->
      q_priority q1 = 1%Z -> q_priority q5 = 5%Z -> q_priority q3 = 3%Z ->
      fst (get_next_quest
             (add_quest q3 t3 (add_quest q5 t2 (add_quest q1 t1 db)))) =
      Returned q1) /\
  (forall db q1 q5 q3 t1 t2 t3,
      Forall (fun e => q_priority (pq_quest e) = pq_priority e /\
                       (1 <= pq_priority e)%Z) (pq_entries db) ->
      q_priority q1 = 1%Z -> q_priority q5 = 5%Z -> q_priority q3 = 3%Z ->
      exists quest,
        fst (get_next_quest
               (add_quest q3 t3 (add_quest q5 t2 (add_quest q1 t1 db)))) =
        Returned quest /\
        q_priority quest = 1%Z).
Proof.
  assert (Hthree : forall db q1 q5 q3 t1 t2 t3,
             let e1 := {| pq_quest := q1; pq_priority := q_priority q1;
                          pq_timestamp := t1 |} in
             let e5 := {| pq_quest := q5; pq_priority := q_priority q5;
                          pq_timestamp := t2 |} in
             let e3 := {| pq_quest := q3; pq_priority := q_priority q3;
                          pq_timestamp := t3 |} in
             let db3 :=
               add_quest q3 t3 (add_quest q5 t2 (add_quest q1 t1 db)) in
             exists rest back,
               pq_entries db3 = rest ++ [back] /\
               fst (get_next_quest db3) = Returned (pq_quest back) /\
               In back (pq_entries db ++ [e1; e5; e3]) /\
               (pq_priority back <= pq_priority e1)%Z).
  { intros db q1 q5 q3 t1 t2 t3 e1 e5 e3 db3.
    assert (Hperm : Permutation (pq_entries db ++ [e1; e5; e3])
                                (pq_entries db3)).
    { unfold db3. rewrite !pq_entries_add_quest. fold e1 e5 e3.
      rewrite <- !std_sort_perm. now rewrite <- !app_assoc. }
    assert (Hdesc : descending (pq_entries db3)).
    { unfold db3. rewrite pq_entries_add_quest. apply std_sort_descending. }
    destruct (exists_last (l := pq_entries db3)) as (rest & back & Hpq).
    { intros E. rewrite E in Hperm.
      apply Permutation_length in Hperm. rewrite length_app in Hperm.
      simpl in Hperm. lia. }
    exists rest, back. split; [exact Hpq | split; [| split]].
    - now rewrite (get_next_quest_back db3 rest back Hpq).
    - apply (Permutation_in _ (Permutation_sym Hperm)).
      rewrite Hpq. apply in_or_app. simpl. auto.
    - rewrite Hpq in Hdesc. apply descending_back in Hdesc.
      rewrite <- Hpq in Hdesc. rewrite Forall_forall in Hdesc.
      apply Hdesc. apply (Permutation_in _ Hperm).
      apply in_or_app. simpl. auto. }
  split; [| split; [| split]].
  - intros db quest now. rewrite pq_entries_add_quest.
    apply std_sort_descending.
  - intros db rest back Hpq Hdesc.
    rewrite (get_next_quest_back db rest back Hpq). cbn.
    repeat split. rewrite Hpq in *. now apply descending_back.
  - intros db q1 q5 q3 t1 t2 t3 Hempty Hp1 Hp5 Hp3.
    destruct (Hthree db q1 q5 q3 t1 t2 t3)
      as (rest & back & _ & Hget & Hin & Hle).
    rewrite Hget, Hempty in *. cbn [pq_priority app] in *.
    destruct Hin as [<- | [<- | [<- | []]]]; trivial;
      cbn [pq_priority] in Hle; lia.
  - intros db q1 q5 q3 t1 t2 t3 Hdb Hp1 Hp5 Hp3.
    destruct (Hthree db q1 q5 q3 t1 t2 t3)
      as (rest & back & _ & Hget & Hin & Hle).
    exists (pq_quest back). split; [exact Hget |].
    cbn [pq_priority] in Hle.
    apply in_app_or in Hin. destruct Hin as [Hin | Hin].
    + rewrite Forall_forall in Hdb. destruct (Hdb back Hin) as [E Hge]. lia.
    + destruct Hin as [<- | [<- | [<- | []]]]; cbn [pq_quest pq_priority] in *;
        lia.
Qed.

(** C10.  On an empty priority snapshot [get_next_quest] throws "No
    quests available" and changes nothing; on a non-empty one it removes
    exactly the last entry and leaves the four trees, the email index and
    the graph edges as they are. *)
Theorem get_next_quest_frame (db : PersistentFitnessDatabase) :
  (pq_entries db = [] ->
   get_next_quest db = (Thrown "No quests available", db)) /\
  (forall rest back,
      pq_entries db = rest ++ [back] ->
      fst (get_next_quest db) = Returned (pq_quest back) /\
      pq_entries (snd (get_next_quest db)) = rest /\
      quest_btree (snd (get_next_quest db)) = quest_btree db /\
      exercise_btree (snd (get_next_quest db)) = exercise_btree db /\
      user_btree (snd (get_next_quest db)) = user_btree db /\
      workout_btree (snd (get_next_quest db)) = workout_btree db /\
      email_index (snd (get_next_quest db)) = email_index db /\
      graph_edges (snd (get_next_quest db)) = graph_edges db).
Proof.
  split.
  - intros H. unfold get_next_quest. now rewrite H.
  - intros rest back H. rewrite (get_next_quest_back db rest back H).
    cbn. repeat split.
Qed.

(** Supporting result: what [create_user] does to the state.  It
    throws exactly when an entry of the email index has the email as its
    key, and then changes nothing; otherwise it inserts the new user under
    the generated id, appends the index entry for it and returns the id,
    and [get_user_by_email] on the new state looks that id up in the
    user tree. *)
Theorem create_user_effect
    (username email password : string) (now_created now_login now_id rnd : Z)
    (db : PersistentFitnessDatabase) :
  let id := ("USER_" ++ to_string now_id ++ "_"
               ++ to_string (Z.rem rnd 10000))%string in
  let user :=
    {| u_id := id; u_username := username; u_email := email;
       u_password_hash := to_string (std_hash password);
       u_fitness_level := 1; u_experience_points := 0;
       u_completed_exercises := []; u_achievements := [];
       u_created_at := now_created; u_last_login := now_login |} in
  let result :=
    create_user std_hash username email password
                now_created now_login now_id rnd db in
  (fst result = Thrown "Email already registered" <->
   exists entry, In entry (email_index db) /\ hte_key entry = email) /\
  (fst result = Thrown "Email already registered" -> snd result = db) /\
  (fst result <> Thrown "Email already registered" ->
   fst result = Returned id /\
   user_btree (snd result) = insert (user_btree db) id user /\
   email_index (snd result) =
     email_index db ++ [{| hte_key := email; hte_value := id |}] /\
   get_user_by_email email (snd result) =
     search_or_throw (insert (user_btree db) id user) id).
Proof.
  intros id user result. subst result. unfold create_user.
  fold id. fold user.
  destruct (existsb _ (email_index db)) eqn:E; cbn [fst snd].
  - apply existsb_exists in E. destruct E as (entry & Hin & Heq).
    apply String.eqb_eq in Heq.
    split; [| split]; try tauto. split; eauto.
  - split; [| split]; try discriminate.
    + split; [discriminate |]. intros (entry & Hin & Heq).
      assert (E' : existsb (fun entry => String.eqb (hte_key entry) email)
                           (email_index db) = true).
      { apply existsb_exists. exists entry. split; trivial.
        now apply String.eqb_eq. }
      congruence.
    + intros _. repeat split.
      unfold get_user_by_email. cbn.
      assert (Hnone : find (fun entry => String.eqb (hte_key entry) email)
                           (email_index db) = None).
      { destruct (find _ (email_index db)) as [entry|] eqn:F; trivial.
        apply find_some in F. destruct F as [Hin Heq].
        assert (E' : existsb (fun entry => String.eqb (hte_key entry) email)
                             (email_index db) = true)
          by (apply existsb_exists; eauto).
        congruence. }
      rewrite (find_app_none _ _ _ Hnone). cbn.
      now rewrite String.eqb_refl.
Qed.

(** X23.  Supporting result: when the generated id is not yet a key of the
    user tree, and the user tree was built by inserts of pairwise distinct
    keys, the created user is what [get_user_by_email] returns for the
    email. *)
Theorem created_user_retrievable_when_id_is_new
    (username email password : string) (now_created now_login now_id rnd : Z)
    (db : PersistentFitnessDatabase) :
  let id := ("USER_" ++ to_string now_id ++ "_"
               ++ to_string (Z.rem rnd 10000))%string in
  let user :=
    {| u_id := id; u_username := username; u_email := email;
       u_password_hash := to_string (std_hash password);
       u_fitness_level := 1; u_experience_points := 0;
       u_completed_exercises := []; u_achievements := [];
       u_created_at := now_created; u_last_login := now_login |} in
  let result :=
    create_user std_hash username email password
                now_created now_login now_id rnd db in
  tree_inv (user_btree db) ->
  StronglySorted klt (get_all_keys (user_btree db)) ->
  ~ In id (get_all_keys (user_btree db)) ->
  fst result <> Thrown "Email already registered" ->
  get_user_by_email email (snd result) = Returned user.
Proof.
  intros id user result Hinv Hstrict Hfresh Hok.
  destruct (create_user_effect username email password
              now_created now_login now_id rnd db) as (_ & _ & H).
  destruct (H Hok) as (_ & _ & _ & Hget).
  subst result. rewrite Hget. unfold search_or_throw.
  fold id. fold user.
  now rewrite (search_insert_fresh (user_btree db) id user Hinv Hstrict Hfresh).
Qed.

End DatabaseClaims.

(** C7 fails on the code.  The database was started on an empty data
    directory, which seeds the user "ADMIN001", and six users were created
    in second 100 with [rand() % 10000] = 1 .. 6; this state is reached by
    the public operations alone.  A seventh [create_user], for an email that
    is not registered, in the same second and with [rand()] = 10002, does
    not throw and returns the id "USER_100_2"; that id is already the key
    of the internal root of the user tree, so the new record lands in a
    leaf behind it, and [get_user_by_email] for the new email returns the
    old user "u2". *)
Theorem created_user_not_retrievable (std_hash : string -> Z)
    (Sort : StdSort) :
  let result :=
    create_user std_hash "eve" "eve@fit.org" "secret" 100 100 100 10002
                (six_users std_hash) in
  reachable std_hash (six_users std_hash) /\
  get_all_keys (user_btree (six_users std_hash)) =
    ["ADMIN001"; "USER_100_1"; "USER_100_2"; "USER_100_3"; "USER_100_4";
     "USER_100_5"; "USER_100_6"]%string /\
  existsb (fun entry => String.eqb (hte_key entry) "eve@fit.org")
          (email_index (six_users std_hash)) = false /\
  fst result = Returned "USER_100_2"%string /\
  exists other,
    get_user_by_email "eve@fit.org" (snd result) = Returned other /\
    u_username other = "u2"%string /\ u_email other = "u2@fit.org"%string.
Proof.
  cbn zeta. split.
  { unfold six_users. cbn [fold_left].
    repeat apply reach_create_user. apply reach_first_start. }
  split; [vm_compute; reflexivity |].
  split; [vm_compute; reflexivity |].
  split; [vm_compute; reflexivity |].
  eexists. split; [vm_compute; reflexivity |].
  split; reflexivity.
Qed.

Lemma add_quest_then_get_next_quest_witness :
  let q1 := quest_of_priority "Q1" 1 in
  let q5 := quest_of_priority "Q5" 5 in
  let q3 := quest_of_priority "Q3" 3 in
  let add := add_quest (Sort := insertion_StdSort) in
  let db1 := add q1 10%Z empty_database in
  let db3 := add q3 30%Z (add q5 20%Z db1) in
  let seeded := initialize_sample_data 1 2 3 4 5 empty_database in
  (fst (get_next_quest db1) = Returned q1 /\
   pq_entries (snd (get_next_quest db1)) = []) /\
  fst (get_next_quest db3) = Returned q1 /\
  exists quest,
    fst (get_next_quest (add q3 30%Z (add q5 20%Z (add q1 10%Z seeded)))) =
    Returned quest /\
    q_priority quest = 1%Z.
Proof.
  intros q1 q5 q3 add db1 db3 seeded.
  destruct (add_quest_then_get_next_quest (Sort := insertion_StdSort))
    as (Hsorted & Hback & Hthree & Hseeded).
  split; [| split].
  - destruct (Hback db1 []
                {| pq_quest := q1; pq_priority := 1; pq_timestamp := 10 |})
      as (H1 & H2 & _); [reflexivity | apply Hsorted |].
    split; [exact H1 | exact H2].
  - apply Hthree; reflexivity.
  - apply Hseeded; try reflexivity.
    repeat constructor; vm_compute; discriminate.
Defined.

Lemma get_next_quest_frame_witness :
  let q1 := quest_of_priority "Q1" 1 in
  let db1 := add_quest (Sort := insertion_StdSort) q1 10 empty_database in
  get_next_quest empty_database =
    (Thrown "No quests available", empty_database) /\
  fst (get_next_quest db1) = Returned q1 /\
  pq_entries (snd (get_next_quest db1)) = [] /\
  quest_btree (snd (get_next_quest db1)) = quest_btree db1.
Proof.
  intros q1 db1. split.
  - apply (get_next_quest_frame empty_database). reflexivity.
  - destruct (get_next_quest_frame db1) as [_ H].
    destruct (H [] {| pq_quest := q1; pq_priority := 1; pq_timestamp := 10 |})
      as (H1 & H2 & H3 & _); [reflexivity |].
    repeat split; assumption.
Defined.

(** * Further properties of the B-tree *)

Section BTreeMembership.
Context {K V : Type} `{KO : KeyOrder K}.

#[local] Abbreviation BTreeNode := (BTreeNode K V).
Implicit Types (ks : list (K * V)) (cs : list BTreeNode) (c n : BTreeNode).

(** [insert_key] on a strictly ascending vector either adds the pair or
    overwrites the value of the pair with that key. *)
Lemma insert_key_cases ks (k : K) (v : V) :
  StronglySorted klt (map fst ks) ->
  exists ks1 ks2,
    insert_key ks k v = ks1 ++ (k, v) :: ks2 /\
    (ks = ks1 ++ ks2 \/ exists v0, ks = ks1 ++ (k, v0) :: ks2).
Proof.
  intros Hs.
  destruct (sorted_keys_split ks k Hs) as (ks1 & ks2 & -> & H1 & H2).
  destruct ks2 as [|[k2 v2] ks2].
  - exists ks1, []. split; [| now left].
    apply insert_key_fresh; trivial.
  - inversion H2 as [|? ? Hk2 H2']; subst. simpl in Hk2.
    destruct (kle_cases _ _ Hk2) as [<- | Hlt].
    + exists ks1, ks2. split; [| right; now exists v2].
      now apply insert_key_update.
    + exists ks1, ((k2, v2) :: ks2). split; [| now left].
      apply insert_key_fresh; trivial.
      constructor; trivial.
      rewrite map_app in Hs. apply ssorted_app in Hs.
      destruct Hs as (_ & Hs2 & _). simpl in Hs2.
      apply ssorted_cons in Hs2. destruct Hs2 as [_ Hhd].
      apply Forall_forall. intros kv Hin.
      eapply klt_trans; [exact Hlt |]. apply Hhd. now apply in_map.
Qed.

(** [insert_non_full] either adds the pair among the stored pairs or
    overwrites the value of one stored pair with that key; every other pair
    stays where it is. *)
Lemma insert_non_full_stored (key : K) (value : V) (fuel mk : nat) n :
  height n <= fuel ->
  node_ok mk n ->
  length (keys n) < MAX_KEYS ->
  StronglySorted kle (traverse n) ->
  exists l1 l2,
    stored_node (insert_non_full fuel n key value) = l1 ++ (key, value) :: l2 /\
    (stored_node n = l1 ++ l2 \/
     exists v0, stored_node n = l1 ++ (key, v0) :: l2).
Proof.
  revert mk n. induction fuel as [|fuel IH]; intros mk n Hh Hok Hnf Hsorted.
  - rewrite (height_eq n) in Hh. lia.
  - destruct n as [[|] ks cs]; cbn [insert_non_full is_leaf keys children].
    + destruct Hok as [(_ & Hs & Hshape) _].
      cbn [keys children is_leaf] in *. subst cs.
      destruct (insert_key_cases ks key value Hs) as (ks1 & ks2 & E & Hc).
      exists ks1, ks2. split; [exact E | exact Hc].
    + assert (Hhs := split_if_full_height (Node false ks cs) key).
      destruct (split_if_full_spec mk ks cs key Hok Hnf Hsorted)
        as (ks1 & ks2 & cs1 & c & cs2 & Heq & Hlen & Hok' & Htr & H1 & H2 & Hcn
            & Hst).
      rewrite Heq in *. cbn [fst] in Hhs.
      cbn [children keys is_leaf]. rewrite nth_error_app_len, set_child_at.
      rewrite <- Htr in *. rewrite <- Hst.
      assert (Hc : subtree_ok c).
      { destruct Hok' as [_ Hcs]. cbn [children] in Hcs.
        rewrite Forall_app in Hcs. destruct Hcs as [_ Hcs]. now inversion Hcs. }
      assert (Hhc : height c <= fuel).
      { assert (Hlt := height_child
                         (Node false (ks1 ++ ks2) (cs1 ++ c :: cs2)) c
                         (length cs1) (nth_error_app_len _ _ _)).
        lia. }
      rewrite traverse_split in Hsorted by trivial.
      apply ssorted_app in Hsorted. destruct Hsorted as (_ & Hs2 & _).
      apply ssorted_app in Hs2. destruct Hs2 as (Hsc & _).
      apply subtree_ok_node_ok in Hc.
      destruct (IH MIN_KEYS c Hhc Hc Hcn Hsc) as (l1 & l2 & E1 & E2).
      rewrite !stored_split by trivial. rewrite E1.
      exists (stored_loop stored_node false ks1 cs1 ++ l1),
        (l2 ++ stored_after stored_node ks2 cs2).
      split; [now rewrite <- !app_assoc |].
      destruct E2 as [E2 | (v0 & E2)]; rewrite E2.
      * left. now rewrite <- !app_assoc.
      * right. exists v0. now rewrite <- !app_assoc.
Qed.

Lemma insert_stored (t : CompleteBTree K V) (key : K) (value : V) :
  tree_inv t ->
  exists l1 l2,
    stored_pairs (insert t key value) = l1 ++ (key, value) :: l2 /\
    (stored_pairs t = l1 ++ l2 \/
     exists v0, stored_pairs t = l1 ++ (key, v0) :: l2).
Proof.
  intros Ht.
  destruct (insert_root_ready t Ht) as (Hok & Hnf & Hs & Htr & Hst).
  unfold stored_pairs, insert. cbn [root]. rewrite <- Hst.
  eapply insert_non_full_stored; eauto.
Qed.

(** In a tree that satisfies the invariant, [search_node] finds a pair for
    every key the traversal lists, duplicates or not. *)
Lemma search_node_finds_key n :
  (exists mk, node_ok mk n) ->
  StronglySorted kle (traverse n) ->
  forall k : K, In k (traverse n) -> exists v : V, search_node n k = Some v.
Proof.
  induction n as [leaf ks cs IH] using BTreeNode_ind'.
  intros (mk & (_ & Hks & Hshape) & Hcs) Hs k Hin.
  cbn [keys children is_leaf] in *. cbn [search_node].
  destruct (scan_up_spec ks k) as (ks1 & ks2 & -> & Hi & H1 & H2).
  rewrite Hi.
  assert (Hk1 : ~ In k (map fst ks1)).
  { intros Hk. apply in_map_iff in Hk. destruct Hk as (kv & E & Hkv).
    rewrite Forall_forall in H1. specialize (H1 kv Hkv). rewrite E in H1.
    exact (klt_irrefl k H1). }
  assert (Hmiss :
            Forall (fun kv' => klt k (fst kv')) ks2 ->
            exists v,
              (if leaf then None
               else at_child (fun c => search_node c k) None
                             (length ks1) cs) = Some v).
  { intros Hks2.
    assert (Hk2 : ~ In k (map fst ks2)).
    { intros Hk. apply in_map_iff in Hk. destruct Hk as (kv & E & Hkv).
      rewrite Forall_forall in Hks2. specialize (Hks2 kv Hkv).
      rewrite E in Hks2. exact (klt_irrefl k Hks2). }
    destruct leaf.
    - subst cs. cbn in Hin. rewrite map_app in Hin.
      apply in_app_or in Hin. tauto.
    - destruct (split_at (length ks1) cs) as (cs1 & c & cs2 & -> & Hl1);
        [rewrite length_app in Hshape; lia |].
      symmetry in Hl1. rewrite Hl1, at_child_at.
      rewrite traverse_split in Hs, Hin by trivial.
      apply ssorted_app in Hs. destruct Hs as (HsL & Hs2 & _).
      apply ssorted_app in Hs2. destruct Hs2 as (Hsc & HsR & _).
      rewrite Forall_forall in IH.
      rewrite Forall_app in Hcs. destruct Hcs as [_ Hcs].
      inversion Hcs as [|? ? Hc _]; subst.
      apply in_app_or in Hin. destruct Hin as [Hin | Hin].
      + exfalso. apply (klt_irrefl k).
        exact (before_bound_lt traverse k ks1 cs1 Hl1 HsL H1 k Hin).
      + apply in_app_or in Hin. destruct Hin as [Hin | Hin].
        * apply IH; trivial.
          -- apply in_or_app. simpl. auto.
          -- exists MIN_KEYS. now apply subtree_ok_node_ok.
        * exfalso. apply (klt_irrefl k).
          exact (after_bound_lt traverse k ks2 cs2 HsR Hks2 k Hin). }
  destruct ks2 as [|kv ks2'].
  - rewrite app_nil_r.
    rewrite (proj2 (nth_error_None ks1 (length ks1))) by lia.
    apply Hmiss. constructor.
  - rewrite nth_error_app_len.
    destruct (key_eq k (fst kv)) eqn:E; [eauto |].
    apply key_eq_false in E. apply Hmiss.
    assert (Hlt : klt k (fst kv)).
    { destruct (kle_cases _ _ H2) as [E' | Hlt]; [congruence | trivial]. }
    constructor; trivial.
    rewrite map_app in Hks. apply ssorted_app in Hks.
    destruct Hks as (_ & Hks2 & _). simpl in Hks2.
    apply ssorted_cons in Hks2. destruct Hks2 as [_ Hhd].
    apply Forall_forall. intros kv' Hin'.
    eapply klt_trans; [exact Hlt |]. apply Hhd. now apply in_map.
Qed.

Lemma build_snoc (ops : list (K * V)) (k : K) (v : V) :
  build (ops ++ [(k, v)]) = insert (build ops) k v.
Proof. unfold build, insert_all. now rewrite fold_left_app. Qed.

(** The stored pairs of a tree built by inserts are inserted pairs, and
    every inserted key is a stored key. *)
Lemma build_stored_subset (ops : list (K * V)) :
  forall kv, In kv (stored_pairs (build ops)) -> In kv ops.
Proof.
  induction ops as [|[k v] ops IH] using rev_ind; intros kv Hin.
  - destruct Hin.
  - rewrite build_snoc in Hin.
    destruct (insert_stored (build ops) k v (build_inv ops))
      as (l1 & l2 & E & Hc).
    rewrite E in Hin. apply in_or_app.
    apply in_app_or in Hin.
    destruct Hin as [Hin | [<- | Hin]]; [| right; simpl; auto |];
      left; apply IH;
      destruct Hc as [Hc | (v0 & Hc)]; rewrite Hc;
      apply in_or_app; simpl; auto.
Qed.

Lemma build_keys_superset (ops : list (K * V)) :
  forall k, In k (map fst ops) -> In k (get_all_keys (build ops)).
Proof.
  induction ops as [|[k v] ops IH] using rev_ind; intros k' Hin.
  - destruct Hin.
  - rewrite build_snoc. unfold get_all_keys.
    rewrite <- stored_node_keys.
    destruct (insert_stored (build ops) k v (build_inv ops))
      as (l1 & l2 & E & Hc).
    unfold stored_pairs in E. rewrite E.
    rewrite map_app in Hin. apply in_app_or in Hin.
    destruct Hin as [Hin | [<- | []]].
    + apply IH in Hin. unfold get_all_keys in Hin.
      rewrite <- stored_node_keys in Hin.
      unfold stored_pairs in Hc.
      rewrite map_app. cbn [map fst].
      destruct Hc as [Hc | (v0 & Hc)]; rewrite Hc, map_app in Hin;
        cbn [map fst] in Hin; rewrite in_app_iff in *; simpl in *; tauto.
    + rewrite map_app. apply in_or_app. simpl. auto.
Qed.

End BTreeMembership.

Section BTreeBalance.
Context {K V : Type} `{KO : KeyOrder K}.

#[local] Abbreviation BTreeNode := (BTreeNode K V).
Implicit Types (ks : list (K * V)) (cs : list BTreeNode) (c n p : BTreeNode).

Lemma depth_halves (h : nat) c :
  depth_is h c -> subtree_ok c -> length (keys c) = MAX_KEYS ->
  depth_is h (left_half c) /\ depth_is h (right_half c).
Proof.
  intros Hd Hok Hfull.
  inversion Hok as [? (_ & _ & Hshape) _]; subst.
  inversion Hd as [ks | h' ks cs Hne Hcs]; subst;
    unfold left_half, right_half; cbn [keys children is_leaf] in *.
  - split; constructor.
  - rewrite Hfull in Hshape.
    destruct cs as [|c0 [|c1 [|c2 [|c3 [|c4 [|c5 [|? ?]]]]]]];
      try discriminate Hshape.
    repeat match goal with
           | H : Forall _ (_ :: _) |- _ => inversion H; clear H; subst
           end.
    split; constructor; cbn; try discriminate; auto.
Qed.

Lemma split_child_depth (h : nat) p (i : nat) c :
  depth_is h p -> is_leaf p = false ->
  nth_error (children p) i = Some c ->
  subtree_ok c -> length (keys c) = MAX_KEYS ->
  depth_is h (split_child p i).
Proof.
  intros Hd Hleaf Hc Hok Hfull.
  inversion Hd as [ks | h' ks cs Hne Hcs]; subst; [discriminate Hleaf |].
  cbn [children] in Hc.
  destruct (nth_error_split _ _ Hc) as (cs1 & cs2 & -> & <-).
  destruct (nth_error (keys c) MIN_KEYS) as [m|] eqn:Hm.
  - rewrite (split_child_at _ _ _ _ _ _ Hm).
    rewrite Forall_app in Hcs. destruct Hcs as [Hcs1 Hcs2].
    inversion Hcs2 as [|? ? Hdc Hcs2']; subst.
    destruct (depth_halves h' c Hdc Hok Hfull) as [Hl Hr].
    constructor.
    + destruct cs1; discriminate.
    + apply Forall_app. split; trivial.
      apply Forall_cons; trivial. apply Forall_cons; trivial.
  - apply nth_error_None in Hm. rewrite Hfull in Hm.
    unfold MIN_KEYS, MAX_KEYS, ORDER in Hm. simpl in Hm. lia.
Qed.

Lemma split_if_full_depth (h : nat) n (key : K) :
  depth_is h n -> is_leaf n = false ->
  Forall subtree_ok (children n) ->
  depth_is h (fst (split_if_full n key)).
Proof.
  intros Hd Hleaf Hcs. unfold split_if_full.
  destruct (nth_error (children n) _) as [c|] eqn:Hc; [| exact Hd].
  destruct (length (keys c) =? MAX_KEYS) eqn:E; [| exact Hd].
  apply Nat.eqb_eq in E.
  assert (Hs : depth_is h (split_child n
                  (scan_down (length (keys n)) (keys n) key))).
  { eapply split_child_depth; eauto.
    rewrite Forall_forall in Hcs. eapply Hcs, nth_error_In; eauto. }
  destruct (nth_error (keys _) _); [destruct (key_gt _ _) |]; exact Hs.
Qed.

(** [insert_non_full] keeps every leaf at the depth it had. *)
Lemma insert_non_full_depth (key : K) (value : V) (fuel mk h : nat) n :
  height n <= fuel ->
  node_ok mk n ->
  length (keys n) < MAX_KEYS ->
  StronglySorted kle (traverse n) ->
  depth_is h n ->
  depth_is h (insert_non_full fuel n key value).
Proof.
  revert mk h n. induction fuel as [|fuel IH];
    intros mk h n Hh Hok Hnf Hsorted Hd.
  - rewrite (height_eq n) in Hh. lia.
  - destruct n as [[|] ks cs]; cbn [insert_non_full is_leaf keys children].
    + inversion Hd; subst. constructor.
    + assert (Hhs := split_if_full_height (Node false ks cs) key).
      assert (Hd' := split_if_full_depth h (Node false ks cs) key Hd eq_refl
                       (proj2 Hok)).
      destruct (split_if_full_spec mk ks cs key Hok Hnf Hsorted)
        as (ks1 & ks2 & cs1 & c & cs2 & Heq & Hlen & Hok' & Htr & H1 & H2 & Hcn
            & Hst).
      rewrite Heq in *. cbn [fst] in Hhs, Hd'.
      cbn [children keys is_leaf]. rewrite nth_error_app_len, set_child_at.
      rewrite <- Htr in *.
      assert (Hc : subtree_ok c).
      { destruct Hok' as [_ Hcs]. cbn [children] in Hcs.
        rewrite Forall_app in Hcs. destruct Hcs as [_ Hcs]. now inversion Hcs. }
      assert (Hhc : height c <= fuel).
      { assert (Hlt := height_child
                         (Node false (ks1 ++ ks2) (cs1 ++ c :: cs2)) c
                         (length cs1) (nth_error_app_len _ _ _)).
        lia. }
      rewrite traverse_split in Hsorted by trivial.
      apply ssorted_app in Hsorted. destruct Hsorted as (_ & Hs2 & _).
      apply ssorted_app in Hs2. destruct Hs2 as (Hsc & _).
      apply subtree_ok_node_ok in Hc.
      inversion Hd' as [| h' ? ? Hne Hcs]; subst.
      rewrite Forall_app in Hcs. destruct Hcs as [Hcs1 Hcs2].
      inversion Hcs2 as [|? ? Hdc Hcs2']; subst.
      constructor.
      * destruct cs1; discriminate.
      * apply Forall_app. split; trivial. apply Forall_cons; trivial.
        eapply IH; eauto.
Qed.

Lemma insert_depth (t : CompleteBTree K V) (key : K) (value : V) (h : nat) :
  tree_inv t -> depth_is h (root t) ->
  exists h', depth_is h' (root (insert t key value)).
Proof.
  intros Ht Hd.
  destruct (insert_root_ready t Ht) as (Hok & Hnf & Hs & _).
  unfold insert. cbn [root].
  destruct (length (keys (root t)) =? MAX_KEYS) eqn:E; cbn zeta in *.
  - apply Nat.eqb_eq in E. exists (S h).
    eapply insert_non_full_depth; eauto.
    apply split_child_depth with (c := root t); trivial.
    + constructor; [discriminate | now constructor].
    + apply subtree_ok_node_ok.
      destruct Ht as [[((_ & Hmax) & Hks & Hshape) Hcs] _].
      split; [split; [| split] |]; trivial.
      rewrite E, max_keys_val, min_keys_val. lia.
  - exists h. eapply insert_non_full_depth; eauto.
Qed.

Lemma build_depth (ops : list (K * V)) :
  exists h, depth_is h (root (build ops)).
Proof.
  induction ops as [|[k v] ops IH] using rev_ind.
  - exists 1. constructor.
  - destruct IH as (h & Hd). rewrite build_snoc.
    eapply insert_depth; eauto. apply build_inv.
Qed.

Lemma depth_get_height n : forall h, depth_is h n -> get_height_node n = h.
Proof.
  induction n as [leaf ks cs IH] using BTreeNode_ind'.
  intros h Hd. inversion Hd as [| h' ? ? Hne Hcs]; subst; [reflexivity |].
  destruct cs as [|c cs]; [congruence |].
  inversion IH; subst. inversion Hcs; subst.
  cbn. f_equal. auto.
Qed.

Lemma depth_height n : forall h, depth_is h n -> height n = h.
Proof.
  induction n as [leaf ks cs IH] using BTreeNode_ind'.
  intros h Hd. inversion Hd as [| h' ? ? Hne Hcs]; subst; [reflexivity |].
  rewrite height_eq. cbn [children]. f_equal.
  destruct cs as [|c cs]; [congruence |]. clear Hne Hd.
  revert c IH Hcs. induction cs as [|d cs IHcs]; intros c IH Hcs.
  - inversion IH; subst. inversion Hcs; subst.
    cbn. rewrite Nat.max_0_r. auto.
  - inversion IH as [|? ? Hc IH']; subst.
    inversion Hcs as [|? ? Hdc Hcs']; subst.
    rewrite hmax_cons, (IHcs d IH' Hcs'), (Hc h' Hdc). lia.
Qed.

(** A lower bound on the number of pairs under a node all of whose leaves
    are [h] levels down. *)
Lemma stored_loop_length (m : nat) ks cs :
  length cs <= S (length ks) ->
  Forall (fun c => m <= length (stored_node c)) cs ->
  length ks + length cs * m <=
  length (stored_loop stored_node false ks cs).
Proof.
  intros Hlen Hcs. revert ks Hlen.
  induction Hcs as [|c cs Hc _ IH]; intros ks Hlen.
  - cbn. lia.
  - destruct ks as [|kv ks].
    + destruct cs; [| simpl in Hlen; lia].
      change (stored_loop stored_node false [] [c]) with (stored_node c).
      cbn. lia.
    + change (stored_loop stored_node false (kv :: ks) (c :: cs))
        with (stored_node c ++ kv :: stored_loop stored_node false ks cs).
      rewrite length_app. cbn [length].
      specialize (IH ks ltac:(simpl in Hlen; lia)). simpl. lia.
Qed.

Lemma subtree_size (h : nat) n :
  subtree_ok n -> depth_is h n -> 3 ^ h <= length (stored_node n) + 1.
Proof.
  revert h. induction n as [leaf ks cs IH] using BTreeNode_ind'.
  intros h Hok Hd.
  inversion Hok as [? ((Hmin & _) & _ & Hshape) Hcs]; subst.
  cbn [keys children is_leaf] in *. rewrite min_keys_val in Hmin.
  inversion Hd as [| h' ? ? Hne Hdcs]; subst.
  - cbn. lia.
  - cbn [stored_node].
    assert (Hm : Forall (fun c => 3 ^ h' - 1 <= length (stored_node c)) cs).
    { rewrite Forall_forall in *. intros c Hin.
      specialize (IH c Hin h' (Hcs c Hin) (Hdcs c Hin)). lia. }
    assert (Hl := stored_loop_length (3 ^ h' - 1) ks cs ltac:(lia) Hm).
    assert (Hpos : 1 <= 3 ^ h') by (apply Nat.lt_0_succ || (clear; induction h'; simpl; lia)).
    rewrite Nat.pow_succ_r'. nia.
Qed.

End BTreeBalance.

(** * Further theorems about [CompleteBTree] *)

Section TreeProperties.
Context {K V : Type} `{KO : KeyOrder K}.

Lemma traverse_range_inverted (start end_ : K) (n : BTreeNode K V) :
  klt end_ start -> traverse_range start end_ n = [].
Proof.
  intros Hinv. induction n as [leaf ks cs IH] using BTreeNode_ind'.
  cbn [traverse_range].
  assert (Hf : filter (fun kv : K * V =>
                         key_ge (fst kv) start && key_le (fst kv) end_) ks
               = []).
  { induction ks as [|kv ks IHks]; [reflexivity |].
    cbn [filter].
    destruct (key_ge (fst kv) start) eqn:E1;
      destruct (key_le (fst kv) end_) eqn:E2; cbn [andb]; trivial.
    apply key_ge_iff in E1. apply key_le_iff in E2.
    exfalso. eapply klt_not_kle; [exact Hinv |]. eauto using kle_trans. }
  rewrite Hf. destruct leaf; [reflexivity |]. cbn [map app].
  induction IH as [|c cs Hc _ IHcs]; [reflexivity |].
  cbn [flat_map]. now rewrite Hc, IHcs.
Qed.

(** [exists] answers [true] exactly for the keys that were inserted: the
    duplicates an insert can leave never hide a key, and no key appears
    that was not inserted. *)
Lemma build_exists_iff (ops : list (K * V)) (k : K) :
  exists_ (build ops) k = true <-> In k (map fst ops).
Proof.
  assert (Hinv := build_inv ops). destruct Hinv as [Hok Hsorted].
  unfold exists_. split.
  - destruct (search_node (root (build ops)) k) as [v|] eqn:E;
      [| discriminate].
    intros _. apply search_node_stored in E.
    apply build_stored_subset in E.
    change k with (fst (k, v)). now apply in_map.
  - intros Hin. apply build_keys_superset in Hin.
    destruct (search_node_finds_key (root (build ops))
                (ex_intro _ 0 Hok) Hsorted k Hin) as (v & ->).
    reflexivity.
Qed.

(** [search] finds a value for every key that was inserted, the value is
    one that was inserted with that key, and [search] throws (here [None])
    exactly for the keys never inserted. *)
Lemma build_search_sound (ops : list (K * V)) (k : K) :
  match search (build ops) k with
  | Some v => In (k, v) ops
  | None => ~ In k (map fst ops)
  end.
Proof.
  assert (Hinv := build_inv ops). destruct Hinv as [Hok Hsorted].
  unfold search.
  destruct (search_node (root (build ops)) k) as [v|] eqn:E.
  - apply search_node_stored in E. now apply build_stored_subset in E.
  - intros Hin. apply build_keys_superset in Hin.
    destruct (search_node_finds_key (root (build ops))
                (ex_intro _ 0 Hok) Hsorted k Hin) as (v & Hv).
    congruence.
Qed.

(** X5.  One [insert] into a tree built by inserts: the new pair is stored, the
    pairs of every other key are exactly those stored before, the size
    grows by at most one, and the key is found afterwards. *)
Theorem insert_effect (ops : list (K * V)) (k : K) (v : V) :
  let t := build ops in
  let t' := insert t k v in
  In (k, v) (stored_pairs t') /\
  (forall k' v', k' <> k ->
     (In (k', v') (stored_pairs t') <-> In (k', v') (stored_pairs t))) /\
  get_size t <= get_size t' <= S (get_size t) /\
  exists_ t' k = true.
Proof.
  intros t t'. subst t t'.
  assert (Hinv := build_inv ops).
  destruct (insert_stored (build ops) k v Hinv)
    as (l1 & l2 & Hnew & Hold).
  assert (Hsz : forall t : CompleteBTree K V,
             get_size t = length (stored_pairs t)).
  { intros t. unfold get_size, get_all_keys, stored_pairs.
    now rewrite <- stored_node_keys, length_map. }
  split; [| split; [| split]].
  - rewrite Hnew. apply in_or_app. right. now left.
  - intros k' v' Hne. rewrite Hnew.
    assert (Hk : forall v0 : V, (k, v0) = (k', v') -> False)
      by (intros v0 Heq; congruence).
    destruct Hold as [-> | (v0 & ->)]; rewrite !in_app_iff; cbn [In];
      split; intros H; decompose [or] H; eauto; exfalso; eauto.
  - rewrite !Hsz, Hnew.
    destruct Hold as [-> | (v0 & ->)]; rewrite !length_app; cbn [length]; lia.
  - rewrite <- build_snoc. apply build_exists_iff.
    rewrite map_app, in_app_iff. right. now left.
Qed.

(** X7.  Every tree built by inserts is balanced: each leaf is [get_height]
    nodes below the root, so the leftmost path [get_height] walks is as
    long as every other path. *)
Theorem tree_is_balanced (ops : list (K * V)) :
  depth_is (get_height (build ops)) (root (build ops)) /\
  height (root (build ops)) = get_height (build ops).
Proof.
  destruct (build_depth ops) as (h & Hd).
  unfold get_height.
  rewrite (depth_get_height _ _ Hd), (depth_height _ _ Hd). now split.
Qed.

(** X8.  The height is logarithmic in the size: a tree of height [h] holds at
    least [3 ^ (h - 1) - 1] keys. *)
Theorem height_logarithmic (ops : list (K * V)) :
  3 ^ (get_height (build ops) - 1) <= get_size (build ops) + 1.
Proof.
  destruct (build_depth ops) as (h & Hd).
  destruct (build_inv ops) as [Hok _].
  unfold get_height, get_size, get_all_keys.
  rewrite (depth_get_height _ _ Hd).
  rewrite <- stored_node_keys, length_map.
  destruct (root (build ops)) as [leaf ks cs].
  destruct Hok as [(_ & _ & Hshape) Hcs]. cbn [keys children is_leaf] in *.
  inversion Hd as [| h' ? ? Hne Hdcs]; subst.
  - cbn. lia.
  - cbn [stored_node]. replace (S h' - 1) with h' by lia.
    assert (Hm : Forall (fun c => 3 ^ h' - 1 <= length (stored_node c)) cs).
    { rewrite Forall_forall in *. intros c Hin.
      assert (Hc := subtree_size h' c (Hcs c Hin) (Hdcs c Hin)). lia. }
    assert (Hl := stored_loop_length (3 ^ h' - 1) ks cs ltac:(lia) Hm).
    assert (Hpos : 1 <= 3 ^ h') by (clear; induction h'; simpl; lia).
    destruct cs as [|c cs]; [congruence |]. cbn [length] in *. nia.
Qed.

(** X9.  [range_query] with the bounds the wrong way round returns nothing,
    whatever the tree. *)
Theorem range_query_inverted_bounds (t : CompleteBTree K V) (start end_ : K) :
  klt end_ start -> range_query t start end_ = [].
Proof. intros H. unfold range_query. now apply traverse_range_inverted. Qed.

End TreeProperties.

(** * The records on disk *)

Section DiskScalars.

Lemma decode_encode_mod (w : nat) (n : Z) :
  decode_le (encode_le w n) = (n mod 256 ^ Z.of_nat w)%Z.
Proof.
  revert n. induction w as [|w IH]; intros n.
  - simpl. now rewrite Z.mod_1_r.
  - cbn [encode_le decode_le].
    assert (Hm := Z.mod_pos_bound n 256 ltac:(lia)).
    rewrite N_ascii_embedding by lia.
    rewrite Z2N.id by lia. rewrite IH.
    rewrite Nat2Z.inj_succ, Z.pow_succ_r by lia.
    rewrite Z.rem_mul_r by lia. reflexivity.
Qed.

Lemma signed_int (x : Z) :
  Disk.int_ok x ->
  Disk.signed Disk.SIZEOF_INT (decode_le (encode_le Disk.SIZEOF_INT x)) = x.
Proof.
  unfold Disk.int_ok, Disk.signed. intros Hx. rewrite decode_encode_mod.
  change (256 ^ Z.of_nat Disk.SIZEOF_INT)%Z with 4294967296%Z.
  change (2 ^ (8 * Z.of_nat Disk.SIZEOF_INT - 1))%Z with 2147483648%Z.
  change (2 ^ (8 * Z.of_nat Disk.SIZEOF_INT))%Z with 4294967296%Z.
  change (2 ^ 31)%Z with 2147483648%Z in Hx.
  assert (Hd := Z.div_mod x 4294967296 ltac:(lia)).
  assert (Hm := Z.mod_pos_bound x 4294967296 ltac:(lia)).
  destruct (Z.ltb_spec (x mod 4294967296) 2147483648); lia.
Qed.

Lemma signed_time_t (x : Z) :
  Disk.time_t_ok x ->
  Disk.signed Disk.SIZEOF_TIME_T (decode_le (encode_le Disk.SIZEOF_TIME_T x))
  = x.
Proof.
  unfold Disk.time_t_ok, Disk.signed. intros Hx. rewrite decode_encode_mod.
  change (256 ^ Z.of_nat Disk.SIZEOF_TIME_T)%Z with 18446744073709551616%Z.
  change (2 ^ (8 * Z.of_nat Disk.SIZEOF_TIME_T - 1))%Z
    with 9223372036854775808%Z.
  change (2 ^ (8 * Z.of_nat Disk.SIZEOF_TIME_T))%Z
    with 18446744073709551616%Z.
  change (2 ^ 63)%Z with 9223372036854775808%Z in Hx.
  assert (Hd := Z.div_mod x 18446744073709551616 ltac:(lia)).
  assert (Hm := Z.mod_pos_bound x 18446744073709551616 ltac:(lia)).
  destruct (Z.ltb_spec (x mod 18446744073709551616) 9223372036854775808);
    lia.
Qed.

Lemma read_object_exact (width : nat) (bytes prior rest : list ascii) :
  length bytes = width -> length prior = width ->
  Disk.read_object width prior (Disk.opened (bytes ++ rest)) =
  Some (bytes, Disk.opened rest).
Proof.
  intros Hb Hp. unfold Disk.read_object, Disk.opened. subst width.
  rewrite is_read_app. rewrite skipn_all2 by lia. now rewrite app_nil_r.
Qed.

(** What each writer appends. *)
Lemma write_string_bytes (os : ofstream) (s : string) :
  write_string os s = os ++ Disk.bytes_of write_string s.
Proof. apply write_string_app. Qed.

Lemma write_vector_string_bytes (os : ofstream) (vec : list string) :
  write_vector_string os vec = os ++ Disk.bytes_of write_vector_string vec.
Proof.
  unfold Disk.bytes_of, write_vector_string, os_write.
  rewrite !write_strings_app. now rewrite <- app_assoc.
Qed.

Lemma write_int_bytes (os : ofstream) (x : Z) :
  Disk.write_int os x = os ++ Disk.bytes_of Disk.write_int x.
Proof. reflexivity. Qed.

Lemma write_time_t_bytes (os : ofstream) (x : Z) :
  Disk.write_time_t os x = os ++ Disk.bytes_of Disk.write_time_t x.
Proof. reflexivity. Qed.

Lemma write_float_bytes (os : ofstream) (x : Z) :
  Disk.write_float os x = os ++ Disk.bytes_of Disk.write_float x.
Proof. reflexivity. Qed.

Lemma write_bool_bytes (os : ofstream) (b : bool) :
  Disk.write_bool os b = os ++ Disk.bytes_of Disk.write_bool b.
Proof. reflexivity. Qed.

Lemma write_ExerciseType_bytes (os : ofstream) (t : ExerciseType) :
  Disk.write_ExerciseType os t =
  os ++ Disk.bytes_of Disk.write_ExerciseType t.
Proof. reflexivity. Qed.

Lemma write_ExerciseDifficulty_bytes (os : ofstream) (d : ExerciseDifficulty) :
  Disk.write_ExerciseDifficulty os d =
  os ++ Disk.bytes_of Disk.write_ExerciseDifficulty d.
Proof. reflexivity. Qed.

(** What each reader makes of them. *)
Lemma get_string_bytes (s str0 : string) (rest : list ascii) :
  Disk.string_ok s ->
  Disk.get_string str0 (Disk.opened (Disk.bytes_of write_string s ++ rest)) =
  Some (s, Disk.opened rest).
Proof. intros Hs. now apply read_write_string. Qed.

Lemma get_vector_string_bytes (vec vec0 : list string) (rest : list ascii) :
  Disk.strings_ok vec ->
  Disk.get_vector_string vec0
    (Disk.opened (Disk.bytes_of write_vector_string vec ++ rest)) =
  Some (vec, Disk.opened rest).
Proof.
  intros [Hcount Hshort].
  unfold Disk.get_vector_string, Disk.opened, Disk.bytes_of.
  unfold read_vector_string, write_vector_string, os_write. cbn [app].
  rewrite write_strings_app, <- app_assoc, read_size_t_encoded by lia.
  assert (E : (Z.of_nat (length vec) <? 10000)%Z = true)
    by (apply Z.ltb_lt; lia).
  rewrite E, Nat2Z.id.
  apply read_write_strings; trivial. apply length_resize.
Qed.

Lemma read_int_bytes (x x0 : Z) (rest : list ascii) :
  Disk.int_ok x ->
  Disk.read_int x0 (Disk.opened (Disk.bytes_of Disk.write_int x ++ rest)) =
  Some (x, Disk.opened rest).
Proof.
  intros Hx. unfold Disk.read_int, Disk.bind, Disk.bytes_of, Disk.write_int.
  unfold os_write. cbn [app].
  rewrite read_object_exact by apply length_encode_le.
  unfold Disk.ret. now rewrite signed_int.
Qed.

Lemma read_time_t_bytes (x x0 : Z) (rest : list ascii) :
  Disk.time_t_ok x ->
  Disk.read_time_t x0
    (Disk.opened (Disk.bytes_of Disk.write_time_t x ++ rest)) =
  Some (x, Disk.opened rest).
Proof.
  intros Hx.
  unfold Disk.read_time_t, Disk.bind, Disk.bytes_of, Disk.write_time_t.
  unfold os_write. cbn [app].
  rewrite read_object_exact by apply length_encode_le.
  unfold Disk.ret. now rewrite signed_time_t.
Qed.

Lemma read_float_bytes (x x0 : Z) (rest : list ascii) :
  Disk.float_ok x ->
  Disk.read_float x0 (Disk.opened (Disk.bytes_of Disk.write_float x ++ rest))
  = Some (x, Disk.opened rest).
Proof.
  intros Hx.
  unfold Disk.read_float, Disk.bind, Disk.bytes_of, Disk.write_float.
  unfold os_write. cbn [app].
  rewrite read_object_exact by apply length_encode_le.
  unfold Disk.ret. rewrite decode_encode_le; [reflexivity |].
  exact Hx.
Qed.

Lemma read_bool_bytes (b b0 : bool) (rest : list ascii) :
  Disk.read_bool b0 (Disk.opened (Disk.bytes_of Disk.write_bool b ++ rest)) =
  Some (b, Disk.opened rest).
Proof.
  unfold Disk.read_bool, Disk.bind, Disk.bytes_of, Disk.write_bool.
  unfold os_write. cbn [app].
  rewrite read_object_exact by apply length_encode_le.
  destruct b; reflexivity.
Qed.

Lemma read_ExerciseType_bytes (t t0 : ExerciseType) (rest : list ascii) :
  Disk.read_ExerciseType t0
    (Disk.opened (Disk.bytes_of Disk.write_ExerciseType t ++ rest)) =
  Some (t, Disk.opened rest).
Proof.
  unfold Disk.read_ExerciseType, Disk.bind.
  change (Disk.bytes_of Disk.write_ExerciseType t)
    with (Disk.bytes_of Disk.write_int (Disk.ExerciseType_to_int t)).
  rewrite read_int_bytes by (destruct t; unfold Disk.int_ok; simpl; lia).
  destruct t; reflexivity.
Qed.

Lemma read_ExerciseDifficulty_bytes (d d0 : ExerciseDifficulty)
    (rest : list ascii) :
  Disk.read_ExerciseDifficulty d0
    (Disk.opened (Disk.bytes_of Disk.write_ExerciseDifficulty d ++ rest)) =
  Some (d, Disk.opened rest).
Proof.
  unfold Disk.read_ExerciseDifficulty, Disk.bind.
  change (Disk.bytes_of Disk.write_ExerciseDifficulty d)
    with (Disk.bytes_of Disk.write_int (Disk.ExerciseDifficulty_to_int d)).
  rewrite read_int_bytes by (destruct d; unfold Disk.int_ok; simpl; lia).
  destruct d; reflexivity.
Qed.

End DiskScalars.

Ltac to_bytes_with more :=
  cbv zeta;
  rewrite ?write_string_bytes, ?write_vector_string_bytes, ?write_int_bytes,
    ?write_time_t_bytes, ?write_float_bytes, ?write_bool_bytes,
    ?write_ExerciseType_bytes, ?write_ExerciseDifficulty_bytes;
  more;
  cbn [app]; rewrite <- ?app_assoc.

Ltac to_bytes := to_bytes_with idtac.

Ltac read_step_with more :=
  first [ rewrite get_string_bytes by assumption
        | rewrite get_vector_string_bytes by assumption
        | rewrite read_int_bytes by assumption
        | rewrite read_time_t_bytes by assumption
        | rewrite read_float_bytes by assumption
        | rewrite read_bool_bytes
        | rewrite read_ExerciseType_bytes
        | rewrite read_ExerciseDifficulty_bytes
        | more ];
  cbv beta iota.

Ltac read_back := unfold Disk.bind; repeat read_step_with fail; unfold Disk.ret.

Section DiskRecords.

Lemma Exercise_serialize_bytes (os : ofstream) (x : Exercise) :
  Disk.Exercise_serialize os x = os ++ Disk.bytes_of Disk.Exercise_serialize x.
Proof. unfold Disk.bytes_of, Disk.Exercise_serialize. to_bytes. reflexivity. Qed.

Lemma Exercise_deserialize_bytes (x x0 : Exercise) (rest : list ascii) :
  Disk.Exercise_ok x ->
  Disk.Exercise_deserialize x0
    (Disk.opened (Disk.bytes_of Disk.Exercise_serialize x ++ rest)) =
  Some (x, Disk.opened rest).
Proof.
  intros Hok. unfold Disk.Exercise_ok in Hok. decompose [and] Hok. clear Hok.
  unfold Disk.bytes_of, Disk.Exercise_serialize. to_bytes.
  unfold Disk.Exercise_deserialize. read_back. now destruct x.
Qed.

Lemma User_serialize_bytes (os : ofstream) (x : User) :
  Disk.User_serialize os x = os ++ Disk.bytes_of Disk.User_serialize x.
Proof. unfold Disk.bytes_of, Disk.User_serialize. to_bytes. reflexivity. Qed.

Lemma User_deserialize_bytes (x x0 : User) (rest : list ascii) :
  Disk.User_ok x ->
  Disk.User_deserialize x0
    (Disk.opened (Disk.bytes_of Disk.User_serialize x ++ rest)) =
  Some (x, Disk.opened rest).
Proof.
  intros Hok. unfold Disk.User_ok in Hok. decompose [and] Hok. clear Hok.
  unfold Disk.bytes_of, Disk.User_serialize. to_bytes.
  unfold Disk.User_deserialize. read_back. now destruct x.
Qed.

Lemma Quest_serialize_bytes (os : ofstream) (x : Quest) :
  Disk.Quest_serialize os x = os ++ Disk.bytes_of Disk.Quest_serialize x.
Proof. unfold Disk.bytes_of, Disk.Quest_serialize. to_bytes. reflexivity. Qed.

Lemma Quest_deserialize_bytes (x x0 : Quest) (rest : list ascii) :
  Disk.Quest_ok x ->
  Disk.Quest_deserialize x0
    (Disk.opened (Disk.bytes_of Disk.Quest_serialize x ++ rest)) =
  Some (x, Disk.opened rest).
Proof.
  intros Hok. unfold Disk.Quest_ok in Hok. decompose [and] Hok. clear Hok.
  unfold Disk.bytes_of, Disk.Quest_serialize. to_bytes.
  unfold Disk.Quest_deserialize. read_back. now destruct x.
Qed.

Lemma WorkoutSession_serialize_bytes (os : ofstream) (x : WorkoutSession) :
  Disk.WorkoutSession_serialize os x =
  os ++ Disk.bytes_of Disk.WorkoutSession_serialize x.
Proof.
  unfold Disk.bytes_of, Disk.WorkoutSession_serialize. to_bytes. reflexivity.
Qed.

Lemma WorkoutSession_deserialize_bytes (x x0 : WorkoutSession)
    (rest : list ascii) :
  Disk.WorkoutSession_ok x ->
  Disk.WorkoutSession_deserialize x0
    (Disk.opened (Disk.bytes_of Disk.WorkoutSession_serialize x ++ rest)) =
  Some (x, Disk.opened rest).
Proof.
  intros Hok. unfold Disk.WorkoutSession_ok in Hok. decompose [and] Hok.
  clear Hok.
  unfold Disk.bytes_of, Disk.WorkoutSession_serialize. to_bytes.
  unfold Disk.WorkoutSession_deserialize. read_back. now destruct x.
Qed.

Lemma HashTableEntry_serialize_bytes (os : ofstream) (x : HashTableEntry) :
  Disk.HashTableEntry_serialize os x =
  os ++ Disk.bytes_of Disk.HashTableEntry_serialize x.
Proof.
  unfold Disk.bytes_of, Disk.HashTableEntry_serialize. to_bytes. reflexivity.
Qed.

Lemma HashTableEntry_deserialize_bytes (x x0 : HashTableEntry)
    (rest : list ascii) :
  Disk.HashTableEntry_ok x ->
  Disk.HashTableEntry_deserialize x0
    (Disk.opened (Disk.bytes_of Disk.HashTableEntry_serialize x ++ rest)) =
  Some (x, Disk.opened rest).
Proof.
  intros Hok. unfold Disk.HashTableEntry_ok in Hok. decompose [and] Hok.
  clear Hok.
  unfold Disk.bytes_of, Disk.HashTableEntry_serialize. to_bytes.
  unfold Disk.HashTableEntry_deserialize. read_back. now destruct x.
Qed.

Lemma GraphEdge_serialize_bytes (os : ofstream) (x : GraphEdge) :
  Disk.GraphEdge_serialize os x =
  os ++ Disk.bytes_of Disk.GraphEdge_serialize x.
Proof.
  unfold Disk.bytes_of, Disk.GraphEdge_serialize. to_bytes. reflexivity.
Qed.

Lemma GraphEdge_deserialize_bytes (x x0 : GraphEdge) (rest : list ascii) :
  Disk.GraphEdge_ok x ->
  Disk.GraphEdge_deserialize x0
    (Disk.opened (Disk.bytes_of Disk.GraphEdge_serialize x ++ rest)) =
  Some (x, Disk.opened rest).
Proof.
  intros Hok. unfold Disk.GraphEdge_ok in Hok. decompose [and] Hok. clear Hok.
  unfold Disk.bytes_of, Disk.GraphEdge_serialize. to_bytes.
  unfold Disk.GraphEdge_deserialize. read_back. now destruct x.
Qed.

Lemma PriorityQueueEntry_serialize_bytes (os : ofstream)
    (x : PriorityQueueEntry) :
  Disk.PriorityQueueEntry_serialize os x =
  os ++ Disk.bytes_of Disk.PriorityQueueEntry_serialize x.
Proof.
  unfold Disk.bytes_of, Disk.PriorityQueueEntry_serialize.
  to_bytes_with ltac:(rewrite ?Quest_serialize_bytes). reflexivity.
Qed.

Lemma PriorityQueueEntry_deserialize_bytes (x x0 : PriorityQueueEntry)
    (rest : list ascii) :
  Disk.PriorityQueueEntry_ok x ->
  Disk.PriorityQueueEntry_deserialize x0
    (Disk.opened (Disk.bytes_of Disk.PriorityQueueEntry_serialize x ++ rest))
  = Some (x, Disk.opened rest).
Proof.
  intros Hok. unfold Disk.PriorityQueueEntry_ok in Hok. decompose [and] Hok.
  clear Hok.
  unfold Disk.bytes_of, Disk.PriorityQueueEntry_serialize.
  to_bytes_with ltac:(rewrite ?Quest_serialize_bytes).
  unfold Disk.PriorityQueueEntry_deserialize, Disk.bind.
  rewrite Quest_deserialize_bytes by assumption. cbv beta iota.
  repeat read_step_with fail. unfold Disk.ret. now destruct x.
Qed.

(** The pair functions of the four trees. *)
Lemma save_exercise_pair_bytes (os : ofstream) (k : string) (v : Exercise) :
  Disk.save_exercise_pair os k v = os ++ Disk.save_exercise_pair [] k v.
Proof.
  unfold Disk.save_exercise_pair.
  to_bytes_with ltac:(rewrite ?Exercise_serialize_bytes). reflexivity.
Qed.

Lemma load_exercise_pair_bytes (k k0 : string) (v v0 : Exercise)
    (rest : list ascii) :
  Disk.string_ok k -> Disk.Exercise_ok v ->
  Disk.load_exercise_pair k0 v0
    (Disk.opened (Disk.save_exercise_pair [] k v ++ rest)) =
  Some ((k, v), Disk.opened rest).
Proof.
  intros Hk Hv. unfold Disk.save_exercise_pair.
  to_bytes_with ltac:(rewrite ?Exercise_serialize_bytes).
  unfold Disk.load_exercise_pair, Disk.bind.
  rewrite get_string_bytes by assumption. cbv beta iota.
  rewrite Exercise_deserialize_bytes by assumption. reflexivity.
Qed.

Lemma save_user_pair_bytes (os : ofstream) (k : string) (v : User) :
  Disk.save_user_pair os k v = os ++ Disk.save_user_pair [] k v.
Proof.
  unfold Disk.save_user_pair.
  to_bytes_with ltac:(rewrite ?User_serialize_bytes). reflexivity.
Qed.

Lemma load_user_pair_bytes (k k0 : string) (v v0 : User) (rest : list ascii) :
  Disk.string_ok k -> Disk.User_ok v ->
  Disk.load_user_pair k0 v0
    (Disk.opened (Disk.save_user_pair [] k v ++ rest)) =
  Some ((k, v), Disk.opened rest).
Proof.
  intros Hk Hv. unfold Disk.save_user_pair.
  to_bytes_with ltac:(rewrite ?User_serialize_bytes).
  unfold Disk.load_user_pair, Disk.bind.
  rewrite get_string_bytes by assumption. cbv beta iota.
  rewrite User_deserialize_bytes by assumption. reflexivity.
Qed.

Lemma save_workout_pair_bytes (os : ofstream) (k : string)
    (v : WorkoutSession) :
  Disk.save_workout_pair os k v = os ++ Disk.save_workout_pair [] k v.
Proof.
  unfold Disk.save_workout_pair.
  to_bytes_with ltac:(rewrite ?WorkoutSession_serialize_bytes). reflexivity.
Qed.

Lemma load_workout_pair_bytes (k k0 : string) (v v0 : WorkoutSession)
    (rest : list ascii) :
  Disk.string_ok k -> Disk.WorkoutSession_ok v ->
  Disk.load_workout_pair k0 v0
    (Disk.opened (Disk.save_workout_pair [] k v ++ rest)) =
  Some ((k, v), Disk.opened rest).
Proof.
  intros Hk Hv. unfold Disk.save_workout_pair.
  to_bytes_with ltac:(rewrite ?WorkoutSession_serialize_bytes).
  unfold Disk.load_workout_pair, Disk.bind.
  rewrite get_string_bytes by assumption. cbv beta iota.
  rewrite WorkoutSession_deserialize_bytes by assumption. reflexivity.
Qed.

Lemma save_quest_pair_bytes (os : ofstream) (k : string) (v : Quest) :
  Disk.save_quest_pair os k v = os ++ Disk.save_quest_pair [] k v.
Proof.
  unfold Disk.save_quest_pair.
  to_bytes_with ltac:(rewrite ?Quest_serialize_bytes). reflexivity.
Qed.

Lemma load_quest_pair_bytes (k k0 : string) (v v0 : Quest)
    (rest : list ascii) :
  Disk.string_ok k -> Disk.Quest_ok v ->
  Disk.load_quest_pair k0 v0
    (Disk.opened (Disk.save_quest_pair [] k v ++ rest)) =
  Some ((k, v), Disk.opened rest).
Proof.
  intros Hk Hv. unfold Disk.save_quest_pair.
  to_bytes_with ltac:(rewrite ?Quest_serialize_bytes).
  unfold Disk.load_quest_pair, Disk.bind.
  rewrite get_string_bytes by assumption. cbv beta iota.
  rewrite Quest_deserialize_bytes by assumption. reflexivity.
Qed.

End DiskRecords.

(** ** The tree files *)

Section TreeFileFacts.
Context {V : Type}.
Variable save_func : ofstream -> string -> V -> ofstream.
Variable load_func : string -> V -> Disk.reader (string * V).
Variable fresh : nat -> string * V.
Variable ok : string -> V -> Prop.
Hypothesis save_appends :
  forall os k v, save_func os k v = os ++ save_func [] k v.
Hypothesis load_inverts :
  forall k v k0 v0 rest,
    ok k v ->
    load_func k0 v0 (Disk.opened (save_func [] k v ++ rest)) =
    Some ((k, v), Disk.opened rest).

Lemma save_loop_bytes (t : CompleteBTree string V) (keys : list string)
    (file : ofstream) :
  fold_left (fun file key =>
               match search t key with
               | Some value => save_func file key value
               | None => file
               end) keys file =
  file ++ concat (map (fun kv => save_func [] (fst kv) (snd kv))
                      (flat_map (fun key => match search t key with
                                            | Some value => [(key, value)]
                                            | None => []
                                            end) keys)).
Proof.
  revert file. induction keys as [|key keys IH]; intros file; cbn [fold_left].
  - cbn. now rewrite app_nil_r.
  - rewrite IH. cbn [flat_map].
    destruct (search t key) as [value|]; cbn [app map concat fst snd].
    + rewrite (save_appends file). now rewrite <- app_assoc.
    + reflexivity.
Qed.

Lemma save_to_file_bytes (t : CompleteBTree string V) :
  Disk.save_to_file save_func t =
  encode_le SIZEOF_SIZE_T (Z.of_nat (get_size t)) ++
  concat (map (fun kv => save_func [] (fst kv) (snd kv)) (save_to_file t)).
Proof.
  unfold Disk.save_to_file, save_to_file. cbv zeta.
  now rewrite save_loop_bytes.
Qed.

Lemma load_loop_bytes (pairs : list (string * V)) :
  forall (i : nat) (t0 : CompleteBTree string V) (rest : list ascii),
    Forall (fun kv => ok (fst kv) (snd kv)) pairs ->
    Disk.load_loop load_func fresh (length pairs) i
      (Disk.opened
         (concat (map (fun kv => save_func [] (fst kv) (snd kv)) pairs)
          ++ rest)) t0 =
    Some (insert_all t0 pairs).
Proof.
  induction pairs as [|[k v] pairs IH]; intros i t0 rest Hok.
  - reflexivity.
  - inversion Hok as [|? ? Hkv Hok']; subst.
    cbn [length Disk.load_loop map concat fst snd].
    rewrite <- app_assoc, load_inverts by exact Hkv.
    now rewrite IH.
Qed.

End TreeFileFacts.

Section SavedPairs.
Context {V : Type}.

Lemma saved_pairs_found (t : CompleteBTree string V) (k : string) (v : V) :
  In (k, v) (save_to_file t) <->
  In k (get_all_keys t) /\ search t k = Some v.
Proof.
  unfold save_to_file. rewrite in_flat_map. split.
  - intros (key & Hin & Hkv).
    destruct (search t key) as [value|] eqn:E; [| contradiction].
    destruct Hkv as [Heq | []]. inversion Heq; subst. now split.
  - intros [Hin Hs]. exists k. split; trivial. rewrite Hs. now left.
Qed.

Lemma saved_pairs_length (ops : list (string * V)) :
  length (save_to_file (build ops)) = get_size (build ops).
Proof.
  destruct (build_inv ops) as [Hok Hsorted].
  assert (Hall : forall k, In k (get_all_keys (build ops)) ->
                           exists v, search (build ops) k = Some v).
  { intros k Hin.
    exact (search_node_finds_key (root (build ops)) (ex_intro _ 0 Hok)
             Hsorted k Hin). }
  unfold save_to_file, get_size. revert Hall.
  generalize (get_all_keys (build ops)) as keys0.
  induction keys0 as [|k keys0 IH]; intros Hall; [reflexivity |].
  cbn [flat_map]. destruct (Hall k (or_introl eq_refl)) as (v & ->).
  cbn [app length]. f_equal. apply IH. intros k' Hin. apply Hall. now right.
Qed.

Lemma saved_pairs_inserted (ops : list (string * V)) (kv : string * V) :
  In kv (save_to_file (build ops)) -> In kv ops.
Proof.
  destruct kv as [k v]. intros Hin. apply saved_pairs_found in Hin.
  destruct Hin as [_ Hs]. apply search_node_stored in Hs.
  now apply build_stored_subset in Hs.
Qed.

(** The tree rebuilt from what [save_to_file] writes answers every lookup
    as the tree that was saved. *)
Lemma search_saved (ops : list (string * V)) (k : string) :
  search (build (save_to_file (build ops))) k = search (build ops) k.
Proof.
  assert (Hnew := build_search_sound
                    (save_to_file (build ops)) k).
  destruct (build_inv ops) as [Hok Hsorted].
  destruct (search (build (save_to_file (build ops))) k) as [v|] eqn:E.
  - apply saved_pairs_found in Hnew. now destruct Hnew as [_ ->].
  - destruct (search (build ops) k) as [v|] eqn:E'; trivial.
    exfalso. apply Hnew.
    change k with (fst (k, v)). apply in_map.
    apply saved_pairs_found. split; trivial.
    apply search_node_stored in E'.
    unfold get_all_keys. rewrite <- stored_node_keys.
    change k with (fst (k, v)). now apply in_map.
Qed.

End SavedPairs.

Section TreeFileRoundTrip.
Context {V : Type}.
Variable save_func : ofstream -> string -> V -> ofstream.
Variable load_func : string -> V -> Disk.reader (string * V).
Variable fresh : nat -> string * V.
Variable ok : string -> V -> Prop.
Hypothesis save_appends :
  forall os k v, save_func os k v = os ++ save_func [] k v.
Hypothesis load_inverts :
  forall k v k0 v0 rest,
    ok k v ->
    load_func k0 v0 (Disk.opened (save_func [] k v ++ rest)) =
    Some ((k, v), Disk.opened rest).

Lemma load_from_file_bytes (ops : list (string * V))
    (t0 : CompleteBTree string V) :
  (Z.of_nat (get_size (build ops)) <= 1000000)%Z ->
  (forall k v, In (k, v) ops -> ok k v) ->
  Disk.load_from_file load_func fresh
    (Some (Disk.save_to_file save_func (build ops))) t0 =
  Some (insert_all t0 (save_to_file (build ops))).
Proof.
  intros Hsize Hok. unfold Disk.load_from_file.
  rewrite (save_to_file_bytes save_func save_appends).
  unfold Disk.opened. rewrite read_size_t_encoded by lia.
  assert (E : (1000000 <? Z.of_nat (get_size (build ops)))%Z = false)
    by (apply Z.ltb_ge; lia).
  rewrite E, Nat2Z.id, <- saved_pairs_length.
  rewrite <- (app_nil_r (concat _)).
  apply (load_loop_bytes save_func load_func fresh ok load_inverts).
  apply Forall_forall. intros [k v] Hin. apply Hok.
  now apply saved_pairs_inserted.
Qed.

End TreeFileRoundTrip.

(** ** The vector files *)

Section EntriesFacts.
Context {A : Type}.
Variable serialize : ofstream -> A -> ofstream.
Variable deserialize : A -> Disk.reader A.
Variable default : A.
Variable ok : A -> Prop.
Hypothesis serialize_appends :
  forall os x, serialize os x = os ++ serialize [] x.
Hypothesis deserialize_inverts :
  forall x x0 rest,
    ok x ->
    deserialize x0 (Disk.opened (serialize [] x ++ rest)) =
    Some (x, Disk.opened rest).

Lemma serialize_loop_bytes (entries : list A) (file : ofstream) :
  fold_left serialize entries file =
  file ++ concat (map (serialize []) entries).
Proof.
  revert file. induction entries as [|x entries IH]; intros file; cbn.
  - now rewrite app_nil_r.
  - rewrite IH, (serialize_appends file). now rewrite <- app_assoc.
Qed.

Lemma deserialize_each_bytes (entries : list A) :
  forall (prior : list A) (rest : list ascii),
    length prior = length entries ->
    Forall ok entries ->
    Disk.deserialize_each deserialize prior
      (Disk.opened (concat (map (serialize []) entries) ++ rest)) =
    Some (entries, Disk.opened rest).
Proof.
  induction entries as [|x entries IH]; intros prior rest Hlen Hok.
  - destruct prior; [reflexivity | discriminate].
  - destruct prior as [|x0 prior]; [discriminate |].
    inversion Hok as [|? ? Hx Hok']; subst.
    cbn [Disk.deserialize_each map concat]. unfold Disk.bind.
    rewrite <- app_assoc, deserialize_inverts by exact Hx.
    rewrite IH by (trivial; simpl in Hlen; lia). reflexivity.
Qed.

Lemma load_entries_bytes (entries current : list A) :
  (Z.of_nat (length entries) < 100000)%Z ->
  Forall ok entries ->
  Disk.load_entries deserialize default
    (Some (Disk.save_entries serialize entries)) current =
  Some entries.
Proof.
  intros Hcount Hok. unfold Disk.load_entries, Disk.save_entries. cbv zeta.
  rewrite serialize_loop_bytes. unfold os_write, Disk.opened. cbn [app].
  rewrite read_size_t_encoded by lia.
  assert (E : (Z.of_nat (length entries) <? 100000)%Z = true)
    by (apply Z.ltb_lt; lia).
  rewrite E, Nat2Z.id.
  rewrite <- (app_nil_r (concat _)).
  change {| unread := concat (map (serialize []) entries) ++ [];
            good := true |}
    with (Disk.opened (concat (map (serialize []) entries) ++ [])).
  rewrite deserialize_each_bytes; trivial. apply length_resize.
Qed.

Lemma load_entries_large (entries current : list A) :
  (100000 <= Z.of_nat (length entries) < 2 ^ 64)%Z ->
  Disk.load_entries deserialize default
    (Some (Disk.save_entries serialize entries)) current =
  Some current.
Proof.
  intros Hcount. unfold Disk.load_entries, Disk.save_entries. cbv zeta.
  rewrite serialize_loop_bytes. unfold os_write, Disk.opened. cbn [app].
  rewrite read_size_t_encoded by lia.
  assert (E : (Z.of_nat (length entries) <? 100000)%Z = false)
    by (apply Z.ltb_ge; lia).
  now rewrite E.
Qed.

End EntriesFacts.

(** * The orchestrator: what every reachable state satisfies *)

Ltac db_simpl :=
  cbn [exercise_btree user_btree workout_btree quest_btree email_index
       graph_edges pq_entries files save_all_data set_files
       set_exercise_btree set_user_btree set_workout_btree set_quest_btree
       set_email_index set_graph_edges set_pq_entries empty_database
       fst snd] in *.

Section BuiltTrees.
Context {V : Type}.

Lemma built_empty : built (@empty_tree string V).
Proof. now exists []. Qed.

Lemma built_insert (t : CompleteBTree string V) (k : string) (v : V) :
  built t -> built (insert t k v).
Proof. intros (ops & ->). exists (ops ++ [(k, v)]). now rewrite build_snoc. Qed.

Lemma exists_insert_same (t : CompleteBTree string V) (k : string) (v : V) :
  built t -> exists_ (insert t k v) k = true.
Proof.
  intros (ops & ->). rewrite <- build_snoc. apply build_exists_iff.
  rewrite map_app, in_app_iff. right. now left.
Qed.

Lemma exists_insert_mono (t : CompleteBTree string V) (k k' : string) (v : V) :
  built t -> exists_ t k' = true -> exists_ (insert t k v) k' = true.
Proof.
  intros (ops & ->) H. rewrite <- build_snoc. apply build_exists_iff.
  apply build_exists_iff in H. rewrite map_app, in_app_iff. now left.
Qed.

Lemma values_of_keys_length (t : CompleteBTree string V) :
  built t -> length (values_of_keys t) = get_size t.
Proof.
  intros (ops & ->). rewrite <- saved_pairs_length.
  unfold values_of_keys, save_to_file.
  induction (get_all_keys (build ops)) as [|k keys0 IH]; [reflexivity |].
  cbn [flat_map]. rewrite !length_app, IH.
  now destruct (search (build ops) k).
Qed.

End BuiltTrees.

Section ReachableFacts.
Variable std_hash : string -> Z.
Context {Sort : StdSort}.

Lemma descending_removelast (l : list PriorityQueueEntry) :
  descending l -> descending (removelast l).
Proof.
  intros H. destruct l as [|x l] using rev_ind; [exact H |].
  rewrite removelast_last. apply ssorted_app in H. tauto.
Qed.

Lemma Forall_removelast {A : Type} (P : A -> Prop) (l : list A) :
  Forall P l -> Forall P (removelast l).
Proof.
  intros H. destruct l as [|x l] using rev_ind; [exact H |].
  rewrite removelast_last. apply Forall_app in H. tauto.
Qed.

Lemma consistent_sample (now1 now2 now3 now4 now5 : Z) :
  consistent (initialize_sample_data now1 now2 now3 now4 now5 empty_database).
Proof.
  unfold consistent, initialize_sample_data. cbv zeta. db_simpl.
  repeat match goal with |- _ /\ _ => split end;
    try (repeat apply built_insert; apply built_empty).
  - repeat constructor. intros [].
  - repeat constructor.
  - repeat constructor.
  - repeat constructor.
Qed.

Lemma consistent_create_user (username email password : string)
    (now_created now_login now_id rnd : Z) (db : PersistentFitnessDatabase) :
  consistent db ->
  consistent (snd (create_user std_hash username email password
                     now_created now_login now_id rnd db)).
Proof.
  intros Hc. unfold create_user.
  destruct (existsb _ (email_index db)) eqn:E; [exact Hc |].
  destruct Hc as (He & Hu & Hw & Hq & Hnd & Hidx & Hd & Hp).
  cbv zeta. unfold consistent. db_simpl.
  repeat match goal with |- _ /\ _ => split end; trivial.
  - now apply built_insert.
  - rewrite map_app. cbn [map hte_key].
    apply NoDup_app; [trivial | repeat constructor; intros [] |].
    intros x Hx [<- | []].
    apply in_map_iff in Hx. destruct Hx as (e & Hk & Hin).
    assert (Ht : existsb (fun entry => String.eqb (hte_key entry) (hte_key e))
                   (email_index db) = true).
    { apply existsb_exists. exists e. split; trivial. apply String.eqb_refl. }
    rewrite Hk in *. congruence.
  - apply Forall_app. split.
    + eapply Forall_impl; [| exact Hidx]. intros e. cbv beta.
      now apply exists_insert_mono.
    + repeat constructor. cbn [hte_value]. now apply exists_insert_same.
Qed.

Lemma consistent_update_user (user : User) (db : PersistentFitnessDatabase) :
  consistent db -> consistent (update_user user db).
Proof.
  intros (He & Hu & Hw & Hq & Hnd & Hidx & Hd & Hp).
  unfold update_user, consistent. db_simpl.
  repeat match goal with |- _ /\ _ => split end; trivial.
  - now apply built_insert.
  - eapply Forall_impl; [| exact Hidx]. intros e. cbv beta.
    now apply exists_insert_mono.
Qed.

Lemma consistent_add_exercise (exercise : Exercise)
    (db : PersistentFitnessDatabase) :
  consistent db -> consistent (add_exercise exercise db).
Proof.
  intros (He & Hu & Hw & Hq & Hnd & Hidx & Hd & Hp).
  unfold add_exercise, consistent. cbv zeta. db_simpl.
  repeat match goal with |- _ /\ _ => split end; trivial.
  now apply built_insert.
Qed.

Lemma consistent_start_workout (user_id : string) (now_start now_id rnd : Z)
    (db : PersistentFitnessDatabase) :
  consistent db ->
  consistent (snd (start_workout user_id now_start now_id rnd db)).
Proof.
  intros (He & Hu & Hw & Hq & Hnd & Hidx & Hd & Hp).
  unfold start_workout, consistent. cbv zeta. db_simpl.
  repeat match goal with |- _ /\ _ => split end; trivial.
  now apply built_insert.
Qed.

Lemma consistent_complete_workout (workout_id : string) (now : Z)
    (db : PersistentFitnessDatabase) :
  consistent db -> consistent (snd (complete_workout workout_id now db)).
Proof.
  intros Hc. unfold complete_workout.
  destruct (search (workout_btree db) workout_id) as [session|];
    [| exact Hc].
  destruct Hc as (He & Hu & Hw & Hq & Hnd & Hidx & Hd & Hp).
  unfold consistent. cbv zeta. db_simpl.
  repeat match goal with |- _ /\ _ => split end; trivial.
  now apply built_insert.
Qed.

Lemma consistent_add_quest (quest : Quest) (now : Z)
    (db : PersistentFitnessDatabase) :
  consistent db -> consistent (add_quest quest now db).
Proof.
  intros (He & Hu & Hw & Hq & Hnd & Hidx & Hd & Hp).
  unfold add_quest, consistent. cbv zeta. db_simpl.
  repeat match goal with |- _ /\ _ => split end; trivial.
  - now apply built_insert.
  - apply std_sort_descending.
  - eapply Permutation_Forall; [apply std_sort_perm |].
    apply Forall_app. split; trivial. now repeat constructor.
Qed.

Lemma consistent_get_next_quest (db : PersistentFitnessDatabase) :
  consistent db -> consistent (snd (get_next_quest db)).
Proof.
  intros Hc. unfold get_next_quest.
  destruct (rev (pq_entries db)) as [|back ?]; [exact Hc |].
  destruct Hc as (He & Hu & Hw & Hq & Hnd & Hidx & Hd & Hp).
  unfold consistent. cbv zeta. db_simpl.
  repeat match goal with |- _ /\ _ => split end; trivial.
  - now apply descending_removelast.
  - now apply Forall_removelast.
Qed.

Lemma clear_all_data_sample (now1 now2 now3 now4 now5 : Z)
    (db : PersistentFitnessDatabase) :
  clear_all_data now1 now2 now3 now4 now5 db =
  initialize_sample_data now1 now2 now3 now4 now5 empty_database.
Proof. reflexivity. Qed.

Lemma reachable_consistent (db : PersistentFitnessDatabase) :
  reachable std_hash db -> consistent db.
Proof.
  induction 1.
  - apply consistent_sample.
  - now apply consistent_create_user.
  - now apply consistent_update_user.
  - now apply consistent_add_exercise.
  - now apply consistent_start_workout.
  - now apply consistent_complete_workout.
  - now apply consistent_add_quest.
  - now apply consistent_get_next_quest.
  - rewrite clear_all_data_sample. apply consistent_sample.
Qed.

End ReachableFacts.

(** * Further theorems *)

(** ** The B-tree *)

Section TreeTheorems.
Context {K V : Type} `{KO : KeyOrder K}.

(** X3.  [exists] answers [true] exactly for the keys that were inserted: a
    duplicate that an insert leaves never hides a key, and no key appears
    that was not inserted. *)
Theorem exists_iff_inserted (ops : list (K * V)) (k : K) :
  exists_ (build ops) k = true <-> In k (map fst ops).
Proof. apply build_exists_iff. Qed.

(** X4.  [search] finds a value for every key that was inserted, the value is
    one that was inserted under that key, and [search] throws (here [None])
    exactly for the keys that were never inserted. *)
Theorem search_returns_an_inserted_value (ops : list (K * V)) (k : K) :
  match search (build ops) k with
  | Some v => In (k, v) ops
  | None => ~ In k (map fst ops)
  end.
Proof. apply build_search_sound. Qed.

End TreeTheorems.

Lemma distinct_keys_build_witness :
  StronglySorted klt (get_all_keys (build six_inserts)) /\
  Permutation (stored_pairs (build six_inserts)) six_inserts /\
  get_size (build six_inserts) = length six_inserts /\
  forall k v, In (k, v) six_inserts -> search (build six_inserts) k = Some v.
Proof.
  apply (distinct_keys_build six_inserts).
  repeat constructor; simpl; intuition discriminate.
Defined.

Lemma range_query_inverted_bounds_witness :
  range_query (build six_inserts) "K5"%string "K2"%string = [].
Proof.
  apply (range_query_inverted_bounds (build six_inserts) "K5"%string
           "K2"%string).
  reflexivity.
Defined.

(** ** The codec *)

(** X11.  [write_string] writes a string of 1,000,000 bytes or more in full, but
    [read_string] reads the empty string back and leaves the stream at the
    first byte of the payload, so whatever is read next starts there.  The
    same holds for a vector of 10,000 strings or more. *)
Theorem oversized_values_not_read_back
    (s str0 : string) (vec vec0 : list string) (rest : list ascii) :
  (1000000 <= Z.of_nat (String.length s) < 2 ^ 64)%Z ->
  (10000 <= Z.of_nat (length vec) < 2 ^ 64)%Z ->
  read_string (Disk.opened (write_string [] s ++ rest)) str0 =
    Some (EmptyString, Disk.opened (list_ascii_of_string s ++ rest)) /\
  read_vector_string (Disk.opened (write_vector_string [] vec ++ rest)) vec0 =
    Some ([], Disk.opened (concat (map (write_string []) vec) ++ rest)).
Proof.
  intros Hs Hvec. unfold Disk.opened. split.
  - unfold read_string, write_string, os_write. cbn [app].
    assert (E : (0 <? Z.of_nat (String.length s))%Z = true)
      by (apply Z.ltb_lt; lia).
    rewrite E, <- app_assoc, read_size_t_encoded by lia.
    assert (E' : (Z.of_nat (String.length s) <? 1000000)%Z = false)
      by (apply Z.ltb_ge; lia).
    now rewrite E', andb_false_r.
  - unfold read_vector_string, write_vector_string, os_write. cbn [app].
    rewrite write_strings_app, <- app_assoc, read_size_t_encoded by lia.
    assert (E : (Z.of_nat (length vec) <? 10000)%Z = false)
      by (apply Z.ltb_ge; lia).
    now rewrite E.
Qed.

Lemma length_string_of_list_ascii (l : list ascii) :
  String.length (string_of_list_ascii l) = length l.
Proof. induction l; simpl; auto. Qed.

Lemma oversized_values_not_read_back_witness :
  let s := string_of_list_ascii (repeat "a"%char (Z.to_nat 1000000)) in
  let vec := repeat "a"%string (Z.to_nat 10000) in
  read_string (Disk.opened (write_string [] s ++ ["x"%char])) "old" =
    Some (EmptyString, Disk.opened (list_ascii_of_string s ++ ["x"%char])) /\
  read_vector_string
    (Disk.opened (write_vector_string [] vec ++ ["x"%char])) ["old"%string] =
    Some ([], Disk.opened (concat (map (write_string []) vec) ++ ["x"%char])).
Proof.
  intros s vec. apply oversized_values_not_read_back.
  - subst s. rewrite length_string_of_list_ascii, repeat_length, Z2Nat.id; lia.
  - subst vec. rewrite repeat_length, Z2Nat.id; lia.
Defined.

Ltac by_evaluation :=
  repeat first
    [ split
    | apply Forall_nil
    | apply Forall_cons
    | (vm_compute; first [reflexivity | discriminate]) ].

(** ** The records on disk *)

(** X12.  An [Exercise] whose strings, vectors and numbers the codec can carry
    is read back by [deserialize] from the bytes [serialize] wrote, whatever
    the object held before and whatever follows in the file; the stream is
    left just behind the record. *)
Theorem Exercise_round_trip (x x0 : Exercise) (rest : list ascii) :
  Disk.Exercise_ok x ->
  Disk.Exercise_deserialize x0
    (Disk.opened (Disk.Exercise_serialize [] x ++ rest)) =
  Some (x, Disk.opened rest).
Proof. apply Exercise_deserialize_bytes. Qed.

Lemma Exercise_round_trip_witness :
  Disk.Exercise_deserialize (Exercise_new 1700000005)
    (Disk.opened (Disk.Exercise_serialize [] sample_exercise ++ ["x"%char])) =
  Some (sample_exercise, Disk.opened ["x"%char]).
Proof. apply Exercise_round_trip. by_evaluation. Defined.

(** X13.  A [User] the codec can carry is read back by [deserialize] from the
    bytes [serialize] wrote, whatever the object held before and whatever
    follows in the file. *)
Theorem User_round_trip (x x0 : User) (rest : list ascii) :
  Disk.User_ok x ->
  Disk.User_deserialize x0 (Disk.opened (Disk.User_serialize [] x ++ rest)) =
  Some (x, Disk.opened rest).
Proof. apply User_deserialize_bytes. Qed.

Lemma User_round_trip_witness :
  Disk.User_deserialize (User_new 1700000005 1700000005)
    (Disk.opened (Disk.User_serialize [] sample_user ++ ["x"%char])) =
  Some (sample_user, Disk.opened ["x"%char]).
Proof. apply User_round_trip. by_evaluation. Defined.

(** X14.  A [Quest] the codec can carry is read back by [deserialize] from the
    bytes [serialize] wrote, whatever the object held before and whatever
    follows in the file. *)
Theorem Quest_round_trip (x x0 : Quest) (rest : list ascii) :
  Disk.Quest_ok x ->
  Disk.Quest_deserialize x0
    (Disk.opened (Disk.Quest_serialize [] x ++ rest)) =
  Some (x, Disk.opened rest).
Proof. apply Quest_deserialize_bytes. Qed.

Lemma Quest_round_trip_witness :
  Disk.Quest_deserialize Disk.default_Quest
    (Disk.opened (Disk.Quest_serialize [] sample_quest ++ ["x"%char])) =
  Some (sample_quest, Disk.opened ["x"%char]).
Proof. apply Quest_round_trip. by_evaluation. Defined.

(** X15.  A [WorkoutSession] the codec can carry is read back by [deserialize]
    from the bytes [serialize] wrote, whatever the object held before and
    whatever follows in the file; the [float] comes back bit for bit. *)
Theorem WorkoutSession_round_trip (x x0 : WorkoutSession) (rest : list ascii) :
  Disk.WorkoutSession_ok x ->
  Disk.WorkoutSession_deserialize x0
    (Disk.opened (Disk.WorkoutSession_serialize [] x ++ rest)) =
  Some (x, Disk.opened rest).
Proof. apply WorkoutSession_deserialize_bytes. Qed.

Lemma WorkoutSession_round_trip_witness :
  Disk.WorkoutSession_deserialize (WorkoutSession_new 1700000005 1700000005 42)
    (Disk.opened
       (Disk.WorkoutSession_serialize [] sample_workout ++ ["x"%char])) =
  Some (sample_workout, Disk.opened ["x"%char]).
Proof. apply WorkoutSession_round_trip. by_evaluation. Defined.

(** ** The vector files *)

(** X16.  An email index of fewer than 100,000 entries whose strings the codec
    can carry is what [load_hash_table] leaves in the member when it reads
    the file [save_hash_table] wrote, whatever the member held before. *)
Theorem email_index_file_round_trip (index current : list HashTableEntry) :
  Disk.vector_storable Disk.HashTableEntry_ok index ->
  Disk.load_hash_table (Some (Disk.save_hash_table index)) current =
  Some index.
Proof.
  intros [Hcount Hok].
  apply (load_entries_bytes Disk.HashTableEntry_serialize
           Disk.HashTableEntry_deserialize Disk.default_HashTableEntry
           Disk.HashTableEntry_ok HashTableEntry_serialize_bytes
           HashTableEntry_deserialize_bytes); trivial.
Qed.

Lemma email_index_file_round_trip_witness :
  let index :=
    [ {| hte_key := "admin@fitnessquest.com"; hte_value := "ADMIN001" |};
      {| hte_key := "eve@fit.org"; hte_value := "USER_100_3" |} ] in
  Disk.load_hash_table (Some (Disk.save_hash_table index))
    [ {| hte_key := "old"; hte_value := "old" |} ] =
  Some index.
Proof. intros index. apply email_index_file_round_trip. by_evaluation. Defined.

(** X17.  A list of fewer than 100,000 graph edges the codec can carry is what
    [load_graph] leaves in the member when it reads the file [save_graph]
    wrote, whatever the member held before. *)
Theorem graph_file_round_trip (edges current : list GraphEdge) :
  Disk.vector_storable Disk.GraphEdge_ok edges ->
  Disk.load_graph (Some (Disk.save_graph edges)) current = Some edges.
Proof.
  intros [Hcount Hok].
  apply (load_entries_bytes Disk.GraphEdge_serialize
           Disk.GraphEdge_deserialize Disk.default_GraphEdge
           Disk.GraphEdge_ok GraphEdge_serialize_bytes
           GraphEdge_deserialize_bytes); trivial.
Qed.

Lemma graph_file_round_trip_witness :
  let edges :=
    [ {| ge_from := "EX001"; ge_to := "EX002"; ge_weight := 1 |};
      {| ge_from := "EX002"; ge_to := "EX003"; ge_weight := -4 |} ] in
  Disk.load_graph (Some (Disk.save_graph edges)) [] = Some edges.
Proof. intros edges. apply graph_file_round_trip. by_evaluation. Defined.

(** X18.  A queue snapshot of fewer than 100,000 entries the codec can carry is
    what [load_priority_queue] leaves in the member when it reads the file
    [save_priority_queue] wrote, in the same order. *)
Theorem priority_queue_file_round_trip
    (entries current : list PriorityQueueEntry) :
  Disk.vector_storable Disk.PriorityQueueEntry_ok entries ->
  Disk.load_priority_queue (Some (Disk.save_priority_queue entries)) current =
  Some entries.
Proof.
  intros [Hcount Hok].
  apply (load_entries_bytes Disk.PriorityQueueEntry_serialize
           Disk.PriorityQueueEntry_deserialize
           Disk.default_PriorityQueueEntry
           Disk.PriorityQueueEntry_ok PriorityQueueEntry_serialize_bytes
           PriorityQueueEntry_deserialize_bytes); trivial.
Qed.

Lemma priority_queue_file_round_trip_witness :
  let entries :=
    [ {| pq_quest := quest_of_priority "Q5" 5; pq_priority := 5;
         pq_timestamp := 1700000000 |};
      {| pq_quest := sample_quest; pq_priority := 1;
         pq_timestamp := 1700000001 |} ] in
  Disk.load_priority_queue (Some (Disk.save_priority_queue entries)) [] =
  Some entries.
Proof.
  intros entries. apply priority_queue_file_round_trip. by_evaluation.
Defined.

(** X19.  A vector of 100,000 entries or more is written in full by the three
    save functions, but the three load functions then leave the member as it
    was: nothing of the file is loaded. *)
Theorem vector_files_not_loaded_when_large
    (index index0 : list HashTableEntry) (edges edges0 : list GraphEdge)
    (entries entries0 : list PriorityQueueEntry) :
  (100000 <= Z.of_nat (length index) < 2 ^ 64)%Z ->
  (100000 <= Z.of_nat (length edges) < 2 ^ 64)%Z ->
  (100000 <= Z.of_nat (length entries) < 2 ^ 64)%Z ->
  Disk.load_hash_table (Some (Disk.save_hash_table index)) index0 =
    Some index0 /\
  Disk.load_graph (Some (Disk.save_graph edges)) edges0 = Some edges0 /\
  Disk.load_priority_queue (Some (Disk.save_priority_queue entries)) entries0
    = Some entries0.
Proof.
  intros H1 H2 H3. split; [| split].
  - apply (load_entries_large Disk.HashTableEntry_serialize
             Disk.HashTableEntry_deserialize Disk.default_HashTableEntry
             HashTableEntry_serialize_bytes); trivial.
  - apply (load_entries_large Disk.GraphEdge_serialize
             Disk.GraphEdge_deserialize Disk.default_GraphEdge
             GraphEdge_serialize_bytes); trivial.
  - apply (load_entries_large Disk.PriorityQueueEntry_serialize
             Disk.PriorityQueueEntry_deserialize
             Disk.default_PriorityQueueEntry
             PriorityQueueEntry_serialize_bytes); trivial.
Qed.

Lemma vector_files_not_loaded_when_large_witness :
  let n := Z.to_nat 100000 in
  let index := repeat Disk.default_HashTableEntry n in
  let edges := repeat Disk.default_GraphEdge n in
  let entries := repeat Disk.default_PriorityQueueEntry n in
  Disk.load_hash_table (Some (Disk.save_hash_table index)) [] = Some [] /\
  Disk.load_graph (Some (Disk.save_graph edges)) [] = Some [] /\
  Disk.load_priority_queue (Some (Disk.save_priority_queue entries)) [] =
    Some [].
Proof.
  intros n index edges entries.
  apply vector_files_not_loaded_when_large;
    subst index edges entries n; rewrite repeat_length, Z2Nat.id; lia.
Defined.

(** ** The tree files *)

(** X20.  [save_to_file] followed by [load_from_file], for a tree built by
    inserts that holds at most 1,000,000 keys, and pair functions of which
    the load function reads back what the save function wrote: the load
    inserts the saved pairs, in key order, into the tree it is called on,
    and a tree rebuilt from them answers every [search] as the saved tree
    did, a key the saved tree holds twice included. *)
Theorem tree_file_round_trip {V : Type}
    (save_func : ofstream -> string -> V -> ofstream)
    (load_func : string -> V -> Disk.reader (string * V))
    (fresh : nat -> string * V) (ok : string -> V -> Prop)
    (ops : list (string * V)) (t0 : CompleteBTree string V) :
  (forall os k v, save_func os k v = os ++ save_func [] k v) ->
  (forall k v k0 v0 rest,
      ok k v ->
      load_func k0 v0 (Disk.opened (save_func [] k v ++ rest)) =
      Some ((k, v), Disk.opened rest)) ->
  (Z.of_nat (get_size (build ops)) <= 1000000)%Z ->
  (forall k v, In (k, v) ops -> ok k v) ->
  Disk.load_from_file load_func fresh
    (Some (Disk.save_to_file save_func (build ops))) t0 =
    Some (insert_all t0 (save_to_file (build ops))) /\
  forall k, search (build (save_to_file (build ops))) k = search (build ops) k.
Proof.
  intros Hsave Hload Hsize Hok. split.
  - now apply (load_from_file_bytes save_func load_func fresh ok).
  - apply search_saved.
Qed.

Lemma tree_file_round_trip_witness :
  let ops := [("U2"%string, sample_user);
              ("U1"%string, User_new 1700000000 1700000001);
              ("U2"%string, User_new 1700000002 1700000003)] in
  let fresh := fun _ : nat => (EmptyString, User_new 1700000009 1700000009) in
  Disk.load_from_file Disk.load_user_pair fresh
    (Some (Disk.save_to_file Disk.save_user_pair (build ops))) empty_tree =
    Some (insert_all empty_tree (save_to_file (build ops))) /\
  forall k, search (build (save_to_file (build ops))) k = search (build ops) k.
Proof.
  intros ops fresh.
  apply (tree_file_round_trip Disk.save_user_pair Disk.load_user_pair fresh
           (fun k v => Disk.string_ok k /\ Disk.User_ok v)).
  - apply save_user_pair_bytes.
  - intros k v k0 v0 rest [Hk Hv]. now apply load_user_pair_bytes.
  - vm_compute. discriminate.
  - intros k v [H | [H | [H | []]]]; inversion H; subst; by_evaluation.
Defined.

(** X21.  [load_from_file] leaves the tree as it is when the file does not exist
    and when the count at the head of the file is above 1,000,000: nothing
    is loaded then, and nothing is reported. *)
Theorem load_from_file_keeps_tree {K V : Type} `{KO : KeyOrder K}
    (load_func : K -> V -> Disk.reader (K * V)) (fresh : nat -> K * V)
    (t : CompleteBTree K V) (hdr rest : list ascii) :
  length hdr = SIZEOF_SIZE_T ->
  (1000000 < decode_le hdr)%Z ->
  Disk.load_from_file load_func fresh (Some (hdr ++ rest)) t = Some t /\
  Disk.load_from_file load_func fresh None t = Some t.
Proof.
  intros Hlen Hbig. split; [| reflexivity].
  unfold Disk.load_from_file, Disk.opened.
  rewrite read_size_t_header by trivial.
  assert (E : (1000000 <? decode_le hdr)%Z = true) by (apply Z.ltb_lt; lia).
  now rewrite E.
Qed.

Lemma load_from_file_keeps_tree_witness :
  let fresh := fun _ : nat => (EmptyString, User_new 1700000009 1700000009) in
  let t := build [("ADMIN001"%string, sample_user)] in
  Disk.load_from_file Disk.load_user_pair fresh
    (Some (encode_le SIZEOF_SIZE_T 1000001
             ++ Disk.save_user_pair [] "U1" sample_user)) t = Some t /\
  Disk.load_from_file Disk.load_user_pair fresh None t = Some t.
Proof.
  intros fresh t. apply load_from_file_keeps_tree.
  - reflexivity.
  - vm_compute. reflexivity.
Defined.

(** ** Restart *)

Section Restart.
Variable fresh_exercise : nat -> string * Exercise.
Variable fresh_user : nat -> string * User.
Variable fresh_workout : nat -> string * WorkoutSession.
Variable fresh_quest : nat -> string * Quest.

Lemma tree_storable_loads {V : Type}
    (save_func : ofstream -> string -> V -> ofstream)
    (load_func : string -> V -> Disk.reader (string * V))
    (fresh : nat -> string * V) (value_ok : V -> Prop)
    (t : CompleteBTree string V) :
  (forall os k v, save_func os k v = os ++ save_func [] k v) ->
  (forall k v k0 v0 rest,
      Disk.string_ok k -> value_ok v ->
      load_func k0 v0 (Disk.opened (save_func [] k v ++ rest)) =
      Some ((k, v), Disk.opened rest)) ->
  Disk.tree_storable value_ok t ->
  exists t',
    Disk.load_from_file load_func fresh
      (Some (Disk.save_to_file save_func t)) empty_tree = Some t' /\
    forall k, search t' k = search t k.
Proof.
  intros Hsave Hload (ops & -> & Hsize & Hok).
  exists (build (save_to_file (build ops))). split.
  - apply (load_from_file_bytes save_func load_func fresh
             (fun k v => Disk.string_ok k /\ value_ok v)); trivial.
    + intros k v k0 v0 rest [Hk Hv]. now apply Hload.
    + intros k v Hin. rewrite Forall_forall in Hok. exact (Hok (k, v) Hin).
  - apply search_saved.
Qed.

Lemma load_all_data_saved (db : PersistentFitnessDatabase) (view : Files) :
  Disk.storable db ->
  exists db',
    Disk.load_all_data fresh_exercise fresh_user fresh_workout fresh_quest
      (Disk.save_all_data db) (set_files empty_database view) = Some db' /\
    files db' = view /\
    email_index db' = email_index db /\
    graph_edges db' = graph_edges db /\
    pq_entries db' = pq_entries db /\
    (forall id, get_exercise id db' = get_exercise id db) /\
    (forall id, get_user id db' = get_user id db) /\
    (forall id, get_workout id db' = get_workout id db) /\
    (forall id, get_quest id db' = get_quest id db) /\
    (forall email, get_user_by_email email db' = get_user_by_email email db).
Proof.
  intros (He & Hu & Hw & Hq & [Hic Hi] & [Hgc Hg] & [Hpc Hp]).
  destruct (tree_storable_loads Disk.save_exercise_pair
              Disk.load_exercise_pair fresh_exercise Disk.Exercise_ok
              (exercise_btree db) save_exercise_pair_bytes
              (fun k v k0 v0 rest => load_exercise_pair_bytes k k0 v v0 rest)
              He) as (et & Het & Hes).
  destruct (tree_storable_loads Disk.save_user_pair
              Disk.load_user_pair fresh_user Disk.User_ok
              (user_btree db) save_user_pair_bytes
              (fun k v k0 v0 rest => load_user_pair_bytes k k0 v v0 rest)
              Hu) as (ut & Hut & Hus).
  destruct (tree_storable_loads Disk.save_workout_pair
              Disk.load_workout_pair fresh_workout Disk.WorkoutSession_ok
              (workout_btree db) save_workout_pair_bytes
              (fun k v k0 v0 rest => load_workout_pair_bytes k k0 v v0 rest)
              Hw) as (wt & Hwt & Hws).
  destruct (tree_storable_loads Disk.save_quest_pair
              Disk.load_quest_pair fresh_quest Disk.Quest_ok
              (quest_btree db) save_quest_pair_bytes
              (fun k v k0 v0 rest => load_quest_pair_bytes k k0 v v0 rest)
              Hq) as (qt & Hqt & Hqs).
  eexists. split.
  - unfold Disk.load_all_data, Disk.save_all_data.
    cbn [Disk.exercises_dat Disk.users_dat Disk.workouts_dat Disk.quests_dat
         Disk.email_index_dat Disk.graph_dat Disk.priority_queue_dat
         exercise_btree user_btree workout_btree quest_btree email_index
         graph_edges pq_entries files set_files empty_database].
    rewrite Het, Hut, Hwt, Hqt.
    unfold Disk.load_hash_table, Disk.save_hash_table, Disk.load_graph,
      Disk.save_graph, Disk.load_priority_queue, Disk.save_priority_queue.
    rewrite (load_entries_bytes Disk.HashTableEntry_serialize
               Disk.HashTableEntry_deserialize Disk.default_HashTableEntry
               Disk.HashTableEntry_ok HashTableEntry_serialize_bytes
               HashTableEntry_deserialize_bytes) by trivial.
    rewrite (load_entries_bytes Disk.GraphEdge_serialize
               Disk.GraphEdge_deserialize Disk.default_GraphEdge
               Disk.GraphEdge_ok GraphEdge_serialize_bytes
               GraphEdge_deserialize_bytes) by trivial.
    rewrite (load_entries_bytes Disk.PriorityQueueEntry_serialize
               Disk.PriorityQueueEntry_deserialize
               Disk.default_PriorityQueueEntry
               Disk.PriorityQueueEntry_ok PriorityQueueEntry_serialize_bytes
               PriorityQueueEntry_deserialize_bytes) by trivial.
    reflexivity.
  - unfold get_exercise, get_user, get_workout, get_quest,
      get_user_by_email, search_or_throw.
    cbn [exercise_btree user_btree workout_btree quest_btree email_index
         graph_edges pq_entries files].
    repeat split; intros; rewrite ?Hes, ?Hus, ?Hws, ?Hqs; try reflexivity.
    destruct (find _ (email_index db)); [now rewrite Hus | reflexivity].
Qed.


End Restart.


Ltac tree_storable_by_evaluation t :=
  let ops := eval vm_compute in (stored_pairs t) in
  exists ops;
  split; [vm_compute; reflexivity |];
  split; [vm_compute; discriminate |];
  repeat first [apply Forall_nil | apply Forall_cons]; by_evaluation.

Ltac vector_storable_by_evaluation l :=
  let entries := eval vm_compute in l in
  change l with entries;
  split; [vm_compute; reflexivity |];
  repeat first [apply Forall_nil | apply Forall_cons]; by_evaluation.



(** ** The orchestrator *)

Section OrchestratorTheorems.
Variable std_hash : string -> Z.
Context {Sort : StdSort}.



(** X27.  In every reachable state [get_all_exercises] and [get_all_quests]
    return one record for every key of their tree, none being skipped, and
    an exercise is listed exactly when some id retrieves it. *)
Theorem listings_are_complete (db : PersistentFitnessDatabase) :
  reachable std_hash db ->
  length (get_all_exercises db) = exercise_count (get_stats db) /\
  length (get_all_quests db) = quest_count (get_stats db) /\
  (forall x, In x (get_all_exercises db) <->
             exists id, get_exercise id db = Returned x) /\
  (forall x, In x (get_all_quests db) <->
             exists id, get_quest id db = Returned x).
Proof.
  intros H. apply (reachable_consistent std_hash) in H.
  destruct H as (He & _ & _ & Hq & _).
  assert (Hlisted : forall (V : Type) (t : CompleteBTree string V) (x : V),
             In x (values_of_keys t) <->
             exists id, search_or_throw t id = Returned x).
  { intros V t x. unfold values_of_keys, search_or_throw.
    rewrite in_flat_map. split.
    - intros (k & Hk & Hx). exists k.
      destruct (search t k) as [v|]; [| contradiction].
      destruct Hx as [-> | []]. reflexivity.
    - intros (k & Hk). exists k.
      destruct (search t k) as [v|] eqn:E; [| discriminate].
      inversion Hk; subst. split; [| now left].
      apply search_node_stored in E.
      unfold get_all_keys. rewrite <- stored_node_keys.
      change k with (fst (k, x)). now apply in_map. }
  unfold get_all_exercises, get_all_quests, get_exercise, get_quest.
  cbn [exercise_count quest_count get_stats].
  split; [now apply values_of_keys_length |].
  split; [now apply values_of_keys_length |].
  split; intros x; apply Hlisted.
Qed.

(** X28.  In every reachable state a workout that [start_workout] has just
    started can be completed: [complete_workout] on the returned id does not
    throw.  On an id that is no key of the workout tree it throws the
    tree's error and changes nothing. *)
Theorem started_workout_can_be_completed (db : PersistentFitnessDatabase) :
  reachable std_hash db ->
  (forall user_id now_start now_id rnd now,
      let started := start_workout user_id now_start now_id rnd db in
      exists db',
        complete_workout (fst started) now (snd started) =
        (Returned tt, db')) /\
  (forall workout_id now,
      exists_ (workout_btree db) workout_id = false ->
      complete_workout workout_id now db =
      (Thrown "Key not found in B-Tree", db)).
Proof.
  intros H. apply (reachable_consistent std_hash) in H.
  destruct H as (_ & _ & Hw & _). split.
  - intros user_id now_start now_id rnd now started. subst started.
    unfold start_workout. cbv zeta. cbn [fst snd].
    unfold complete_workout. db_simpl.
    match goal with
    | |- context [search (insert ?t ?k ?v) ?k] =>
        assert (E := exists_insert_same t k v Hw)
    end.
    unfold exists_ in E. unfold search.
    destruct (search_node _ _) as [session|]; [eauto | discriminate].
  - intros workout_id now E. unfold complete_workout, exists_, search in *.
    now destruct (search_node _ workout_id).
Qed.

(** [add_quest] always puts one more entry into the queue, also for a
    quest id that is queued already: the new snapshot is the old one and the
    new entry, reordered. *)
Lemma add_quest_always_enqueues (quest : Quest) (now : Z)
    (db : PersistentFitnessDatabase) :
  Permutation
    (pq_entries (add_quest quest now db))
    ({| pq_quest := quest; pq_priority := q_priority quest;
        pq_timestamp := now |} :: pq_entries db) /\
  priority_queue_size (get_stats (add_quest quest now db)) =
  S (priority_queue_size (get_stats db)).
Proof.
  assert (Hperm : Permutation
            (pq_entries (add_quest quest now db))
            ({| pq_quest := quest; pq_priority := q_priority quest;
                pq_timestamp := now |} :: pq_entries db)).
  { rewrite pq_entries_add_quest. rewrite <- std_sort_perm.
    rewrite Permutation_app_comm. reflexivity. }
  split; [exact Hperm |].
  cbn [priority_queue_size get_stats].
  now rewrite (Permutation_length Hperm).
Qed.

(** [clear_all_data] forgets the state it is called on: the result is the
    state of a first start, with two exercises, one user, no workout, one
    quest, one index entry, one graph edge and one queued quest. *)
Theorem clear_all_data_resets (now1 now2 now3 now4 now5 : Z)
    (db : PersistentFitnessDatabase) :
  clear_all_data now1 now2 now3 now4 now5 db =
    initialize_sample_data now1 now2 now3 now4 now5 empty_database /\
  get_stats (clear_all_data now1 now2 now3 now4 now5 db) =
    {| exercise_count := 2; user_count := 1; workout_count := 0;
       quest_count := 1; email_index_size := 1; graph_edges_size := 1;
       priority_queue_size := 1 |}.
Proof. split; reflexivity. Qed.

End OrchestratorTheorems.



Lemma listings_are_complete_witness :
  let db := add_exercise sample_exercise first_start in
  length (get_all_exercises db) = exercise_count (get_stats db) /\
  length (get_all_quests db) = quest_count (get_stats db) /\
  (forall x, In x (get_all_exercises db) <->
             exists id, get_exercise id db = Returned x) /\
  (forall x, In x (get_all_quests db) <->
             exists id, get_quest id db = Returned x).
Proof.
  intros db.
  apply (listings_are_complete (fun _ : string => 0%Z)
           (Sort := insertion_StdSort)).
  apply reach_add_exercise, reach_first_start.
Defined.

Lemma started_workout_can_be_completed_witness :
  let db := first_start in
  (forall user_id now_start now_id rnd now,
      let started := start_workout user_id now_start now_id rnd db in
      exists db',
        complete_workout (fst started) now (snd started) =
        (Returned tt, db')) /\
  (forall workout_id now,
      exists_ (workout_btree db) workout_id = false ->
      complete_workout workout_id now db =
      (Thrown "Key not found in B-Tree", db)).
Proof.
  intros db.
  apply (started_workout_can_be_completed (fun _ : string => 0%Z)
           (Sort := insertion_StdSort)).
  apply reach_first_start.
Defined.

Lemma created_user_retrievable_when_id_is_new_witness :
  let std_hash := fun _ : string => 0%Z in
  get_user_by_email "eve@fit.org"
    (snd (create_user std_hash "eve" "eve@fit.org" "secret"
            1700000100 1700000101 1700000102 7 first_start)) =
  Returned
    {| u_id := "USER_1700000102_7"; u_username := "eve";
       u_email := "eve@fit.org"; u_password_hash := "0";
       u_fitness_level := 1; u_experience_points := 0;
       u_completed_exercises := []; u_achievements := [];
       u_created_at := 1700000100; u_last_login := 1700000101 |}.
Proof.
  intros std_hash.
  apply (created_user_retrievable_when_id_is_new std_hash "eve" "eve@fit.org"
           "secret" 1700000100 1700000101 1700000102 7 first_start).
  - destruct (consistent_sample 1700000000 1700000000 1700000000 1700000000
                1700000000) as (_ & (ops & Hops) & _).
    unfold first_start. rewrite Hops. apply build_inv.
  - vm_compute. repeat constructor.
  - vm_compute. intuition discriminate.
  - vm_compute. discriminate.
Defined.

(** ** The B-tree: sizes and point queries *)

Section TreeSizes.
Context {K V : Type} `{KO : KeyOrder K}.

(** X6.  The keys [get_all_keys] lists are exactly the keys that were inserted,
    and [get_size] is at most the number of [insert] calls: an insert adds
    at most one pair and never removes a key. *)
Theorem get_size_at_most_inserts (ops : list (K * V)) :
  get_size (build ops) <= length ops /\
  forall k, In k (get_all_keys (build ops)) <-> In k (map fst ops).
Proof.
  split.
  - induction ops as [|[k v] ops IH] using rev_ind; [cbn; lia |].
    rewrite build_snoc, length_app. cbn [length].
    destruct (insert_stored (build ops) k v (build_inv ops))
      as (l1 & l2 & Hnew & Hold).
    assert (Hsz : forall t : CompleteBTree K V,
               get_size t = length (stored_pairs t)).
    { intros t. unfold get_size, get_all_keys, stored_pairs.
      now rewrite <- stored_node_keys, length_map. }
    rewrite Hsz in *. rewrite Hnew.
    destruct Hold as [Hold | (v0 & Hold)]; rewrite Hold in IH;
      rewrite length_app in *; cbn [length] in *; lia.
  - intros k. split.
    + unfold get_all_keys. rewrite <- stored_node_keys. intros Hin.
      apply in_map_iff in Hin. destruct Hin as ([k' v] & <- & Hin).
      apply (in_map fst). now apply build_stored_subset.
    + apply build_keys_superset.
Qed.

End TreeSizes.

Section PointQuery.
Context {K V : Type} `{KO : KeyOrder K}.

Lemma in_range_point (k : K) (kv : K * V) :
  in_range k k kv = true <-> fst kv = k.
Proof.
  unfold in_range. rewrite andb_true_iff, key_ge_iff, key_le_iff. split.
  - intros [H1 H2]. now apply kle_antisym.
  - intros ->. split; apply kle_refl.
Qed.

Lemma select_point_absent (k : K) (l : list (K * V)) :
  ~ In k (map fst l) -> select k k l = [].
Proof.
  unfold select. induction l as [|kv l IH]; intros Hk; [reflexivity |].
  cbn [filter]. destruct (in_range k k kv) eqn:E.
  - apply in_range_point in E. exfalso. apply Hk. now left.
  - apply IH. intros Hin. apply Hk. now right.
Qed.

Lemma select_point_present (k : K) (v : V) (l : list (K * V)) :
  NoDup (map fst l) -> In (k, v) l -> select k k l = [v].
Proof.
  induction l as [|kv l IH]; intros Hnd Hin; [destruct Hin |].
  inversion Hnd as [|? ? Hfresh Hnd']; subst.
  unfold select. cbn [filter]. destruct Hin as [-> | Hin].
  - assert (E : in_range k k (k, v) = true) by now apply in_range_point.
    rewrite E. cbn [map snd]. f_equal.
    now apply (select_point_absent k l).
  - assert (E : in_range k k kv = false).
    { destruct (in_range k k kv) eqn:E; trivial.
      apply in_range_point in E. exfalso. apply Hfresh. rewrite E.
      change k with (fst (k, v)). now apply in_map. }
    rewrite E. now apply IH.
Qed.

Lemma build_distinct (ops : list (K * V)) :
  NoDup (map fst ops) ->
  StronglySorted klt (get_all_keys (build ops)) /\
  Permutation (stored_pairs (build ops)) ops.
Proof.
  induction ops as [|[k v] ops IH] using rev_ind; intros Hnd.
  - split; constructor.
  - rewrite map_app in Hnd. cbn [map fst] in Hnd.
    apply NoDup_remove in Hnd. rewrite app_nil_r in Hnd.
    destruct Hnd as [Hnd Hk]. destruct (IH Hnd) as [Hs Hp].
    rewrite build_snoc.
    assert (Hfresh : ~ In k (get_all_keys (build ops))).
    { unfold get_all_keys. rewrite <- stored_node_keys.
      intros Hin. apply Hk.
      apply (Permutation_in _ (Permutation_map fst Hp)). exact Hin. }
    split.
    + apply insert_fresh_strict; trivial. apply build_inv.
    + destruct (insert_fresh (build ops) k v (build_inv ops) Hfresh)
        as (l1 & l2 & E1 & E2).
      rewrite E2, <- Permutation_middle, <- E1.
      rewrite Permutation_app_comm. cbn [app]. now apply perm_skip.
Qed.

Lemma upsert_fresh (l : list (K * V)) (k : K) (v : V) :
  ~ In k (map fst l) -> upsert l k v = l ++ [(k, v)].
Proof.
  induction l as [|[k' v'] l IH]; intros Hk; [reflexivity |].
  cbn [upsert app]. cbn [map fst] in Hk.
  assert (E : key_eq k' k = false).
  { apply key_eq_false. intros ->. apply Hk. now left. }
  rewrite E, IH; [reflexivity |]. intros Hin. apply Hk. now right.
Qed.

Lemma upserted_distinct (ops : list (K * V)) :
  NoDup (map fst ops) -> upserted ops = ops.
Proof.
  unfold upserted.
  assert (H : forall acc,
             NoDup (map fst (acc ++ ops)) ->
             fold_left (fun l kv => upsert l (fst kv) (snd kv)) ops acc =
             acc ++ ops).
  { induction ops as [|[k v] ops IH]; intros acc Hnd.
    - cbn. now rewrite app_nil_r.
    - cbn [fold_left fst snd].
      assert (Hk : ~ In k (map fst acc)).
      { rewrite map_app in Hnd. cbn [map fst] in Hnd.
        apply NoDup_remove_2 in Hnd. intros Hin. apply Hnd.
        apply in_or_app. now left. }
      rewrite (upsert_fresh acc k v Hk), IH.
      + now rewrite <- app_assoc.
      + now rewrite <- app_assoc. }
  intros Hnd. exact (H [] Hnd).
Qed.

Lemma select_perm (start end_ : K) (l l' : list (K * V)) :
  Permutation l l' ->
  Permutation (select start end_ l) (select start end_ l').
Proof.
  unfold select. induction 1 as [| x l l' _ IH | x y l | l l' l'' _ IH1 _ IH2].
  - constructor.
  - cbn [filter]. destruct (in_range start end_ x); cbn [map]; auto.
  - cbn [filter].
    destruct (in_range start end_ x), (in_range start end_ y); cbn [map];
      try reflexivity. apply perm_swap.
  - now rewrite IH1.
Qed.

(** X31.  In a tree built by inserts of pairwise distinct keys,
    [range_query(low, high)] returns the same multiset as brute-force
    filtering of the inserted pairs by [low <= k] and [k <= high], whatever
    the bounds and however many splits the inserts caused. *)
Theorem range_query_distinct_keys (ops : list (K * V)) (low high : K) :
  NoDup (map fst ops) ->
  Permutation (range_query (build ops) low high) (brute_force ops low high) /\
  brute_force ops low high =
    map snd (filter (fun kv => key_ge (fst kv) low && key_le (fst kv) high)
                    ops).
Proof.
  intros Hnd. destruct (build_distinct ops Hnd) as [_ Hp].
  destruct (build_inv ops) as [Hok _].
  unfold brute_force. rewrite (upserted_distinct ops Hnd).
  split; [| reflexivity].
  rewrite <- (select_perm low high _ _ Hp).
  apply (traverse_range_perm low high (root (build ops)) (ex_intro _ 0 Hok)).
Qed.

(** X10.  In a tree built by inserts of pairwise distinct keys, the range query
    for the single key [k] agrees with [search]: it returns the one value
    [search k] returns, and nothing when [search k] throws. *)
Theorem point_query_agrees_with_search (ops : list (K * V)) (k : K) :
  NoDup (map fst ops) ->
  range_query (build ops) k k =
  match search (build ops) k with
  | Some v => [v]
  | None => []
  end.
Proof.
  intros Hnd. destruct (build_distinct ops Hnd) as [Hs Hp].
  destruct (build_inv ops) as [Hok Hsorted].
  assert (Hperm := traverse_range_perm k k (root (build ops))
                     (ex_intro _ 0 Hok)).
  fold (stored_pairs (build ops)) in Hperm.
  assert (Hkeys : NoDup (map fst (stored_pairs (build ops)))).
  { apply (Permutation_NoDup (Permutation_sym (Permutation_map fst Hp))).
    exact Hnd. }
  unfold range_query.
  destruct (search (build ops) k) as [v|] eqn:E.
  - apply search_node_stored in E. fold (stored_pairs (build ops)) in E.
    rewrite (select_point_present k v _ Hkeys E) in Hperm.
    apply Permutation_sym, Permutation_length_1_inv in Hperm. exact Hperm.
  - rewrite select_point_absent in Hperm.
    + now apply Permutation_sym, Permutation_nil in Hperm.
    + intros Hin. unfold stored_pairs in Hin.
      rewrite stored_node_keys in Hin.
      destruct (search_node_finds_key (root (build ops)) (ex_intro _ 0 Hok)
                  Hsorted k Hin) as (v & Hv).
      unfold search in E. congruence.
Qed.

End PointQuery.

Lemma range_query_distinct_keys_witness :
  Permutation (range_query (build six_inserts) "K2"%string "K5"%string)
              (brute_force six_inserts "K2"%string "K5"%string) /\
  brute_force six_inserts "K2"%string "K5"%string =
    map snd (filter (fun kv => key_ge (fst kv) "K2"%string
                               && key_le (fst kv) "K5"%string)
                    six_inserts).
Proof.
  apply (range_query_distinct_keys six_inserts "K2"%string "K5"%string).
  repeat constructor; simpl; intuition discriminate.
Defined.

Lemma point_query_agrees_with_search_witness :
  range_query (build six_inserts) "K3"%string "K3"%string =
  match search (build six_inserts) "K3"%string with
  | Some v => [v]
  | None => []
  end.
Proof.
  apply (point_query_agrees_with_search six_inserts "K3"%string).
  repeat constructor; simpl; intuition discriminate.
Defined.

(** ** The persistence self-test *)

Section PersistenceTest.
Variable std_hash : string -> Z.
Context {Sort : StdSort}.
Variable fresh_exercise : nat -> string * Exercise.
Variable fresh_user : nat -> string * User.
Variable fresh_workout : nat -> string * WorkoutSession.
Variable fresh_quest : nat -> string * Quest.

Lemma search_some_size {V : Type} (t : CompleteBTree string V) (k : string)
    (v : V) :
  search t k = Some v -> (get_size t =? 0) = false.
Proof.
  intros E. apply search_node_stored in E.
  apply (in_map fst) in E. rewrite stored_node_keys in E.
  unfold get_size, get_all_keys.
  destruct (traverse (root t)); [destruct E | reflexivity].
Qed.

Lemma test_persistence_registered
    (now_created now_login now_id rnd now1 now2 now3 now4 now5 : Z)
    (db : PersistentFitnessDatabase) :
  existsb (fun entry => String.eqb (hte_key entry) "test@test.com")
          (email_index db) = true ->
  test_persistence std_hash fresh_exercise fresh_user fresh_workout
    fresh_quest now_created now_login now_id rnd now1 now2 now3 now4 now5 db
  = Some (false, db).
Proof.
  intros E. unfold test_persistence, create_user. now rewrite E.
Qed.

(** X29.  On a database in which the test email is not registered, whose user
    tree holds pairwise distinct keys, the generated id not among them, and
    whose state after the [create_user] the codec can carry,
    [test_persistence] returns [true]; it leaves the test user registered,
    so every later call returns [false] and changes nothing. *)
Theorem test_persistence_succeeds_once
    (now_created now_login now_id rnd now1 now2 now3 now4 now5 : Z)
    (db : PersistentFitnessDatabase) :
  let id := ("USER_" ++ to_string now_id ++ "_"
               ++ to_string (Z.rem rnd 10000))%string in
  let created :=
    create_user std_hash "TestUser" "test@test.com" "password"
      now_created now_login now_id rnd db in
  existsb (fun entry => String.eqb (hte_key entry) "test@test.com")
          (email_index db) = false ->
  tree_inv (user_btree db) ->
  StronglySorted klt (get_all_keys (user_btree db)) ->
  ~ In id (get_all_keys (user_btree db)) ->
  Disk.storable (snd created) ->
  exists db',
    test_persistence std_hash fresh_exercise fresh_user fresh_workout
      fresh_quest now_created now_login now_id rnd
      now1 now2 now3 now4 now5 db = Some (true, db') /\
    forall c l i r n1 n2 n3 n4 n5,
      test_persistence std_hash fresh_exercise fresh_user fresh_workout
        fresh_quest c l i r n1 n2 n3 n4 n5 db' = Some (false, db').
Proof.
  intros id created Hno Hinv Hstrict Hfresh Hstor.
  destruct (create_user_effect std_hash "TestUser" "test@test.com" "password"
              now_created now_login now_id rnd db)
    as (Hthrows & _ & Heffect).
  fold id in Heffect. fold created in Hthrows, Heffect.
  assert (Hok : fst created <> Thrown "Email already registered").
  { intros Ht. apply Hthrows in Ht. destruct Ht as (entry & Hin & Hkey).
    assert (E : existsb
                  (fun entry => String.eqb (hte_key entry) "test@test.com")
                  (email_index db) = true).
    { apply existsb_exists. exists entry. split; trivial.
      now apply String.eqb_eq. }
    congruence. }
  destruct (Heffect Hok) as (Hret & Htree & Hindex & Hget). clear Heffect.
  set (user := {| u_id := id; u_username := "TestUser";
                  u_email := "test@test.com";
                  u_password_hash := to_string (std_hash "password");
                  u_fitness_level := 1; u_experience_points := 0;
                  u_completed_exercises := []; u_achievements := [];
                  u_created_at := now_created;
                  u_last_login := now_login |}) in *.
  assert (Hfound : search (insert (user_btree db) id user) id = Some user)
    by now apply search_insert_fresh.
  unfold search_or_throw in Hget. rewrite Hfound in Hget.
  destruct (load_all_data_saved fresh_exercise fresh_user fresh_workout
              fresh_quest (snd created) (files (snd created)) Hstor)
    as (new_db & Hload & Hfiles & Hidx & _ & _ & _ & Huser & _ & _ & Hemail).
  assert (Hsize : (get_size (user_btree new_db) =? 0) = false).
  { specialize (Huser id). unfold get_user, search_or_throw in Huser.
    rewrite Htree, Hfound in Huser.
    destruct (search (user_btree new_db) id) as [u|] eqn:E;
      [| discriminate].
    exact (search_some_size _ _ _ E). }
  unfold test_persistence. fold created.
  destruct created as [[returned | what] db1] eqn:Ecreated;
    cbn [fst snd] in *; [| discriminate].
  unfold new_PersistentFitnessDatabase. rewrite Hload, Hsize.
  rewrite Hemail, Hget. cbn [u_username user].
  eexists. split; [reflexivity |].
  intros c l i r n1 n2 n3 n4 n5. apply test_persistence_registered.
  cbn [email_index set_files]. rewrite Hindex, existsb_app. cbn.
  apply orb_true_r.
Qed.

End PersistenceTest.

Ltac storable_by_evaluation db :=
  unfold Disk.storable;
  repeat match goal with |- _ /\ _ => split end;
  [ tree_storable_by_evaluation (exercise_btree db)
  | tree_storable_by_evaluation (user_btree db)
  | tree_storable_by_evaluation (workout_btree db)
  | tree_storable_by_evaluation (quest_btree db)
  | vector_storable_by_evaluation (email_index db)
  | vector_storable_by_evaluation (graph_edges db)
  | vector_storable_by_evaluation (pq_entries db) ].

Lemma test_persistence_succeeds_once_witness :
  let std_hash := fun _ : string => 0%Z in
  let fresh_exercise := fun _ : nat => (EmptyString, Exercise_new 1700000009) in
  let fresh_user :=
    fun _ : nat => (EmptyString, User_new 1700000009 1700000009) in
  let fresh_workout :=
    fun _ : nat =>
      (EmptyString, WorkoutSession_new 1700000009 1700000009 42) in
  let fresh_quest := fun _ : nat => (EmptyString, Disk.default_Quest) in
  exists db',
    test_persistence std_hash fresh_exercise fresh_user fresh_workout
      fresh_quest 1700000100 1700000100 1700000100 7
      1700000200 1700000200 1700000200 1700000200 1700000200 first_start
    = Some (true, db') /\
    forall c l i r n1 n2 n3 n4 n5,
      test_persistence std_hash fresh_exercise fresh_user fresh_workout
        fresh_quest c l i r n1 n2 n3 n4 n5 db' = Some (false, db').
Proof.
  intros std_hash fresh_exercise fresh_user fresh_workout fresh_quest.
  apply (test_persistence_succeeds_once std_hash fresh_exercise fresh_user
           fresh_workout fresh_quest 1700000100 1700000100 1700000100 7
           1700000200 1700000200 1700000200 1700000200 1700000200
           first_start).
  - vm_compute. reflexivity.
  - destruct (consistent_sample 1700000000 1700000000 1700000000 1700000000
                1700000000) as (_ & (ops & Hops) & _).
    unfold first_start. rewrite Hops. apply build_inv.
  - vm_compute. repeat constructor.
  - vm_compute. intuition discriminate.
  - set (db1 := snd (create_user std_hash "TestUser" "test@test.com"
                       "password" 1700000100 1700000100 1700000100 7
                       first_start)).
    storable_by_evaluation db1.
Defined.

(** ** A caller of the orchestrator *)

Section CallerTheorems.
Context {Sort : StdSort}.

(** X30.  [completeQuest] puts the quest back into the priority queue.  For a
    quest id that [get_quest] finds, the queue afterwards holds the old
    entries and one more, for the quest marked completed, so that
    [get_next_quest] will hand out a completed quest; this has happened
    already when the lookup of the user then throws, which is the only way
    the call can fail.  For an unknown quest id the call throws and changes
    nothing. *)
Theorem completeQuest_requeues_the_quest (userId questId : string) (now : Z)
    (db : PersistentFitnessDatabase) :
  let result := completeQuest userId questId now db in
  match get_quest questId db with
  | Thrown what => result = (Thrown what, db)
  | Returned quest =>
      (exists entry,
          Permutation (pq_entries (snd result)) (entry :: pq_entries db) /\
          q_id (pq_quest entry) = q_id quest /\
          q_completed (pq_quest entry) = true /\
          pq_priority entry = q_priority quest) /\
      (fst result = Returned tt <->
       exists user, get_user userId db = Returned user)
  end.
Proof.
  intros result. subst result. unfold completeQuest.
  destruct (get_quest questId db) as [quest | what]; [| reflexivity].
  cbv zeta.
  set (completed := {| q_id := q_id quest; q_completed := true |}).
  assert (Huser : get_user userId (add_quest completed now db) =
                  get_user userId db) by reflexivity.
  rewrite Huser.
  destruct (add_quest_always_enqueues completed now db) as [Hperm _].
  split.
  - exists {| pq_quest := completed; pq_priority := q_priority completed;
              pq_timestamp := now |}.
    split; [| now repeat split].
    destruct (get_user userId db) as [user | what]; cbn [snd].
    + unfold update_user. db_simpl. exact Hperm.
    + exact Hperm.
  - destruct (get_user userId db) as [user | what]; cbn [fst].
    + split; eauto.
    + split; [discriminate | intros (user & H); discriminate].
Qed.

End CallerTheorems.
